(** * FastREST: the request-dispatch engine, embedded and verified

    A shallow embedding of the dispatch core of the FastREST repository:
    the route table ([router.go]), the request context ([context/context.go]),
    the auth middlewares ([middlewares/auth.go]), the metrics collector
    ([metrics/metrics.go]) and the dispatcher of the application
    ([handleRequest], [buildChain], [acquireCtx], [releaseCtx]).

    Conventions.
    - Go strings are byte strings: [string] (a list of [ascii]).
    - Go maps and [sync.Map] are [gmap]s.
    - [int64] is [Z] with the wrap-around of [wrap64] written out; [float64]
      is the kernel's binary64 [float].
    - A Go run-time panic (nil dereference, failed type assertion) is [None]
      in the [option] monad; [Some] carries the state after the call.
    - A handler [func(c *Ctx) error] mutates the context it is given and
      returns an error or nil: [Ctx -> option (Ctx * option error)].
    - Readings of the clock ([time.Since]) are inputs of the functions that
      take them. *)

From Stdlib Require Import ZArith String Ascii List DecimalString.
From Stdlib Require Import Floats.
From Stdlib Require DecimalPos DecimalZ.
From stdpp Require Import base option gmap strings list sorting.

Local Open Scope string_scope.
Local Open Scope list_scope.

(** ** The pieces of Go's [strings] and [fmt] packages the code calls *)

Module GoStrings.

(** [s[i:]] for [i <= len(s)]. *)
Fixpoint from (i : nat) (s : string) : string :=
  match i, s with
  | O, _ => s
  | S i', String _ s' => from i' s'
  | S _, EmptyString => EmptyString
  end.

(** [s[:i]] for [i <= len(s)]. *)
Fixpoint upto (i : nat) (s : string) : string :=
  match i, s with
  | S i', String a s' => String a (upto i' s')
  | _, _ => EmptyString
  end.

(** [strings.HasPrefix(s, prefix)]:
    [len(s) >= len(prefix) && s[:len(prefix)] == prefix]. *)
Definition HasPrefix (s prefix : string) : bool :=
  (String.length prefix <=? String.length s)%nat
  && String.eqb (upto (String.length prefix) s) prefix.

(** [strings.HasSuffix(s, suffix)]:
    [len(s) >= len(suffix) && s[len(s)-len(suffix):] == suffix]. *)
Definition HasSuffix (s suffix : string) : bool :=
  (String.length suffix <=? String.length s)%nat
  && String.eqb (from (String.length s - String.length suffix) s) suffix.

(** [strings.TrimSuffix(s, suffix)]. *)
Definition TrimSuffix (s suffix : string) : string :=
  if HasSuffix s suffix
  then upto (String.length s - String.length suffix) s
  else s.

(** The text before and after the first occurrence of the separator
    byte, when there is one. *)
Fixpoint cut (sep : ascii) (s : string) : option (string * string) :=
  match s with
  | EmptyString => None
  | String a s' =>
      if decide (a = sep) then Some (EmptyString, s')
      else match cut sep s' with
           | Some (before, after) => Some (String a before, after)
           | None => None
           end
  end.

(** [strings.SplitN(s, sep, n)] for a one-byte separator and [n >= 0]:
    at most [n] pieces, the last one the unsplit remainder. *)
Fixpoint SplitN (s : string) (sep : ascii) (n : nat) : list string :=
  match n with
  | O => []
  | S O => [s]
  | S n' =>
      match cut sep s with
      | Some (before, after) => before :: SplitN after sep n'
      | None => [s]
      end
  end.

(** [strings.Split(s, sep)] for a one-byte separator: every piece. *)
Fixpoint Split (s : string) (sep : ascii) : list string :=
  match s with
  | EmptyString => [EmptyString]
  | String a s' =>
      if decide (a = sep) then EmptyString :: Split s' sep
      else match Split s' sep with
           | piece :: pieces => String a piece :: pieces
           | [] => [String a EmptyString]
           end
  end.

(** The double quote, for the label syntax of the text exposition. *)
Definition dquote : string := String (ascii_of_nat 34) EmptyString.

(** The verb [%d] of [fmt.Sprintf]. *)
Definition fmt_d (z : Z) : string := NilZero.string_of_int (Z.to_int z).

End GoStrings.

Import GoStrings.

(** ** Request context ([context/context.go]) *)

(** An [error] value, by its message. *)
Definition error := string.

(** The values the code stores behind [interface{}]: request-scoped locals
    and JSON payloads. [encoding/json] marshals every one of them. *)
Inductive Any :=
| AnyString (s : string)
| AnyInt (z : Z)
| AnyBool (b : bool)
| AnyStrings (l : list string)
| AnyStringMap (m : gmap string string).

(** What the transport delivers: method, path, header lookup
    ([Request.Header.Peek], the empty string when absent) and body. *)
Record Request := mkRequest {
  req_Method : string;
  req_Path : string;
  req_Peek : string -> string;
  req_Body : string
}.

(** The body handed to the response sink: a value to be JSON-encoded or a
    plain string. *)
Inductive Payload :=
| PayloadJSON (v : Any)
| PayloadString (s : string).

(** The response sink. [resp_statusCode] is the status stored, [0] until
    one is set; [Response.StatusCode()], which the dispatcher reads it back
    with, gives 200 then. *)
Record Response := mkResponse {
  resp_statusCode : Z;
  resp_contentType : string;
  resp_header : gmap string string;
  resp_body : option Payload
}.

Record RequestCtx := mkRequestCtx {
  fctx_Request : Request;
  fctx_Response : Response
}.

(** [type AuthInfo struct]; the field [Type] is spelt [Type_]. *)
Record AuthInfo := mkAuthInfo {
  Type_ : string;
  Value : string;
  Username : string;
  Password : string;
  Valid : bool
}.

(** The [*metrics.Metrics] a [MetricsLogger] was built with: the collector
    of the application (the one [New] creates and wraps the logger with
    under [Config.LogMetrics]) or another collector of the caller's, which
    the application never reads. *)
Inductive MetricsRef :=
| AppMetrics
| OtherMetrics (name : string).

(** [logging.Logger] implementations: the console logger, a caller-supplied
    one, and the [MetricsLogger] wrapper ([logger] and [metrics]) that
    counts errors in the collector it was built with. *)
Inductive Logger :=
| ConsoleLogger
| CustomLogger (name : string)
| MetricsLogger (logger : Logger) (metrics : MetricsRef).

(** [type Ctx struct]: the embedded [*fasthttp.RequestCtx] and [Logger] are
    nil ([None]) while the object sits in the pool. The fields that share
    their name with a type or a function carry the prefix [Ctx_]. *)
Record Ctx := mkCtx {
  Ctx_RequestCtx : option RequestCtx;
  Params : gmap string string;
  Locals : gmap string Any;
  Ctx_Logger : option Logger;
  Ctx_Auth : option AuthInfo
}.

Definition Handler := Ctx -> option (Ctx * option error).
Definition Middleware := Handler -> Handler.

(** Status codes of [constant]. *)
Definition StatusOK : Z := 200.
Definition StatusUnauthorized : Z := 401.
Definition StatusNotFound : Z := 404.
Definition StatusInternalServerError : Z := 500.

Definition set_Response (f : Response -> Response) (c : Ctx) : option Ctx :=
  fctx ← Ctx_RequestCtx c;
  Some (mkCtx (Some (mkRequestCtx (fctx_Request fctx) (f (fctx_Response fctx))))
              (Params c) (Locals c) (Ctx_Logger c) (Ctx_Auth c)).

Definition SetStatusCode (code : Z) (r : Response) : Response :=
  mkResponse code (resp_contentType r) (resp_header r) (resp_body r).
Definition SetContentType (t : string) (r : Response) : Response :=
  mkResponse (resp_statusCode r) t (resp_header r) (resp_body r).
Definition SetBody (p : Payload) (r : Response) : Response :=
  mkResponse (resp_statusCode r) (resp_contentType r) (resp_header r) (Some p).
Definition Header_Set (key value : string) (r : Response) : Response :=
  mkResponse (resp_statusCode r) (resp_contentType r)
             (<[key := value]> (resp_header r)) (resp_body r).

(** [c.Param(key)]: the empty string for a missing key. *)
Definition Ctx_Param (key : string) (c : Ctx) : string :=
  default "" (Params c !! key).

(** [c.JSON(status, v)]. The marshalling of an [Any] never fails. *)
Definition Ctx_JSON (status : Z) (v : Any) (c : Ctx) : option (Ctx * option error) :=
  c1 ← set_Response (SetContentType "application/json") c;
  c2 ← set_Response (SetStatusCode status) c1;
  c3 ← set_Response (SetBody (PayloadJSON v)) c2;
  Some (c3, None).

(** [c.String(status, s)]. *)
Definition Ctx_String (status : Z) (s : string) (c : Ctx) : option (Ctx * option error) :=
  c1 ← set_Response (SetContentType "text/plain") c;
  c2 ← set_Response (SetStatusCode status) c1;
  c3 ← set_Response (SetBody (PayloadString s)) c2;
  Some (c3, None).

(** [c.Status(code)]. *)
Definition Ctx_Status (code : Z) (c : Ctx) : option Ctx :=
  set_Response (SetStatusCode code) c.

(** [c.Set(key, value)]: a response header. *)
Definition Ctx_Set (key value : string) (c : Ctx) : option Ctx :=
  set_Response (Header_Set key value) c.

(** [c.Get(key)]: a request header. *)
Definition Ctx_Get (key : string) (c : Ctx) : option string :=
  fctx ← Ctx_RequestCtx c;
  Some (req_Peek (fctx_Request fctx) key).

(** [Response.StatusCode()] of fasthttp: the status stored, and 200 while
    none has been stored (the field is 0 until [SetStatusCode]). *)
Definition Response_StatusCode (r : Response) : Z :=
  if (resp_statusCode r =? 0)%Z then StatusOK else resp_statusCode r.

(** [c.Response.StatusCode()], as the dispatcher and the request logger
    read it. *)
Definition Ctx_StatusCode (c : Ctx) : option Z :=
  fctx ← Ctx_RequestCtx c;
  Some (Response_StatusCode (fctx_Response fctx)).

Definition Ctx_SetLocal (key : string) (value : Any) (c : Ctx) : Ctx :=
  mkCtx (Ctx_RequestCtx c) (Params c) (<[key := value]> (Locals c))
        (Ctx_Logger c) (Ctx_Auth c).

Definition Ctx_GetLocal (key : string) (c : Ctx) : option Any :=
  Locals c !! key.

Definition Ctx_GetAuth (c : Ctx) : option AuthInfo := Ctx_Auth c.

Definition Ctx_SetAuth (auth : AuthInfo) (c : Ctx) : Ctx :=
  mkCtx (Ctx_RequestCtx c) (Params c) (Locals c) (Ctx_Logger c) (Some auth).

Definition error_body (msg : string) : Any :=
  AnyStringMap {[ "error" := msg ]}.

(** [c.Unauthorized(msg)]. *)
Definition Ctx_Unauthorized (msg : string) (c : Ctx) : option (Ctx * option error) :=
  Ctx_JSON StatusUnauthorized (error_body msg) c.

(** ** Route table ([router.go]) *)

Record Route := mkRoute {
  Method : string;
  Path : string;
  Handlers : list Handler;
  Route_middleware : list Middleware
}.

(** A [Router] is a view (prefix and middleware) on the table shared by the
    root router and all its groups ([routes *[]*Route]); the table is passed
    explicitly. *)
Record Router := mkRouter {
  prefix : string;
  Router_middleware : list Middleware
}.

Definition newRouter (prefix : string) : Router := mkRouter prefix [].

Definition Group (r : Router) (prefix' : string) : Router :=
  mkRouter (prefix r +:+ prefix') ([] ++ Router_middleware r).

Definition Router_Use (r : Router) (mw : list Middleware) : Router :=
  mkRouter (prefix r) (Router_middleware r ++ mw).

(** [r.add(method, path, handlers...)]: the table after the call. *)
Definition add (r : Router) (method path : string) (handlers : list Handler)
    (routes : list Route) : list Route :=
  let fullPath := prefix r +:+ path in
  let route := mkRoute method fullPath handlers ([] ++ Router_middleware r) in
  routes ++ [route].

(** The loop of [matchPath] over the pattern's parts, with the parameters
    bound so far. The index [i] of the source runs over both lists at once;
    [pathParts[i]] is in range because the lengths were compared. *)
Fixpoint matchParts (patternParts pathParts : list string)
    (params : gmap string string) : option (gmap string string) :=
  match patternParts, pathParts with
  | [], _ => Some params
  | part :: patternParts', seg :: pathParts' =>
      if HasPrefix part ":" then
        matchParts patternParts' pathParts' (<[from 1 part := seg]> params)
      else if negb (String.eqb part seg) then None
      else matchParts patternParts' pathParts' params
  | _ :: _, [] => None
  end.

(** [matchPath(pattern, path)]: [(nil, false)] is [None]. *)
Definition matchPath (pattern path : string) : option (gmap string string) :=
  let patternParts := Split pattern "/" in
  let pathParts := Split path "/" in
  if negb (length patternParts =? length pathParts)%nat then None
  else matchParts patternParts pathParts ∅.

(** [r.find(method, path)]: the scan of the table in registration order. *)
Fixpoint find (routes : list Route) (method path : string)
    : option (Route * gmap string string) :=
  match routes with
  | [] => None
  | route :: routes' =>
      if negb (String.eqb (Method route) method) then find routes' method path
      else match matchPath (Path route) path with
           | Some params => Some (route, params)
           | None => find routes' method path
           end
  end.

Definition Count (routes : list Route) : nat := length routes.

Definition Router_GET (r : Router) := add r "GET".
Definition Router_POST (r : Router) := add r "POST".
Definition Router_PUT (r : Router) := add r "PUT".
Definition Router_PATCH (r : Router) := add r "PATCH".
Definition Router_DELETE (r : Router) := add r "DELETE".
Definition Router_HEAD (r : Router) := add r "HEAD".
Definition Router_OPTIONS (r : Router) := add r "OPTIONS".

(** ** Metrics collector ([metrics/metrics.go]) *)

(** The value an [int64] holds after an addition whose exact result is [z]. *)
Definition wrap64 (z : Z) : Z := ((z + 2 ^ 63) mod 2 ^ 64 - 2 ^ 63)%Z.

(** [float64(n)] for an [int64] [n]. *)
Definition float64_of_int64 (n : Z) : float :=
  if (n =? - 2 ^ 63)%Z then
    PrimFloat.opp (PrimFloat.mul (PrimFloat.of_uint63 (Uint63.of_Z 2))
                                 (PrimFloat.of_uint63 (Uint63.of_Z (2 ^ 62))))
  else if (n <? 0)%Z then PrimFloat.opp (PrimFloat.of_uint63 (Uint63.of_Z (- n)))
  else PrimFloat.of_uint63 (Uint63.of_Z n).

(** A [time.Duration] is an [int64] count of nanoseconds. *)
Definition Milliseconds (d : Z) : Z := (d ÷ 1000000)%Z.

Module GoFmt.

(** The quotient [n / d] of naturals rounded to the nearest integer, ties
    to even: the rounding of [strconv] for a fixed precision. *)
Definition round_half_even (n d : Z) : Z :=
  let q := (n / d)%Z in
  match (2 * (n mod d) ?= d)%Z with
  | Lt => q
  | Gt => (q + 1)%Z
  | Eq => if Z.even q then q else (q + 1)%Z
  end.

Definition two_digits (z : Z) : string :=
  if (z <? 10)%Z then "0" +:+ fmt_d z else fmt_d z.

(** The verb [%.2f] of [fmt.Sprintf]: the exact value of the float,
    [m * 2^e], rounded to hundredths. *)
Definition fmt_2f (x : float) : string :=
  match Prim2SF x with
  | S754_nan => "NaN"
  | S754_infinity s => if s then "-Inf" else "+Inf"
  | S754_zero s => (if s then "-" else "") +:+ "0.00"
  | S754_finite s m e =>
      let h := if (0 <=? e)%Z then (Z.pos m * 100 * 2 ^ e)%Z
               else round_half_even (Z.pos m * 100) (2 ^ (- e)) in
      (if s then "-" else "") +:+ fmt_d (h / 100) +:+ "." +:+ two_digits (h mod 100)
  end.

End GoFmt.

Import GoFmt.

Record LatencyBucket := mkLatencyBucket {
  sum : float;
  count : Z
}.

(** What [requestLatency] holds: under the key of a (method, path) the
    [*sync.Mutex], under that key followed by [_bucket] the
    [*LatencyBucket]. *)
Inductive LatencyEntry :=
| EntryMutex
| EntryBucket (bucket : LatencyBucket).

(** [type Metrics struct]. The field [startTime] is read only to compute
    the uptime, which the renderings take as an input here. *)
Record Metrics := mkMetrics {
  requestTotal : gmap string Z;
  requestLatency : gmap string LatencyEntry;
  errorTotal : gmap string Z;
  logCount : gmap string Z;
  activeConns : Z
}.

Record MetricsJSON := mkMetricsJSON {
  Requests : gmap string Z;
  Errors : gmap string Z;
  Latencies : gmap string float;
  Logs : gmap string Z;
  ActiveConns : Z;
  UptimeSecond : float
}.

Definition Metrics_New : Metrics := mkMetrics ∅ ∅ ∅ ∅ 0.

(** [sync.Map.LoadOrStore]: the value in the map after the call, and the
    map. *)
Definition LoadOrStore {V} (key : string) (value : V) (m : gmap string V)
    : V * gmap string V :=
  match m !! key with
  | Some actual => (actual, m)
  | None => (value, <[key := value]> m)
  end.

(** [LoadOrStore(key, new(int64))] followed by [atomic.AddInt64(val, 1)]. *)
Definition add_one (key : string) (counters : gmap string Z) : gmap string Z :=
  let '(val, counters') := LoadOrStore key 0%Z counters in
  <[key := wrap64 (val + 1)]> counters'.

Definition request_key (method path : string) (status : Z) : string :=
  method +:+ "_" +:+ path +:+ "_" +:+ fmt_d status.

Definition latency_key (method path : string) : string :=
  method +:+ "_" +:+ path.

Definition error_key (method path errorType : string) : string :=
  method +:+ "_" +:+ path +:+ "_" +:+ errorType.

Definition IncRequestTotal (m : Metrics) (method path : string) (status : Z) : Metrics :=
  mkMetrics (add_one (request_key method path status) (requestTotal m))
            (requestLatency m) (errorTotal m) (logCount m) (activeConns m).

(** The two type assertions panic when the entry found under the key is of
    the other kind. *)
Definition ObserveLatency (m : Metrics) (method path : string) (duration : Z)
    : option Metrics :=
  let key := latency_key method path in
  let '(val, latency1) := LoadOrStore key EntryMutex (requestLatency m) in
  match val with
  | EntryBucket _ => None
  | EntryMutex =>
      let bucketKey := key +:+ "_bucket" in
      let '(bucketVal, latency2) :=
        LoadOrStore bucketKey (EntryBucket (mkLatencyBucket 0%float 0)) latency1 in
      match bucketVal with
      | EntryMutex => None
      | EntryBucket bucket =>
          let bucket' :=
            mkLatencyBucket
              (PrimFloat.add (sum bucket) (float64_of_int64 (Milliseconds duration)))
              (wrap64 (count bucket + 1)) in
          Some (mkMetrics (requestTotal m)
                          (<[bucketKey := EntryBucket bucket']> latency2)
                          (errorTotal m) (logCount m) (activeConns m))
      end
  end.

Definition IncError (m : Metrics) (method path errorType : string) : Metrics :=
  mkMetrics (requestTotal m) (requestLatency m)
            (add_one (error_key method path errorType) (errorTotal m))
            (logCount m) (activeConns m).

Definition IncLogCount (m : Metrics) (level : string) : Metrics :=
  mkMetrics (requestTotal m) (requestLatency m) (errorTotal m)
            (add_one level (logCount m)) (activeConns m).

(** The keys a [Range] over a [sync.Map] visits, in the order it visits
    them. *)
Definition Range_keys {V} (m : gmap string V) : list string := (map_to_list m).*1.

(** [sort.Strings]. *)
Definition sort_Strings (keys : list string) : list string :=
  merge_sort String.le keys.

(** The mean of a bucket, as both renderings compute it. *)
Definition mean (bucket : LatencyBucket) : float :=
  PrimFloat.div (sum bucket) (float64_of_int64 (count bucket)).

Definition nl : string := String (ascii_of_nat 10) "".

(** One line of the exposition, [name{label="value",...} number], as the
    format strings of [ToPrometheus] lay it out. *)
Definition label (l : string * string) : string :=
  l.1 +:+ "=" +:+ dquote +:+ l.2 +:+ dquote.

Fixpoint join_comma (items : list string) : string :=
  match items with
  | [] => ""
  | [item] => item
  | item :: items' => item +:+ "," +:+ join_comma items'
  end.

Definition sample (name : string) (labels : list (string * string))
    (number : string) : string :=
  name +:+ "{" +:+ join_comma (label <$> labels) +:+ "} " +:+ number +:+ nl.

Definition request_line (key : string) (val : Z) : string :=
  match SplitN key "_" 3 with
  | [p0; p1; p2] =>
      sample "http_requests_total"
             [("method", p0); ("path", p1); ("status", p2)] (fmt_d val)
  | _ => ""
  end.

Definition error_line (key : string) (val : Z) : string :=
  match SplitN key "_" 3 with
  | [p0; p1; p2] =>
      sample "http_errors_total"
             [("method", p0); ("path", p1); ("type", p2)] (fmt_d val)
  | _ => ""
  end.

(** The line of a latency key once the bucket is known to be counted:
    [avg] is printed with [%.2f]. *)
Definition latency_sample (key : string) (avg : float) : string :=
  let baseKey := TrimSuffix key "_bucket" in
  match SplitN baseKey "_" 2 with
  | [p0; p1] =>
      sample "http_request_duration_ms" [("method", p0); ("path", p1)] (fmt_2f avg)
  | _ => ""
  end.

Definition latency_line (key : string) (bucket : LatencyBucket) : string :=
  if (count bucket >? 0)%Z then latency_sample key (mean bucket) else "".

(** The loop over the sorted keys of a counter map: [Load], then the line. *)
Definition counter_lines (line : string -> Z -> string) (counters : gmap string Z)
    : option (list string) :=
  mapM (fun key => val ← counters !! key; Some (line key val))
       (sort_Strings (Range_keys counters)).

(** The loop over the sorted [_bucket] keys; the type assertion of the
    loaded value to a bucket panics on a mutex entry. *)
Definition latency_lines (latency : gmap string LatencyEntry) : option (list string) :=
  mapM (fun key =>
          val ← latency !! key;
          match val with
          | EntryBucket bucket => Some (latency_line key bucket)
          | EntryMutex => None
          end)
       (sort_Strings (filter (fun key => HasSuffix key "_bucket" = true)
                             (Range_keys latency))).

(** [m.ToPrometheus()]: the pieces written to the builder, in order.
    [uptime] is the reading of [time.Since(m.startTime).Seconds()]. *)
Definition ToPrometheus_pieces (m : Metrics) (uptime : float) : option (list string) :=
  requests ← counter_lines request_line (requestTotal m);
  latencies ← latency_lines (requestLatency m);
  errors ← counter_lines error_line (errorTotal m);
  Some (["# HELP http_requests_total Total number of HTTP requests" +:+ nl;
         "# TYPE http_requests_total counter" +:+ nl]
        ++ requests
        ++ [nl +:+ "# HELP http_request_duration_ms HTTP request latency in milliseconds" +:+ nl;
            "# TYPE http_request_duration_ms gauge" +:+ nl]
        ++ latencies
        ++ [nl +:+ "# HELP http_errors_total Total number of HTTP errors" +:+ nl;
            "# TYPE http_errors_total counter" +:+ nl]
        ++ errors
        ++ [nl +:+ "# HELP active_connections Current active connections" +:+ nl;
            "# TYPE active_connections gauge" +:+ nl;
            "active_connections " +:+ fmt_d (activeConns m) +:+ nl;
            nl +:+ "# HELP uptime_seconds Server uptime in seconds" +:+ nl;
            "# TYPE uptime_seconds gauge" +:+ nl;
            "uptime_seconds " +:+ fmt_2f uptime +:+ nl]).

Definition ToPrometheus (m : Metrics) (uptime : float) : option string :=
  pieces ← ToPrometheus_pieces m uptime;
  Some (foldr String.append "" pieces).

(** A [Range] that copies every entry into a fresh map. *)
Definition Range_copy (counters : gmap string Z) : gmap string Z :=
  foldr (fun kv result => <[kv.1 := kv.2]> result) ∅ (map_to_list counters).

(** The callback of the [Range] of [ToJSON] over [requestLatency]: the
    entry visited and the snapshot so far; the type assertion panics on a
    mutex under a [_bucket] key. *)
Definition latencies_step (kv : string * LatencyEntry)
    (acc : option (gmap string float)) : option (gmap string float) :=
  result ← acc;
  if HasSuffix kv.1 "_bucket" then
    match kv.2 with
    | EntryMutex => None
    | EntryBucket bucket =>
        if (count bucket >? 0)%Z
        then Some (<[TrimSuffix kv.1 "_bucket" := mean bucket]> result)
        else Some result
    end
  else Some result.

Definition Range_latencies (latency : gmap string LatencyEntry)
    : option (gmap string float) :=
  foldr latencies_step (Some ∅) (map_to_list latency).

(** [m.ToJSON()]. *)
Definition ToJSON (m : Metrics) (uptime : float) : option MetricsJSON :=
  latencies ← Range_latencies (requestLatency m);
  Some (mkMetricsJSON (Range_copy (requestTotal m)) (Range_copy (errorTotal m))
                      latencies (Range_copy (logCount m)) (activeConns m) uptime).

(** ** [base64.StdEncoding.DecodeString] *)

Module GoBase64.

(** The six bits a byte of the standard alphabet stands for. *)
Definition value (a : ascii) : option N :=
  let n := N_of_ascii a in
  if ((65 <=? n) && (n <=? 90))%N then Some (n - 65)%N
  else if ((97 <=? n) && (n <=? 122))%N then Some (n - 71)%N
  else if ((48 <=? n) && (n <=? 57))%N then Some (n + 4)%N
  else if (n =? 43)%N then Some 62%N
  else if (n =? 47)%N then Some 63%N
  else None.

Definition byte (n : N) : ascii := ascii_of_N (n mod 256).

(** Quantum by quantum: four alphabet bytes give three bytes; the last
    quantum may end in one or two padding bytes. *)
Fixpoint decode (s : string) : option string :=
  match s with
  | EmptyString => Some EmptyString
  | String a (String b (String c (String d rest))) =>
      va ← value a;
      vb ← value b;
      if decide (d = "="%char) then
        match rest with
        | String _ _ => None
        | EmptyString =>
            if decide (c = "="%char) then
              Some (String (byte ((va * 64 + vb) / 16)) EmptyString)
            else
              vc ← value c;
              let n := ((va * 64 + vb) * 64 + vc)%N in
              Some (String (byte (n / 1024)) (String (byte (n / 4)) EmptyString))
        end
      else
        vc ← value c;
        vd ← value d;
        tail ← decode rest;
        let n := (((va * 64 + vb) * 64 + vc) * 64 + vd)%N in
        Some (String (byte (n / 65536))
                (String (byte (n / 256)) (String (byte n) tail)))
  | _ => None
  end.

(** Carriage returns and line feeds are skipped before decoding. *)
Fixpoint strip_newlines (s : string) : string :=
  match s with
  | EmptyString => EmptyString
  | String a s' =>
      if decide (a = ascii_of_nat 13 ∨ a = ascii_of_nat 10)
      then strip_newlines s'
      else String a (strip_newlines s')
  end.

(** [None] is the decoder's error. *)
Definition DecodeString (s : string) : option string :=
  decode (strip_newlines s).

End GoBase64.

(** ** Auth middlewares ([middlewares/auth.go]) *)

Definition BasicAuthValidator := string -> string -> bool.
Definition BearerAuthValidator := string -> bool.
Definition APIKeyValidator := string -> bool.

(** A validator of the configuration may be nil. *)
Record AuthConfig := mkAuthConfig {
  BasicValidator : option BasicAuthValidator;
  BearerValidator : option BearerAuthValidator;
  APIKeyValidator_ : option APIKeyValidator;
  APIKeyName : string
}.

Definition NewAuthConfig : AuthConfig := mkAuthConfig None None None "X-API-Key".

Definition SetBasicValidator (c : AuthConfig) (v : BasicAuthValidator) : AuthConfig :=
  mkAuthConfig (Some v) (BearerValidator c) (APIKeyValidator_ c) (APIKeyName c).
Definition SetBearerValidator (c : AuthConfig) (v : BearerAuthValidator) : AuthConfig :=
  mkAuthConfig (BasicValidator c) (Some v) (APIKeyValidator_ c) (APIKeyName c).
Definition SetAPIKeyValidator (c : AuthConfig) (v : APIKeyValidator) : AuthConfig :=
  mkAuthConfig (BasicValidator c) (BearerValidator c) (Some v) (APIKeyName c).
Definition SetAPIKeyName (c : AuthConfig) (name : string) : AuthConfig :=
  mkAuthConfig (BasicValidator c) (BearerValidator c) (APIKeyValidator_ c) name.

Definition realm : string :=
  "Basic realm=" +:+ dquote +:+ "Restricted" +:+ dquote.

Definition BasicAuth (validator : BasicAuthValidator) : Middleware :=
  fun next c =>
    auth ← Ctx_Get "Authorization" c;
    if decide (auth = "") then
      c ← Ctx_Set "WWW-Authenticate" realm c;
      Ctx_Unauthorized "missing authorization header" c
    else if negb (HasPrefix auth "Basic ") then
      Ctx_Unauthorized "invalid authorization type" c
    else
      match GoBase64.DecodeString (from 6 auth) with
      | None => Ctx_Unauthorized "invalid base64 encoding" c
      | Some decoded =>
          match SplitN decoded ":" 2 with
          | [username; password] =>
              if negb (validator username password) then
                Ctx_Unauthorized "invalid credentials" c
              else
                next (Ctx_SetAuth (mkAuthInfo "basic" "" username password true) c)
          | _ => Ctx_Unauthorized "invalid credentials format" c
          end
      end.

Definition BearerAuth (validator : BearerAuthValidator) : Middleware :=
  fun next c =>
    auth ← Ctx_Get "Authorization" c;
    if decide (auth = "") then
      Ctx_Unauthorized "missing authorization header" c
    else if negb (HasPrefix auth "Bearer ") then
      Ctx_Unauthorized "invalid authorization type" c
    else
      let token := from 7 auth in
      if negb (validator token) then Ctx_Unauthorized "invalid token" c
      else next (Ctx_SetAuth (mkAuthInfo "bearer" token "" "" true) c).

Definition APIKeyAuth (validator : APIKeyValidator) (headerName : string) : Middleware :=
  let headerName := if decide (headerName = "") then "X-API-Key" else headerName in
  fun next c =>
    key ← Ctx_Get headerName c;
    if decide (key = "") then Ctx_Unauthorized "missing API key" c
    else if negb (validator key) then Ctx_Unauthorized "invalid API key" c
    else next (Ctx_SetAuth (mkAuthInfo "apikey" key "" "" true) c).

(** The combined middleware [Auth(config)]. A condition
    [cond && validator != nil] is the validator when both hold. *)
Definition Auth (config : AuthConfig) : Middleware :=
  fun next c =>
    auth ← Ctx_Get "Authorization" c;
    apiKey ← Ctx_Get (APIKeyName config) c;
    match (if decide (apiKey = "") then None else APIKeyValidator_ config) with
    | Some validator =>
        if validator apiKey then
          next (Ctx_SetAuth (mkAuthInfo "apikey" apiKey "" "" true) c)
        else Ctx_Unauthorized "invalid API key" c
    | None =>
        if decide (auth = "") then
          c ← Ctx_Set "WWW-Authenticate" realm c;
          Ctx_Unauthorized "missing authorization" c
        else
          match (if HasPrefix auth "Bearer " then BearerValidator config else None) with
          | Some validator =>
              let token := from 7 auth in
              if validator token then
                next (Ctx_SetAuth (mkAuthInfo "bearer" token "" "" true) c)
              else Ctx_Unauthorized "invalid token" c
          | None =>
              match (if HasPrefix auth "Basic " then BasicValidator config else None) with
              | Some validator =>
                  match GoBase64.DecodeString (from 6 auth) with
                  | None => Ctx_Unauthorized "invalid base64 encoding" c
                  | Some decoded =>
                      match SplitN decoded ":" 2 with
                      | [username; password] =>
                          if validator username password then
                            next (Ctx_SetAuth
                                    (mkAuthInfo "basic" "" username password true) c)
                          else Ctx_Unauthorized "invalid credentials" c
                      | _ => Ctx_Unauthorized "invalid credentials format" c
                      end
                  end
              | None => Ctx_Unauthorized "invalid authorization" c
              end
          end
    end.

(** ** The application and its dispatcher *)

(** The fields of [App] the dispatch path reads or writes. [routes] is the
    table behind [router.routes]; [metrics] is nil unless [Config.Metrics]
    is set; [pool] is the free list of the [sync.Pool]. *)
Record App := mkApp {
  router : Router;
  routes : list Route;
  App_middleware : list Middleware;
  logger : Logger;
  metrics : option Metrics;
  pool : list Ctx
}.

(** [app.pool.New]. *)
Definition pool_New : Ctx := mkCtx None ∅ ∅ None None.

(** [pool.Get()]: an object put back earlier, or a new one. The free list
    hands out the most recently released object first. *)
Definition pool_Get (pool : list Ctx) : Ctx * list Ctx :=
  match pool with
  | c :: pool' => (c, pool')
  | [] => (pool_New, [])
  end.

Definition pool_Put (c : Ctx) (pool : list Ctx) : list Ctx := c :: pool.

(** [for k := range m { delete(m, k) }]. *)
Definition delete_all {V} (m : gmap string V) : gmap string V :=
  foldr (fun k m' => delete k m') m (Range_keys m).

(** The body of [acquireCtx] once the pool has handed out [c]. *)
Definition attach (logger : Logger) (fctx : RequestCtx) (c : Ctx) : Ctx :=
  let c := mkCtx (Some fctx) (Params c) (Locals c) (Ctx_Logger c) (Ctx_Auth c) in
  let c := mkCtx (Ctx_RequestCtx c) (Params c) (Locals c) (Some logger) (Ctx_Auth c) in
  let c := mkCtx (Ctx_RequestCtx c) (delete_all (Params c)) (Locals c)
                 (Ctx_Logger c) (Ctx_Auth c) in
  mkCtx (Ctx_RequestCtx c) (Params c) (delete_all (Locals c)) (Ctx_Logger c) (Ctx_Auth c).

Definition set_pool (a : App) (pool' : list Ctx) : App :=
  mkApp (router a) (routes a) (App_middleware a) (logger a) (metrics a) pool'.

Definition set_metrics (a : App) (m : Metrics) : App :=
  mkApp (router a) (routes a) (App_middleware a) (logger a) (Some m) (pool a).

Definition acquireCtx (a : App) (fctx : RequestCtx) : Ctx * App :=
  let '(c, pool') := pool_Get (pool a) in
  (attach (logger a) fctx c, set_pool a pool').

Definition releaseCtx (a : App) (c : Ctx) : App :=
  let c := mkCtx None (Params c) (Locals c) (Ctx_Logger c) (Ctx_Auth c) in
  let c := mkCtx (Ctx_RequestCtx c) (Params c) (Locals c) None (Ctx_Auth c) in
  set_pool a (pool_Put c (pool a)).

Definition App_Use (a : App) (mw : list Middleware) : App :=
  mkApp (router a) (routes a) (App_middleware a ++ mw) (logger a) (metrics a) (pool a).

(** Registration through the application or one of its groups: the table
    is the application's. *)
Definition register (a : App) (r : Router) (method path : string)
    (handlers : list Handler) : App :=
  mkApp (router a) (add r method path handlers (routes a)) (App_middleware a)
        (logger a) (metrics a) (pool a).

Definition App_GET (a : App) (path : string) (handlers : list Handler) : App :=
  register a (router a) "GET" path handlers.

(** One step of the first loop of [buildChain]: [h], then [next] unless [h]
    failed. *)
Definition then_ (h next : Handler) : Handler :=
  fun c =>
    '(c, err) ← h c;
    match err with
    | Some e => Some (c, Some e)
    | None => next c
    end.

(** [a.buildChain(handlers, routeMiddleware)]. Both loops run from the last
    index down to the first. *)
Definition buildChain (a : App) (handlers : list Handler)
    (routeMiddleware : list Middleware) : Handler :=
  match reverse handlers with
  | [] => fun c => Some (c, None)
  | last :: before =>
      let final := foldl (fun next h => then_ h next) last before in
      let allMiddleware := App_middleware a ++ routeMiddleware in
      foldl (fun final mw => mw final) final (reverse allMiddleware)
  end.

(** [logger.Error(...)], by what it does to the collector of the
    application: what is written to the console is not kept; a
    [MetricsLogger] first counts the call in the collector it was built
    with, which moves the application's counter only when that collector is
    the application's, and then calls the logger it wraps. *)
Fixpoint Logger_Error (l : Logger) (m : Metrics) : Metrics :=
  match l with
  | MetricsLogger l' AppMetrics => Logger_Error l' (IncLogCount m "error")
  | MetricsLogger l' (OtherMetrics _) => Logger_Error l' m
  | _ => m
  end.

Definition log_error (a : App) : App :=
  match metrics a with
  | Some m => set_metrics a (Logger_Error (logger a) m)
  | None => a
  end.

Definition recordMetrics (a : App) (method path : string) (status : Z)
    (duration : Z) (errorType : string) : option App :=
  match metrics a with
  | None => Some a
  | Some m =>
      let m := IncRequestTotal m method path status in
      m ← ObserveLatency m method path duration;
      let m := if decide (errorType ≠ "") then IncError m method path errorType
               else m in
      Some (set_metrics a m)
  end.

(** [for k, v := range params { c.Params[k] = v }]. *)
Definition bind_params (params : gmap string string) (c : Ctx) : Ctx :=
  mkCtx (Ctx_RequestCtx c) (params ∪ Params c) (Locals c) (Ctx_Logger c) (Ctx_Auth c).

(** The deferred [releaseCtx]; the response the transport goes on with is
    the one behind [c.RequestCtx]. *)
Definition return_ (a : App) (c : Ctx) : option (App * RequestCtx) :=
  fctx ← Ctx_RequestCtx c;
  Some (releaseCtx a c, fctx).

(** [a.handleRequest(fctx)]. [elapsed] is the reading of
    [time.Since(start)] at the one call of [recordMetrics]. *)
Definition handleRequest (a : App) (fctx : RequestCtx) (elapsed : Z)
    : option (App * RequestCtx) :=
  let '(c, a) := acquireCtx a fctx in
  let method := req_Method (fctx_Request fctx) in
  let path := req_Path (fctx_Request fctx) in
  match find (routes a) method path with
  | None =>
      c ← Ctx_Status StatusNotFound c;
      '(c, _) ← Ctx_JSON StatusNotFound (error_body "not found") c;
      a ← recordMetrics a method path StatusNotFound elapsed "not_found";
      return_ a c
  | Some (route, params) =>
      let c := bind_params params c in
      let handler := buildChain a (Handlers route) (Route_middleware route) in
      '(c, err) ← handler c;
      match err with
      | Some _ =>
          let a := log_error a in
          status ← Ctx_StatusCode c;
          '(c, status) ←
            (if (status =? 0)%Z then
               let status := StatusInternalServerError in
               c ← Ctx_Status status c;
               '(c, _) ← Ctx_JSON status (error_body "internal server error") c;
               Some (c, status)
             else Some (c, status));
          a ← recordMetrics a method (Path route) status elapsed "handler_error";
          return_ a c
      | None =>
          status ← Ctx_StatusCode c;
          let status := if (status =? 0)%Z then StatusOK else status in
          a ← recordMetrics a method (Path route) status elapsed "";
          return_ a c
      end
  end.

(** ** Notions used to state the properties *)

(** A literal part of a pattern is one that does not start with a colon. *)
Definition literal (part : string) : Prop := HasPrefix part ":" = false.

(** A route is a candidate for a request when its method is the request's
    and its pattern matches the path; the bindings of the match. *)
Definition candidate (method path : string) (route : Route)
    : option (gmap string string) :=
  if decide (Method route = method) then matchPath (Path route) path else None.

(** The handler sequence as the specification words it: each handler runs
    and, only if it reports no failure, passes control to the next; the
    result of the last handler is the result of the sequence. *)
Fixpoint run_handlers (handlers : list Handler) (c : Ctx)
    : option (Ctx * option error) :=
  match handlers with
  | [] => Some (c, None)
  | [h] => h c
  | h :: handlers' =>
      match h c with
      | None => None
      | Some (c', Some e) => Some (c', Some e)
      | Some (c', None) => run_handlers handlers' c'
      end
  end.

(** The observation log of the ordering scenario, kept in the locals of the
    context under the key [log]. *)
Definition log_of (c : Ctx) : list string :=
  match Ctx_GetLocal "log" c with
  | Some (AnyStrings l) => l
  | _ => []
  end.

Definition note (entry : string) (c : Ctx) : Ctx :=
  Ctx_SetLocal "log" (AnyStrings (log_of c ++ [entry])) c.

(** A middleware that appends its identifier to the log before and after
    calling its inner handler. *)
Definition observe (id : string) : Middleware :=
  fun next c =>
    let c := note (id +:+ ":before") c in
    '(c, err) ← next c;
    let c := note (id +:+ ":after") c in
    Some (c, err).

(** A handler that appends its identifier to the log and succeeds. *)
Definition visit (id : string) : Handler :=
  fun c => Some (note id c, None).

(** The value a counter of the metrics reads: zero until its key is first
    counted. *)
Definition counter (counters : gmap string Z) (key : string) : Z :=
  default 0%Z (counters !! key).

(** The entries of the latency map do not clash with the two keys
    [ObserveLatency] uses for a (method, path): no bucket sits under the
    key of the mutex and no mutex under the key of the bucket. *)
Definition latency_recordable (m : Metrics) (method path : string) : Prop :=
  (∀ bucket, requestLatency m !! latency_key method path ≠ Some (EntryBucket bucket))
  ∧ requestLatency m !! (latency_key method path +:+ "_bucket") ≠ Some EntryMutex.

(** A metrics state both renderings get through: no mutex sits under a key
    that ends in [_bucket]. *)
Definition renderable (m : Metrics) : Prop :=
  ∀ key, HasSuffix key "_bucket" = true →
         requestLatency m !! key ≠ Some EntryMutex.

(** What the text rendering prints for a latency key, given what the
    structured rendering holds for it. *)
Definition latency_text (key : string) (latencies : gmap string float) : string :=
  match latencies !! TrimSuffix key "_bucket" with
  | Some avg => latency_sample key avg
  | None => ""
  end.

(** ** A small application, for the scenarios *)

Module Example.

(** A transport request with the given headers and a fresh response. *)
Definition request (method path : string) (headers : list (string * string))
    : RequestCtx :=
  mkRequestCtx
    (mkRequest method path
               (fun key => default "" ((list_to_map headers : gmap string string) !! key))
               "")
    (mkResponse 0 "" ∅ None).

(** The handler of the README that reports who is authenticated. *)
Definition whoami : Handler :=
  fun c =>
    match Ctx_GetAuth c with
    | Some auth =>
        if Valid auth
        then Ctx_JSON StatusOK (AnyStringMap {[ "username" := Username auth ]}) c
        else Ctx_Unauthorized "not authenticated" c
    | None => Ctx_Unauthorized "not authenticated" c
    end.

(** A handler that fails without setting a status. *)
Definition failing : Handler := fun c => Some (c, Some "boom").

(** A handler that succeeds without setting a status. *)
Definition silent : Handler := fun c => Some (c, None).

Definition admin_secret : BasicAuthValidator :=
  fun username password => bool_decide (username = "admin" ∧ password = "secret").

Definition empty (m : option Metrics) : App :=
  mkApp (newRouter "") [] [] ConsoleLogger m [].

(** [GET /admin/profile] behind Basic auth, [GET /whoami] public,
    [GET /a] and [GET /a_bucket] failing, [GET /quiet] silent. *)
Definition app (m : option Metrics) : App :=
  let a := empty m in
  let admin := Router_Use (Group (router a) "/admin") [BasicAuth admin_secret] in
  let a := register a admin "GET" "/profile" [whoami] in
  let a := App_GET a "/whoami" [whoami] in
  let a := App_GET a "/a" [failing] in
  let a := App_GET a "/a_bucket" [failing] in
  App_GET a "/quiet" [silent].

(** A table in which three routes answer [GET /users/me]. *)
Definition users_table : list Route :=
  [mkRoute "POST" "/users/:id" [] []; mkRoute "GET" "/users/:id" [] [];
   mkRoute "GET" "/users/me" [] []; mkRoute "GET" "/users/:name" [] []].

(** The credentials [admin:secret]. *)
Definition admin_header : list (string * string) :=
  [("Authorization", "Basic YWRtaW46c2VjcmV0")].

(** The response of a handled request, and the application after it. *)
Definition response_of (r : option (App * RequestCtx)) : option Response :=
  (fun out => fctx_Response out.2) <$> r.

Definition status_of (r : option (App * RequestCtx)) : option Z :=
  resp_statusCode <$> response_of r.

Definition metrics_of (r : option (App * RequestCtx)) : option (option Metrics) :=
  (fun out => metrics out.1) <$> r.

Definition and_then {A} (r : option (App * RequestCtx)) (k : App -> option A)
    : option A :=
  out ← r; k out.1.

(** Every validator configured, each accepting one credential. *)
Definition config : AuthConfig :=
  mkAuthConfig (Some admin_secret)
               (Some (fun token => bool_decide (token = "valid-token")))
               (Some (fun key => bool_decide (key = "my-api-key")))
               "X-API-Key".

(** A context attached to the given request, as a handler receives it. *)
Definition attached (fctx : RequestCtx) : Ctx :=
  mkCtx (Some fctx) ∅ ∅ (Some ConsoleLogger) None.






Definition text (m : option Metrics) : option string :=
  m ← m; ToPrometheus m 0%float.

(** The status on the response after a handler ran. *)
Definition status_after (r : option (Ctx * option error)) : option Z :=
  out ← r; Ctx_StatusCode out.1.

(** Whether a call ended in a panic. *)
Definition panics {A} (r : option A) : bool :=
  match r with
  | Some _ => false
  | None => true
  end.

End Example.

(** A middleware admits a request when it hands the context to its inner
    handler with the auth result attached, so that [c.GetAuth()] returns it
    there, and otherwise as it received it, and returns what the inner
    handler returns. *)
Definition admits (mw : Middleware) (c : Ctx) (info : AuthInfo) : Prop :=
  ∃ c',
    Ctx_GetAuth c' = Some info
    ∧ Ctx_RequestCtx c' = Ctx_RequestCtx c ∧ Params c' = Params c
    ∧ Locals c' = Locals c ∧ Ctx_Logger c' = Ctx_Logger c
    ∧ ∀ next, mw next c = next c'.

(** A middleware rejects a request when its outcome is the same for every
    inner handler (the inner handler is not invoked); unless the call
    panics on a detached context, the outcome is a 401 response, no
    failure, and the auth result of the context is left as it was. *)
Definition rejects (mw : Middleware) (c : Ctx) : Prop :=
  ∃ outcome,
    (∀ next, mw next c = outcome)
    ∧ match outcome with
      | Some (c', err) =>
          err = None ∧ Ctx_StatusCode c' = Some StatusUnauthorized
          ∧ Ctx_Auth c' = Ctx_Auth c
      | None => Ctx_RequestCtx c = None
      end.

(** ** The HTTP client (package [client]) *)

Module client.

(** [type Client struct]: the [http.Client] is kept by its timeout, in
    nanoseconds. *)
Record Client := mkClient {
  baseURL : string;
  Timeout : Z;
  headers : gmap string string
}.

Definition Option := Client -> Client.

Definition Second : Z := 1000000000.

(** [New(baseURL, opts...)]: the options are applied in the order given. *)
Definition New (baseURL : string) (opts : list Option) : Client :=
  foldl (fun c opt => opt c) (mkClient baseURL (30 * Second) ∅) opts.

Definition WithTimeout (timeout : Z) : Option :=
  fun c => mkClient (baseURL c) timeout (headers c).

Definition WithHeader (key value : string) : Option :=
  fun c => mkClient (baseURL c) (Timeout c) (<[key := value]> (headers c)).

Definition base64Table : string :=
  "ABCDEFGHIJKLMNOPQRSTUVWXYZabcdefghijklmnopqrstuvwxyz0123456789+/".

(** [base64Table[i]]; every index the encoder computes is below 64. *)
Definition at_ (i : N) : ascii :=
  default Ascii.zero (String.get (N.to_nat i) base64Table).

(** [base64Encode(data)]: the loop takes three bytes at a time, the
    [switch] on [remaining] being the shape of what is left. The [uint32]
    [n] stays below [2^24]. *)
Fixpoint base64Encode (data : string) : string :=
  match data with
  | EmptyString => EmptyString
  | String d0 EmptyString =>
      let n := N.shiftl (N_of_ascii d0) 16 in
      String (at_ (N.shiftr n 18))
        (String (at_ (N.land (N.shiftr n 12) 63)) "==")
  | String d0 (String d1 EmptyString) =>
      let n := N.lor (N.shiftl (N_of_ascii d0) 16) (N.shiftl (N_of_ascii d1) 8) in
      String (at_ (N.shiftr n 18))
        (String (at_ (N.land (N.shiftr n 12) 63))
           (String (at_ (N.land (N.shiftr n 6) 63)) "="))
  | String d0 (String d1 (String d2 rest)) =>
      let n := N.lor (N.lor (N.shiftl (N_of_ascii d0) 16)
                            (N.shiftl (N_of_ascii d1) 8))
                     (N_of_ascii d2) in
      String (at_ (N.shiftr n 18))
        (String (at_ (N.land (N.shiftr n 12) 63))
           (String (at_ (N.land (N.shiftr n 6) 63))
              (String (at_ (N.land n 63)) (base64Encode rest))))
  end.

Definition basicAuth (username password : string) : string :=
  let auth := username +:+ ":" +:+ password in
  base64Encode auth.

Definition WithBasicAuth (username password : string) : Option :=
  fun c => mkClient (baseURL c) (Timeout c)
             (<["Authorization" := "Basic " +:+ basicAuth username password]>
                (headers c)).

Definition WithBearerToken (token : string) : Option :=
  fun c => mkClient (baseURL c) (Timeout c)
             (<["Authorization" := "Bearer " +:+ token]> (headers c)).

(** [WithAPIKey(key, headerName...)]: the first of the optional names, when
    one is given. *)
Definition WithAPIKey (key : string) (headerName : list string) : Option :=
  let name := match headerName with
              | name :: _ => name
              | [] => "X-API-Key"
              end in
  fun c => mkClient (baseURL c) (Timeout c) (<[name := key]> (headers c)).

Definition WithIdempotencyKey (key : string) : Option :=
  fun c => mkClient (baseURL c) (Timeout c)
             (<["Idempotency-Key" := key]> (headers c)).

(** [type Response struct], by its status code and body. *)
Record Response := mkResponse {
  StatusCode : Z;
  Body : string
}.

Definition IsSuccess (r : Response) : bool :=
  (200 <=? StatusCode r)%Z && (StatusCode r <? 300)%Z.

Definition IsError (r : Response) : bool := (400 <=? StatusCode r)%Z.

End client.

(** ** More of the metrics *)

(** [m.IncActiveConns()] and [m.DecActiveConns()]: [atomic.AddInt64]. *)
Definition IncActiveConns (m : Metrics) : Metrics :=
  mkMetrics (requestTotal m) (requestLatency m) (errorTotal m) (logCount m)
            (wrap64 (activeConns m + 1)).

Definition DecActiveConns (m : Metrics) : Metrics :=
  mkMetrics (requestTotal m) (requestLatency m) (errorTotal m) (logCount m)
            (wrap64 (activeConns m + -1)).

(** ** The request logger ([RequestLogger] of the middlewares) *)

(** What a line of the request logger shows of the request (the clock, the
    duration and the remote address are the transport's). *)
Record LogLine := mkLogLine {
  line_method : string;
  line_status : Z;
  line_path : string
}.

(** The line [RequestLogger] prints once the inner handler has returned:
    the status read back from the response, 200 when it reads 0. *)
Definition RequestLogger_line (c : Ctx) : option LogLine :=
  status ← Ctx_StatusCode c;
  let status := if (status =? 0)%Z then 200%Z else status in
  fctx ← Ctx_RequestCtx c;
  Some (mkLogLine (req_Method (fctx_Request fctx)) status
                  (req_Path (fctx_Request fctx))).

(** [RequestLogger()]: the line goes to the console; the outcome of the
    inner handler is returned. *)
Definition RequestLogger : Middleware :=
  fun next c =>
    '(c, err) ← next c;
    _ ← RequestLogger_line c;
    Some (c, err).

(** ** Notions used to state the further properties *)

(** [strings.Join(pieces, sep)] for a one-byte separator. *)
Fixpoint join (sep : ascii) (pieces : list string) : string :=
  match pieces with
  | [] => ""
  | [piece] => piece
  | piece :: pieces' => piece +:+ String sep (join sep pieces')
  end.

(** A context as it lies in the pool: detached from the transport and from
    the logger. *)
Definition detached (c : Ctx) : Prop :=
  Ctx_RequestCtx c = None ∧ Ctx_Logger c = None.

(** What a client holds under a header name, the empty string for none. *)
Definition client_header (cl : client.Client) (key : string) : string :=
  default "" (client.headers cl !! key).

(** The request of [c] carries, under the name [key], the value the client
    holds under that name. *)
Definition carries (c : Ctx) (cl : client.Client) (key : string) : Prop :=
  Ctx_Get key c = Some (client_header cl key).

(** A request with the method, the path and exactly the headers of a
    client, names compared as written. *)
Definition delivered (cl : client.Client) (method path : string) : RequestCtx :=
  mkRequestCtx (mkRequest method path (client_header cl) "")
               (mkResponse 0 "" ∅ None).

(** The three counter maps of the collector, and the calls that count in
    them. *)
Inductive Kind := OfRequests | OfErrors | OfLogs.

#[global] Instance Kind_eq_dec : EqDecision Kind := ltac:(solve_decision).

Definition counters (kind : Kind) (m : Metrics) : gmap string Z :=
  match kind with
  | OfRequests => requestTotal m
  | OfErrors => errorTotal m
  | OfLogs => logCount m
  end.

Inductive Recording :=
| RecRequest (method path : string) (status : Z)
| RecError (method path errorType : string)
| RecLog (level : string).

Definition record (m : Metrics) (r : Recording) : Metrics :=
  match r with
  | RecRequest method path status => IncRequestTotal m method path status
  | RecError method path errorType => IncError m method path errorType
  | RecLog level => IncLogCount m level
  end.

(** The map and the key a call counts under. *)
Definition counted_under (r : Recording) : Kind * string :=
  match r with
  | RecRequest method path status => (OfRequests, request_key method path status)
  | RecError method path errorType => (OfErrors, error_key method path errorType)
  | RecLog level => (OfLogs, level)
  end.

(** How many of the calls count under a key of a map. *)
Definition occurrences (kind : Kind) (key : string) (rs : list Recording) : nat :=
  length (filter (fun r => counted_under r = (kind, key)) rs).

(** The bucket [ObserveLatency] finds or creates for a (method, path). *)
Definition bucket_of (m : Metrics) (method path : string) : LatencyBucket :=
  match requestLatency m !! (latency_key method path +:+ "_bucket") with
  | Some (EntryBucket bucket) => bucket
  | _ => mkLatencyBucket 0%float 0
  end.


(** The fields of the application a step of the dispatcher leaves alone,
    and the gauge of its collector. *)
Definition same_setting (a a' : App) : Prop :=
  router a' = router a ∧ routes a' = routes a
  ∧ App_middleware a' = App_middleware a ∧ logger a' = logger a
  ∧ activeConns <$> metrics a' = activeConns <$> metrics a.

(** The application [New] builds when [Config.RequestLogger] is set: the
    request logger is the first middleware registered. *)
Definition with_RequestLogger (a : App) : App :=
  mkApp (router a) (routes a) (RequestLogger :: App_middleware a) (logger a)
        (metrics a) (pool a).

(** A handler that answers with the value of a path parameter. *)
Definition echo (name : string) : Handler :=
  fun c => Ctx_String StatusOK (Ctx_Param name c) c.

(** A header of the response an outcome carries. *)
Definition response_header (key : string) (r : option (Ctx * option error))
    : option string :=
  out ← r; fctx ← Ctx_RequestCtx out.1; resp_header (fctx_Response fctx) !! key.

#[local] Set Warnings "-clear-no-such-hyp".

(** * Properties *)

(** ** Strings *)

Section string_facts.

Lemma HasPrefix_colon (part : string) :
  HasPrefix part ":" = true ↔ ∃ name, part = ":" +:+ name.
Proof.
  unfold HasPrefix. destruct part as [|a rest]; simpl.
  - split; [discriminate | intros [name H]; discriminate].
  - destruct (Ascii.eqb_spec a ":"%char) as [-> | Hne].
    + split; [intros _; by exists rest | done].
    + split; [discriminate | intros [name H]; injection H as -> _; done].
Qed.

Lemma from_1_colon (name : string) : from 1 (":" +:+ name) = name.
Proof. reflexivity. Qed.

Lemma eqb_false_ne (s t : string) : String.eqb s t = false ↔ s ≠ t.
Proof. apply String.eqb_neq. Qed.

End string_facts.

(** ** Route table *)

Section matching.

Implicit Types (patternParts pathParts : list string).
Implicit Types (params acc : gmap string string).

Lemma literal_not_param part name : literal part → part ≠ ":" +:+ name.
Proof.
  unfold literal. intros Hlit ->.
  assert (HasPrefix (":" +:+ name) ":" = true) by (apply HasPrefix_colon; eauto).
  congruence.
Qed.

Lemma matchParts_cons part patternParts seg pathParts acc :
  matchParts (part :: patternParts) (seg :: pathParts) acc =
  if HasPrefix part ":" then
    matchParts patternParts pathParts (<[from 1 part := seg]> acc)
  else if negb (String.eqb part seg) then None
  else matchParts patternParts pathParts acc.
Proof. reflexivity. Qed.

(** The loop succeeds exactly when every literal part equals its
    segment. *)
Lemma matchParts_is_Some patternParts : ∀ pathParts acc,
  length patternParts = length pathParts →
  is_Some (matchParts patternParts pathParts acc) ↔
  ∀ i part seg, patternParts !! i = Some part → pathParts !! i = Some seg →
                literal part → part = seg.
Proof.
  induction patternParts as [|part0 rest IH]; intros [|seg0 segs] acc Hlen;
    simpl in Hlen; try discriminate.
  - split; [intros _ i part seg H; by destruct i | by eauto].
  - rewrite matchParts_cons. destruct (HasPrefix part0 ":") eqn:Hp.
    + rewrite IH by lia. split.
      * intros H [|i] part seg Hi Hj Hlit; simpl in *.
        -- simplify_eq. unfold literal in Hlit. congruence.
        -- eauto.
      * intros H i part seg Hi Hj. apply (H (S i)); done.
    + destruct (String.eqb part0 seg0) eqn:He; simpl.
      * apply String.eqb_eq in He as ->. rewrite IH by lia. split.
        -- intros H [|i] part seg Hi Hj Hlit; simpl in *; [by simplify_eq | eauto].
        -- intros H i part seg Hi Hj. apply (H (S i)); done.
      * apply String.eqb_neq in He. split.
        -- intros [? ?]; discriminate.
        -- intros H. exfalso. apply He. by apply (H 0%nat).
  Qed.

(** What the loop leaves under a name: the segment of the last part
    [:name], or what was there before when no part has that name. *)
Lemma matchParts_lookup patternParts : ∀ pathParts acc params name v,
  length patternParts = length pathParts →
  matchParts patternParts pathParts acc = Some params →
  params !! name = Some v ↔
    (∃ i, patternParts !! i = Some (":" +:+ name) ∧ pathParts !! i = Some v ∧
          ∀ j, (i < j)%nat → patternParts !! j ≠ Some (":" +:+ name))
    ∨ (acc !! name = Some v ∧ ∀ j, patternParts !! j ≠ Some (":" +:+ name)).
Proof.
  induction patternParts as [|part0 rest IH];
    intros [|seg0 segs] acc params name v Hlen Hm; simpl in Hlen; try discriminate.
  - simpl in Hm. simplify_eq. split.
    + intros H. right. split; [done | intros j; by destruct j].
    + intros [(i & Hi & _) | [H _]]; [by destruct i | done].
  - rewrite matchParts_cons in Hm. destruct (HasPrefix part0 ":") eqn:Hp.
    + apply HasPrefix_colon in Hp as [name0 ->]. rewrite from_1_colon in Hm.
      rewrite (IH segs _ _ name v ltac:(lia) Hm). split.
      * intros [(i & Hi & Hv & Hlast) | [Hacc Hnone]].
        -- left. exists (S i). repeat split; try done.
           intros [|j] Hj; [lia | apply Hlast; lia].
        -- destruct (decide (name0 = name)) as [-> | Hne].
           ++ rewrite lookup_insert_eq in Hacc. simplify_eq.
              left. exists 0%nat. repeat split; try done.
              intros [|j] Hj; [lia | apply Hnone].
           ++ rewrite lookup_insert_ne in Hacc by done. right. split; [done |].
              intros [|j]; simpl; [intros ?; simplify_eq | apply Hnone].
      * intros [(i & Hi & Hv & Hlast) | [Hacc Hnone]].
        -- destruct i as [|i]; simpl in *.
           ++ simplify_eq. right. rewrite lookup_insert_eq. split; [done |].
              intros j. apply (Hlast (S j)). lia.
           ++ left. exists i. repeat split; try done.
              intros j Hj. apply (Hlast (S j)). lia.
        -- right. split.
           ++ rewrite lookup_insert_ne; [done |].
              intros ->. by apply (Hnone 0%nat).
           ++ intros j. apply (Hnone (S j)).
    + destruct (String.eqb part0 seg0) eqn:He; simpl in Hm; [|discriminate].
      rewrite (IH segs _ _ name v ltac:(lia) Hm). split.
      * intros [(i & Hi & Hv & Hlast) | [Hacc Hnone]].
        -- left. exists (S i). repeat split; try done.
           intros [|j] Hj; [lia | apply Hlast; lia].
        -- right. split; [done |]. intros [|j]; simpl; [|apply Hnone].
           intros ?; simplify_eq.
      * intros [(i & Hi & Hv & Hlast) | [Hacc Hnone]].
        -- destruct i as [|i]; simpl in *.
           ++ simplify_eq.
           ++ left. exists i. repeat split; try done.
              intros j Hj. apply (Hlast (S j)). lia.
        -- right. split; [done |]. intros j. apply (Hnone (S j)).
Qed.

Lemma matchPath_Some_length pattern path params :
  matchPath pattern path = Some params →
  length (Split pattern "/") = length (Split path "/").
Proof.
  unfold matchPath. destruct (Nat.eqb_spec (length (Split pattern "/"))
                                            (length (Split path "/"))); [done|].
  discriminate.
Qed.

Lemma matchPath_eq pattern path :
  length (Split pattern "/") = length (Split path "/") →
  matchPath pattern path = matchParts (Split pattern "/") (Split path "/") ∅.
Proof. intros H. unfold matchPath. by rewrite H, Nat.eqb_refl. Qed.

End matching.

Section scan.

Lemma find_cons route routes method path :
  find (route :: routes) method path =
  match candidate method path route with
  | Some params => Some (route, params)
  | None => find routes method path
  end.
Proof.
  simpl. unfold candidate. destruct (String.eqb_spec (Method route) method).
  - rewrite decide_True by done. done.
  - rewrite decide_False by done. done.
Qed.

Lemma find_app_None before after method path :
  (∀ route, route ∈ before → candidate method path route = None) →
  find (before ++ after) method path = find after method path.
Proof.
  induction before as [|route before IH]; intros Hnone; [done|].
  rewrite <- app_comm_cons, find_cons, Hnone by (apply elem_of_cons; by left).
  apply IH. intros r Hr. apply Hnone. apply elem_of_cons; by right.
Qed.

Lemma find_app_Some before after method path found :
  find before method path = Some found →
  find (before ++ after) method path = Some found.
Proof.
  induction before as [|route before IH]; [done|].
  rewrite <- app_comm_cons, !find_cons.
  destruct (candidate method path route); [done | apply IH].
Qed.

Lemma find_None routes method path :
  find routes method path = None ↔
  ∀ route, route ∈ routes → candidate method path route = None.
Proof.
  induction routes as [|route routes IH].
  - split; [intros _ r Hr; by apply elem_of_nil in Hr | done].
  - rewrite find_cons. destruct (candidate method path route) eqn:Hc.
    + split; [discriminate |].
      intros H. assert (Some g = None) as Habs; [|discriminate Habs].
      rewrite <- Hc. apply H. apply elem_of_cons; by left.
    + split.
      * intros H r Hr. apply elem_of_cons in Hr as [-> | Hr]; [done |].
        by apply IH.
      * intros H. apply IH. intros r Hr. apply H. apply elem_of_cons; by right.
Qed.

(** Whatever the scan returns is the first candidate of the table. *)
Lemma find_Some_first routes method path route params :
  find routes method path = Some (route, params) →
  ∃ before after,
    routes = before ++ route :: after ∧
    candidate method path route = Some params ∧
    ∀ earlier, earlier ∈ before → candidate method path earlier = None.
Proof.
  induction routes as [|r routes IH]; [discriminate|].
  rewrite find_cons. destruct (candidate method path r) eqn:Hc.
  - intros ?; simplify_eq. exists [], routes. split_and!; [done.. |].
    intros ? H; by apply elem_of_nil in H.
  - intros (before & after & -> & Hcand & Hfirst)%IH.
    exists (r :: before), after. split_and!; [done.. |].
    intros earlier [-> | H]%elem_of_cons; eauto.
Qed.

End scan.

Section routing_claims.

Lemma candidate_Some method path route params :
  candidate method path route = Some params ↔
  Method route = method ∧ matchPath (Path route) path = Some params.
Proof. unfold candidate. case_decide; naive_solver. Qed.

Lemma candidate_None method path route :
  candidate method path route = None ↔
  Method route ≠ method ∨ matchPath (Path route) path = None.
Proof.
  unfold candidate. case_decide; [|naive_solver].
  split; [by right | by intros [? | ?]].
Qed.

(** C7. For every pattern and path, [matchPath] splits both on the
    separator and succeeds exactly when the numbers of segments are equal
    and every literal segment of the pattern equals the segment of the
    path at its place; on success the parameters bound are exactly the
    names of the [:name] segments, each bound to the path segment at the
    place of (the last occurrence of) its name, whatever that segment is.
    [/users/:id] matches [/users/42] with [id = 42] and does not match
    [/users/42/extra]. *)
Theorem matchPath_binds_named_segments (pattern path : string) :
  let patternParts := Split pattern "/" in
  let pathParts := Split path "/" in
  (is_Some (matchPath pattern path) ↔
     length patternParts = length pathParts ∧
     ∀ i part seg, patternParts !! i = Some part → pathParts !! i = Some seg →
                   literal part → part = seg)
  ∧ (∀ params, matchPath pattern path = Some params →
       ∀ name v, params !! name = Some v ↔
         ∃ i, patternParts !! i = Some (":" +:+ name) ∧ pathParts !! i = Some v ∧
              ∀ j, (i < j)%nat → patternParts !! j ≠ Some (":" +:+ name))
  ∧ matchPath "/users/:id" "/users/42" = Some {[ "id" := "42" ]}
  ∧ matchPath "/users/:id" "/users/42/extra" = None.
Proof.
  intros patternParts pathParts. split_and!.
  - split.
    + intros [params Hm]. pose proof (matchPath_Some_length _ _ _ Hm) as Hlen.
      split; [done |]. rewrite matchPath_eq in Hm by done.
      apply (matchParts_is_Some _ _ ∅ Hlen). by exists params.
    + intros [Hlen Hlit]. rewrite matchPath_eq by done.
      by apply matchParts_is_Some.
  - intros params Hm name v.
    pose proof (matchPath_Some_length _ _ _ Hm) as Hlen.
    rewrite matchPath_eq in Hm by done.
    rewrite (matchParts_lookup _ _ _ _ name v Hlen Hm).
    rewrite lookup_empty. naive_solver.
  - by vm_compute.
  - by vm_compute.
Qed.

(** C6. When two registered routes [R1] and [R2], [R1] registered before
    [R2], both have the method of the request and a pattern matching its
    path, the scan never selects [R2]: its outcome is decided among the
    routes registered up to [R1], and it is [R1] with [R1]'s bindings
    unless a route registered even earlier matches as well; the scan
    returns the first matching route in registration order. *)
Theorem find_registration_order
    (before between after : list Route) (R1 R2 : Route)
    (method path : string) (params1 params2 : gmap string string) :
  Method R1 = method → matchPath (Path R1) path = Some params1 →
  Method R2 = method → matchPath (Path R2) path = Some params2 →
  let routes := before ++ R1 :: between ++ R2 :: after in
  find routes method path = find (before ++ [R1]) method path
  ∧ ((∀ earlier, earlier ∈ before →
        Method earlier ≠ method ∨ matchPath (Path earlier) path = None) →
     find routes method path = Some (R1, params1))
  ∧ ∃ before' after' route params,
      find routes method path = Some (route, params) ∧
      before ++ [R1] = before' ++ route :: after' ∧
      (∀ earlier, earlier ∈ before' →
         Method earlier ≠ method ∨ matchPath (Path earlier) path = None).
Proof.
  intros Hm1 Hp1 Hm2 Hp2 routes.
  assert (candidate method path R1 = Some params1) as Hc1
    by by apply candidate_Some.
  assert (∃ found, find (before ++ [R1]) method path = Some found) as [found Hf].
  { destruct (find before method path) as [found|] eqn:Hb.
    - exists found. by apply find_app_Some.
    - exists (R1, params1). rewrite find_app_None by by apply find_None.
      by rewrite find_cons, Hc1. }
  assert (find routes method path = Some found) as Hall.
  { subst routes. change (R1 :: between ++ R2 :: after)
      with ([R1] ++ between ++ R2 :: after).
    rewrite app_assoc. by apply find_app_Some. }
  split_and!.
  - by rewrite Hall, Hf.
  - intros Hfirst. subst routes.
    rewrite find_app_None, find_cons, Hc1; [done |].
    intros earlier He. apply candidate_None. by apply Hfirst.
  - destruct found as [route params].
    destruct (find_Some_first _ _ _ _ _ Hf) as (before' & after' & Heq & _ & Hfirst).
    exists before', after', route, params. split_and!; [done.. |].
    intros earlier He. apply candidate_None. by apply Hfirst.
Qed.

Lemma find_registration_order_witness :
  find Example.users_table "GET" "/users/me"
  = Some (mkRoute "GET" "/users/:id" [] [], {[ "id" := "me" ]}).
Proof.
  refine (proj1 (proj2 (find_registration_order
            [mkRoute "POST" "/users/:id" [] []] [mkRoute "GET" "/users/me" [] []] []
            (mkRoute "GET" "/users/:id" [] []) (mkRoute "GET" "/users/:name" [] [])
            "GET" "/users/me" {[ "id" := "me" ]} {[ "name" := "me" ]}
            _ _ _ _)) _).
  - reflexivity.
  - vm_compute. reflexivity.
  - reflexivity.
  - vm_compute. reflexivity.
  - intros earlier ->%list_elem_of_singleton. left. simpl. discriminate.
Defined.

(** C3, as the code has it. The claim that registration fails for a
    malformed pattern does not hold: the empty pattern is registered like
    any other, and the route is found by the scan. *)
Lemma add_registers_the_empty_pattern :
  Count (add (newRouter "") "GET" "" [] []) = 1%nat
  ∧ is_Some (find (add (newRouter "") "GET" "" [] []) "GET" "").
Proof. split; [reflexivity | vm_compute; eauto]. Qed.

(** C3, amended. Registration never fails and checks nothing: for every
    pattern it appends exactly one route (prefix and pattern joined, the
    router's middleware copied) at the end of the table, so that every
    request an earlier route answers is still answered by that route and
    the new route answers only requests no earlier route matches. *)
Theorem add_always_appends (r : Router) (method path : string)
    (handlers : list Handler) (routes : list Route) :
  let route := mkRoute method (prefix r +:+ path) handlers (Router_middleware r) in
  add r method path handlers routes = routes ++ [route]
  ∧ Count (add r method path handlers routes) = S (Count routes)
  ∧ ∀ method' path',
      find (add r method path handlers routes) method' path' =
      match find routes method' path' with
      | Some found => Some found
      | None => params ← candidate method' path' route; Some (route, params)
      end.
Proof.
  intros route. split_and!.
  - reflexivity.
  - unfold add, Count. rewrite length_app. simpl. lia.
  - intros method' path'. unfold add. simpl. fold route.
    destruct (find routes method' path') as [found|] eqn:Hf.
    + by apply find_app_Some.
    + rewrite find_app_None by by apply find_None.
      rewrite find_cons. by destruct (candidate method' path' route).
Qed.

End routing_claims.

(** ** Chain builder *)

Section chain.

Lemma foldl_reverse {A B} (f : B → A → B) (b : B) (l : list A) :
  foldl f b (reverse l) = foldr (fun x acc => f acc x) b l.
Proof.
  induction l as [|x l IH]; [done |].
  rewrite reverse_cons, foldl_app. simpl. by rewrite IH.
Qed.

Lemma buildChain_nil a routeMiddleware :
  buildChain a [] routeMiddleware = fun c => Some (c, None).
Proof. reflexivity. Qed.

Lemma buildChain_snoc a hs h routeMiddleware :
  buildChain a (hs ++ [h]) routeMiddleware =
  foldr (fun mw inner => mw inner) (foldr then_ h hs)
        (App_middleware a ++ routeMiddleware).
Proof.
  unfold buildChain. rewrite reverse_app. simpl.
  by rewrite !foldl_reverse.
Qed.

Lemma run_handlers_cons h h' hs c :
  run_handlers (h :: h' :: hs) c =
  match h c with
  | None => None
  | Some (c', Some e) => Some (c', Some e)
  | Some (c', None) => run_handlers (h' :: hs) c'
  end.
Proof. reflexivity. Qed.

Lemma terminal_runs_in_order hs : ∀ h c,
  foldr then_ h hs c = run_handlers (hs ++ [h]) c.
Proof.
  induction hs as [|h0 hs IH]; intros h c; [done |].
  change (foldr then_ h (h0 :: hs) c) with (then_ h0 (foldr then_ h hs) c).
  change ((h0 :: hs) ++ [h]) with (h0 :: (hs ++ [h])).
  specialize (IH h).
  destruct (hs ++ [h]) as [|h1 rest] eqn:Hrest; [by destruct hs |].
  rewrite run_handlers_cons. unfold then_ at 1.
  destruct (h0 c) as [[c' [e|]]|]; simpl; [done | apply IH | done].
Qed.

Lemma log_of_note entry c : log_of (note entry c) = log_of c ++ [entry].
Proof.
  unfold note, log_of at 1, Ctx_GetLocal, Ctx_SetLocal. cbn [Locals].
  by rewrite lookup_insert_eq.
Qed.

(** C8. For every global and route-local middleware sequence the chain
    built around a non-empty handler sequence is the terminal handler
    wrapped by the global middleware, then inside it the route-local
    middleware, the earlier-registered the further out; the terminal runs
    the handlers left to right, each passing control on only when it
    reports no failure, the last handler's result being the result. With
    global middleware [A; B] and route middleware [C], each noting its
    identifier before and after calling its inner handler, the log reads
    A, B, C before the handlers and C, B, A after. *)
Theorem buildChain_order (r : Router) (table : list Route) (l : Logger)
    (m : option Metrics) (p : list Ctx) :
  (∀ global routeMiddleware hs h,
     buildChain (mkApp r table global l m p) (hs ++ [h]) routeMiddleware =
     foldr (fun mw inner => mw inner) (foldr then_ h hs)
           (global ++ routeMiddleware))
  ∧ (∀ hs h c, foldr then_ h hs c = run_handlers (hs ++ [h]) c)
  ∧ (∀ A B C hs h c,
       buildChain (mkApp r table [observe A; observe B] l m p)
                  (hs ++ [h]) [observe C] c =
       '(c', err) ← run_handlers (hs ++ [h])
                      (note (C +:+ ":before")
                         (note (B +:+ ":before") (note (A +:+ ":before") c)));
       Some (note (A +:+ ":after")
               (note (B +:+ ":after") (note (C +:+ ":after") c')), err))
  ∧ (∀ c, log_of c = [] →
       (λ out, log_of out.1) <$>
         buildChain (mkApp r table [observe "A"; observe "B"] l m p)
                    [visit "h1"; visit "h2"] [observe "C"] c
       = Some ["A:before"; "B:before"; "C:before"; "h1"; "h2";
               "C:after"; "B:after"; "A:after"]).
Proof.
  split_and!.
  - intros. apply buildChain_snoc.
  - intros. apply terminal_runs_in_order.
  - intros A B C hs h c. rewrite buildChain_snoc. simpl.
    unfold observe at 1 2 3. rewrite terminal_runs_in_order.
    by destruct (run_handlers _ _) as [[c' err]|].
  - intros c Hlog.
    change [visit "h1"; visit "h2"] with ([visit "h1"] ++ [visit "h2"]).
    rewrite buildChain_snoc.
    cbn [foldr app App_middleware]. unfold observe, then_, visit.
    cbn [mbind option_bind option_ret mret fmap option_fmap option_map fst
         String.append].
    rewrite !log_of_note, Hlog. reflexivity.
Qed.

End chain.

(** ** Context pool *)

Section pool_facts.

Lemma lookup_foldr_delete {V} (keys : list string) (m : gmap string V) k :
  foldr (fun k m' => delete k m') m keys !! k =
  if decide (k ∈ keys) then None else m !! k.
Proof.
  induction keys as [|k0 keys IH]; [by simpl |]. cbn [foldr].
  destruct (decide (k0 = k)) as [-> | Hne].
  - rewrite lookup_delete_eq.
    destruct (decide (k ∈ k :: keys)) as [_ | Hnin]; [done |].
    exfalso. apply Hnin, elem_of_cons. by left.
  - rewrite lookup_delete_ne, IH by done.
    destruct (decide (k ∈ keys)) as [Hin | Hnin],
             (decide (k ∈ k0 :: keys)) as [Hin' | Hnin']; try done; exfalso.
    + apply Hnin', elem_of_cons. by right.
    + apply elem_of_cons in Hin' as [-> | ?]; done.
Qed.

Lemma delete_all_empty {V} (m : gmap string V) : delete_all m = ∅.
Proof.
  apply map_eq. intros k. unfold delete_all, Range_keys.
  rewrite lookup_foldr_delete, lookup_empty.
  case_decide as Hin; [done |].
  destruct (m !! k) as [v|] eqn:Hk; [|done].
  exfalso. apply Hin. apply list_elem_of_fmap. exists (k, v).
  split; [done |]. by apply elem_of_map_to_list.
Qed.

(** What [acquireCtx] hands out: the maps are empty and the transport
    handle and the logger are attached, whatever object the pool gave;
    the auth result is the one that object carried. *)
Lemma acquireCtx_result (a : App) (fctx : RequestCtx) :
  acquireCtx a fctx =
  (mkCtx (Some fctx) ∅ ∅ (Some (logger a)) (Ctx_Auth (pool_Get (pool a)).1),
   set_pool a (pool_Get (pool a)).2).
Proof.
  unfold acquireCtx. destruct (pool_Get (pool a)) as [c pool'].
  unfold attach. simpl. by rewrite !delete_all_empty.
Qed.

(** C1 fails on the code. The maps of an acquired context are empty
    after any history, but [acquireCtx] and [releaseCtx] leave the auth
    result where it is: after an authenticated request to
    [/admin/profile], the context acquired for the next request still
    carries the administrator's auth result, and a request without
    credentials to the public [/whoami] is answered as the
    administrator, whereas the same request to a fresh application is
    answered 401. *)
Theorem acquireCtx_keeps_auth_of_previous_request :
  let first :=
    handleRequest (Example.app None)
      (Example.request "GET" "/admin/profile" Example.admin_header) 0 in
  let second := Example.request "GET" "/whoami" [] in
  (∀ a fctx, Params (acquireCtx a fctx).1 = ∅ ∧ Locals (acquireCtx a fctx).1 = ∅
             ∧ Ctx_Auth (acquireCtx a fctx).1 = Ctx_Auth (pool_Get (pool a)).1)
  ∧ Example.and_then first (fun a1 => Ctx_Auth (acquireCtx a1 second).1)
    = Some (mkAuthInfo "basic" "" "admin" "secret" true)
  ∧ Example.and_then first (fun a1 =>
      Example.response_of (handleRequest a1 second 0))
    = Some (mkResponse StatusOK "application/json" ∅
              (Some (PayloadJSON (AnyStringMap {[ "username" := "admin" ]}))))
  ∧ Example.response_of (handleRequest (Example.app None) second 0)
    = Some (mkResponse StatusUnauthorized "application/json" ∅
              (Some (PayloadJSON (error_body "not authenticated")))).
Proof.
  intros first second. split_and!.
  - intros a fctx. by rewrite acquireCtx_result.
  - vm_compute. reflexivity.
  - vm_compute. reflexivity.
  - vm_compute. reflexivity.
Qed.

End pool_facts.

(** ** Metrics: recording *)

Section recording.

Lemma wrap64_small (z : Z) : (- 2 ^ 63 ≤ z < 2 ^ 63)%Z → wrap64 z = z.
Proof. intros H. unfold wrap64. rewrite Z.mod_small; lia. Qed.

Lemma add_one_insert key counters :
  add_one key counters = <[key := wrap64 (counter counters key + 1)]> counters.
Proof.
  unfold add_one, LoadOrStore, counter.
  destruct (counters !! key) as [v|]; simpl; [done |].
  by rewrite insert_insert_eq.
Qed.

Lemma counter_add_one key counters :
  (0 ≤ counter counters key < 2 ^ 63 - 1)%Z →
  counter (add_one key counters) key = (counter counters key + 1)%Z.
Proof.
  intros H. rewrite add_one_insert. unfold counter at 1.
  rewrite lookup_insert_eq. simpl. apply wrap64_small. lia.
Qed.

Lemma lookup_add_one_ne key key' counters :
  key' ≠ key → add_one key counters !! key' = counters !! key'.
Proof. intros H. rewrite add_one_insert. by rewrite lookup_insert_ne. Qed.

Lemma length_append (s t : string) :
  String.length (s +:+ t) = (String.length s + String.length t)%nat.
Proof. induction s as [|a s IH]; simpl; [done | by rewrite IH]. Qed.

Lemma bucket_key_ne (key : string) : key ≠ key +:+ "_bucket".
Proof.
  intros H. apply (f_equal String.length) in H.
  rewrite length_append in H. simpl in H. lia.
Qed.

(** With no clash under its two keys, [ObserveLatency] returns, and it
    touches the latency map only. *)
Lemma ObserveLatency_Some m method path duration :
  latency_recordable m method path →
  ∃ m', ObserveLatency m method path duration = Some m'
        ∧ requestTotal m' = requestTotal m ∧ errorTotal m' = errorTotal m
        ∧ logCount m' = logCount m ∧ activeConns m' = activeConns m.
Proof.
  intros [Hmutex Hbucket]. unfold ObserveLatency, LoadOrStore.
  pose proof (bucket_key_ne (latency_key method path)) as Hne.
  destruct (requestLatency m !! latency_key method path) as [[|b]|] eqn:Hk.
  - destruct (requestLatency m !! (latency_key method path +:+ "_bucket"))
      as [[|b]|] eqn:Hb; [done | eauto 10 | eauto 10].
  - by destruct (Hmutex b).
  - rewrite lookup_insert_ne by done.
    destruct (requestLatency m !! (latency_key method path +:+ "_bucket"))
      as [[|b]|] eqn:Hb; [done | eauto 10 | eauto 10].
Qed.

Lemma Logger_Error_fields l : ∀ m,
  requestTotal (Logger_Error l m) = requestTotal m
  ∧ requestLatency (Logger_Error l m) = requestLatency m
  ∧ errorTotal (Logger_Error l m) = errorTotal m
  ∧ activeConns (Logger_Error l m) = activeConns m.
Proof.
  induction l as [| |l IH ref]; intros m; cbn [Logger_Error]; [done.. |].
  destruct ref; [|apply IH].
  destruct (IH (IncLogCount m "error")) as (-> & -> & -> & ->). done.
Qed.

(** [recordMetrics] with a collector: one request counted, the latency
    observed, and the error counted when a kind is given. *)
Lemma recordMetrics_Some a m method path status duration errorType :
  metrics a = Some m →
  latency_recordable m method path →
  ∃ m', recordMetrics a method path status duration errorType
        = Some (set_metrics a m')
        ∧ requestTotal m' = add_one (request_key method path status) (requestTotal m)
        ∧ errorTotal m' =
            (if decide (errorType ≠ "")
             then add_one (error_key method path errorType) (errorTotal m)
             else errorTotal m)
        ∧ logCount m' = logCount m.
Proof.
  intros Hm Hrec. unfold recordMetrics. rewrite Hm.
  destruct (ObserveLatency_Some (IncRequestTotal m method path status)
              method path duration Hrec) as (m2 & -> & Hr & He & Hl & Ha).
  simpl. eexists. split; [reflexivity |].
  case_decide; simpl; rewrite ?Hr, ?He, ?Hl; done.
Qed.

(** Without a collector nothing is recorded. *)
Lemma recordMetrics_disabled a method path status duration errorType :
  metrics a = None →
  recordMetrics a method path status duration errorType = Some a.
Proof. intros H. unfold recordMetrics. by rewrite H. Qed.

End recording.

(** ** Dispatcher *)

Section dispatcher.

Lemma buildChain_set_pool a pool' handlers routeMiddleware :
  buildChain (set_pool a pool') handlers routeMiddleware
  = buildChain a handlers routeMiddleware.
Proof. reflexivity. Qed.

(** C9, as the code has it. Without a metrics collector
    ([Config.Metrics] unset) a request to an unregistered path is
    answered 404 and no counter is incremented; and with a collector,
    after [GET /a] the request [GET /a_bucket] (both unregistered here)
    makes [ObserveLatency] panic on the bucket of [/a], before the error
    counter is reached. *)
Lemma handleRequest_not_found_uncounted :
  let nope := handleRequest (Example.empty None) (Example.request "GET" "/nope" []) 0 in
  let first :=
    handleRequest (Example.empty (Some Metrics_New)) (Example.request "GET" "/a" []) 0 in
  Example.status_of nope = Some StatusNotFound
  ∧ Example.metrics_of nope = Some None
  ∧ Example.status_of first = Some StatusNotFound
  ∧ Example.and_then first (fun a1 =>
      Some (Example.panics
              (handleRequest a1 (Example.request "GET" "/a_bucket" []) 0)))
    = Some true.
Proof. split_and!; vm_compute; reflexivity. Qed.

(** C9, amended. For every request whose method and path match no
    registered route, handled by an application without a metrics
    collector or with one whose latency entries do not clash with the
    keys of this (method, path): the response gets status 404, the
    content type of JSON and the body [{error: not found}], its headers
    and the request being left as the transport delivered them (nothing
    else has written to the response); the route table is left as it is
    and the context goes back to the pool. Without a collector there is none
    afterwards either. With a collector whose [not_found] counter for
    this (method, path) has not reached the largest [int64], the error
    counter keyed by (method, requested path, not_found) grows by exactly
    one, no other error counter changes, the request is counted once
    under status 404, and no log counter moves. *)
Theorem handleRequest_not_found (a : App) (fctx : RequestCtx) (elapsed : Z) :
  let method := req_Method (fctx_Request fctx) in
  let path := req_Path (fctx_Request fctx) in
  find (routes a) method path = None →
  (∀ m, metrics a = Some m → latency_recordable m method path) →
  ∃ a' fout,
    handleRequest a fctx elapsed = Some (a', fout)
    ∧ fctx_Request fout = fctx_Request fctx
    ∧ resp_statusCode (fctx_Response fout) = StatusNotFound
    ∧ resp_body (fctx_Response fout) = Some (PayloadJSON (error_body "not found"))
    ∧ resp_contentType (fctx_Response fout) = "application/json"
    ∧ resp_header (fctx_Response fout) = resp_header (fctx_Response fctx)
    ∧ routes a' = routes a
    ∧ length (pool a') = S (length (pool_Get (pool a)).2)
    ∧ (metrics a = None → metrics a' = None)
    ∧ (∀ m,
         metrics a = Some m →
         (0 ≤ counter (errorTotal m) (error_key method path "not_found")
          < 2 ^ 63 - 1)%Z →
         ∃ m',
           metrics a' = Some m'
           ∧ counter (errorTotal m') (error_key method path "not_found")
             = (counter (errorTotal m) (error_key method path "not_found") + 1)%Z
           ∧ (∀ key, key ≠ error_key method path "not_found" →
                     errorTotal m' !! key = errorTotal m !! key)
           ∧ requestTotal m'
             = add_one (request_key method path StatusNotFound) (requestTotal m)
           ∧ logCount m' = logCount m).
Proof.
  intros method path Hfind Hrec.
  unfold handleRequest. rewrite acquireCtx_result. cbn zeta.
  change (routes (set_pool a _)) with (routes a).
  fold method path. rewrite Hfind.
  cbn [Ctx_Status Ctx_JSON set_Response mbind option_bind Ctx_RequestCtx
       Params Locals Ctx_Logger Ctx_Auth fctx_Request fctx_Response].
  set (a0 := set_pool a (pool_Get (pool a)).2).
  destruct (metrics a) as [m|] eqn:Hm.
  - destruct (recordMetrics_Some a0 m method path StatusNotFound elapsed "not_found"
                Hm (Hrec m eq_refl)) as (m' & Hrm & Hreq & Herr & Hlog).
    rewrite decide_True in Herr by done.
    rewrite Hrm. cbn [mbind option_bind return_ Ctx_RequestCtx].
    eexists _, _. split; [reflexivity |]. split_and!; try done.
    intros m0 [= <-] Hrange. exists m'. split_and!; try done.
    + rewrite Herr. by apply counter_add_one.
    + intros key Hkey. rewrite Herr. by apply lookup_add_one_ne.
  - rewrite recordMetrics_disabled by done.
    cbn [mbind option_bind return_ Ctx_RequestCtx].
    eexists _, _. split; [reflexivity |]. split_and!; try done.
Qed.

Lemma handleRequest_not_found_witness :
  (∃ a' fout m',
     handleRequest (Example.app (Some Metrics_New))
                   (Example.request "GET" "/nope" []) 7000000 = Some (a', fout)
     ∧ resp_statusCode (fctx_Response fout) = StatusNotFound
     ∧ metrics a' = Some m'
     ∧ counter (errorTotal m') "GET_/nope_not_found" = 1%Z)
  ∧ (∃ a' fout,
       handleRequest (Example.app None)
                     (Example.request "GET" "/nope" []) 7000000 = Some (a', fout)
       ∧ resp_statusCode (fctx_Response fout) = StatusNotFound
       ∧ metrics a' = None).
Proof.
  split.
  - destruct (handleRequest_not_found (Example.app (Some Metrics_New))
                (Example.request "GET" "/nope" []) 7000000)
      as (a' & fout & H & _ & Hs & _ & _ & _ & _ & _ & _ & Hcount).
    + vm_compute. reflexivity.
    + intros m [= <-]. split; [intros bucket | ]; vm_compute; discriminate.
    + destruct (Hcount Metrics_New eq_refl) as (m' & Hm & Hc & _).
      * split; vm_compute; [discriminate | reflexivity].
      * exists a', fout, m'. split_and!; [exact H | exact Hs | exact Hm | exact Hc].
  - destruct (handleRequest_not_found (Example.app None)
                (Example.request "GET" "/nope" []) 7000000)
      as (a' & fout & H & _ & Hs & _ & _ & _ & _ & _ & Hnone & _).
    + vm_compute. reflexivity.
    + intros m Hm. discriminate Hm.
    + exists a', fout. split_and!; [exact H | exact Hs | exact (Hnone eq_refl)].
Defined.

Lemma Response_StatusCode_nonzero r : Response_StatusCode r ≠ 0%Z.
Proof.
  unfold Response_StatusCode. destruct (Z.eqb_spec (resp_statusCode r) 0); done.
Qed.


(** C2 fails on the code. The dispatcher tells that no status was set by
    comparing the status it reads back with 0, but the status of a
    response reads 200 while none is set, never 0: the branch that writes
    500 and the generic body is never taken. Whenever the chain of the
    matched route returns, with a failure or without, the response leaves
    the dispatcher as the chain left it and the request is counted under
    the status read back (200 when none was set); the [handler_error]
    counter of (method, route pattern) moves, by one [atomic.AddInt64],
    exactly when the chain returned a failure. For the failing [GET /a],
    whose handler sets no status, the response carries no status and no
    body (it is sent as 200), the request is counted under 200 and not
    under 500, and the [handler_error] counter reads 1. *)
Theorem handleRequest_failure_never_answered_500 :
  let failed :=
    handleRequest (Example.app (Some Metrics_New)) (Example.request "GET" "/a" []) 0 in
  (∀ c, Ctx_StatusCode c ≠ Some 0%Z)
  ∧ (∀ a fctx elapsed route params c' err f',
       find (routes a) (req_Method (fctx_Request fctx)) (req_Path (fctx_Request fctx))
       = Some (route, params) →
       buildChain a (Handlers route) (Route_middleware route)
                  (bind_params params (acquireCtx a fctx).1) = Some (c', err) →
       Ctx_RequestCtx c' = Some f' →
       (∀ m, metrics a = Some m →
             latency_recordable m (req_Method (fctx_Request fctx)) (Path route)) →
       ∃ a',
         handleRequest a fctx elapsed = Some (a', f')
         ∧ ∀ m, metrics a = Some m →
             ∃ m', metrics a' = Some m'
                   ∧ requestTotal m'
                     = add_one (request_key (req_Method (fctx_Request fctx)) (Path route)
                                            (Response_StatusCode (fctx_Response f')))
                               (requestTotal m)
                   ∧ errorTotal m'
                     = match err with
                       | Some _ =>
                           add_one (error_key (req_Method (fctx_Request fctx))
                                              (Path route) "handler_error")
                                   (errorTotal m)
                       | None => errorTotal m
                       end)
  ∧ Example.response_of failed = Some (mkResponse 0 "" ∅ None)
  ∧ Response_StatusCode <$> Example.response_of failed = Some StatusOK
  ∧ Example.and_then failed (fun a' =>
      m ← metrics a';
      Some (counter (requestTotal m) "GET_/a_200",
            counter (requestTotal m) "GET_/a_500",
            counter (errorTotal m) "GET_/a_handler_error"))
    = Some (1, 0, 1)%Z.
Proof.
  intros failed. split_and!.
  - intros c. unfold Ctx_StatusCode. destruct (Ctx_RequestCtx c) as [f|]; [|done].
    cbn [mbind option_bind]. intros [= H]. by apply Response_StatusCode_nonzero in H.
  - intros a fctx elapsed route params c' err f' Hfind Hchain Hattached Hrec.
    unfold handleRequest. rewrite acquireCtx_result in *. cbn zeta.
    change (routes (set_pool a _)) with (routes a). rewrite Hfind. cbn zeta.
    rewrite buildChain_set_pool. cbn [fst] in Hchain. rewrite Hchain.
    cbn [mbind option_bind].
    unfold Ctx_StatusCode. rewrite Hattached. cbn [mbind option_bind].
    rewrite (proj2 (Z.eqb_neq _ _) (Response_StatusCode_nonzero (fctx_Response f'))).
    set (a0 := set_pool a (pool_Get (pool a)).2).
    destruct (metrics a) as [m|] eqn:Hm.
    + assert (metrics a0 = Some m) as Hm0 by done.
      destruct err as [e|]; cbn [mbind option_bind].
      * unfold log_error. rewrite Hm0.
        set (m1 := Logger_Error (logger a0) m).
        destruct (Logger_Error_fields (logger a0) m) as (Hr1 & Hl1 & He1 & _).
        fold m1 in Hr1, Hl1, He1.
        assert (latency_recordable m1 (req_Method (fctx_Request fctx)) (Path route))
          as Hrec1.
        { unfold latency_recordable. rewrite Hl1. by apply Hrec. }
        destruct (recordMetrics_Some (set_metrics a0 m1) m1
                    (req_Method (fctx_Request fctx)) (Path route)
                    (Response_StatusCode (fctx_Response f')) elapsed "handler_error"
                    eq_refl Hrec1) as (m' & -> & Hreq & Herr & _).
        rewrite decide_True in Herr by done.
        cbn [mbind option_bind]. unfold return_. rewrite Hattached.
        cbn [mbind option_bind]. eexists. split; [reflexivity |].
        intros m0 [= <-]. exists m'. split; [done |].
        by rewrite Hreq, Herr, Hr1, He1.
      * destruct (recordMetrics_Some a0 m
                    (req_Method (fctx_Request fctx)) (Path route)
                    (Response_StatusCode (fctx_Response f')) elapsed ""
                    Hm0 (Hrec m eq_refl)) as (m' & -> & Hreq & Herr & _).
        rewrite decide_False in Herr by (intros H; by apply H).
        cbn [mbind option_bind]. unfold return_. rewrite Hattached.
        cbn [mbind option_bind]. eexists. split; [reflexivity |].
        intros m0 [= <-]. exists m'. split; [done |]. by rewrite Hreq, Herr.
    + assert (metrics a0 = None) as Hm0 by done.
      assert (log_error a0 = a0) as Hlog by (unfold log_error; by rewrite Hm0).
      destruct err as [e|]; cbn [mbind option_bind]; rewrite ?Hlog;
        rewrite recordMetrics_disabled by done;
        cbn [mbind option_bind]; unfold return_; rewrite Hattached;
        cbn [mbind option_bind]; (eexists; split; [reflexivity | done]).
  - vm_compute. reflexivity.
  - vm_compute. reflexivity.
  - vm_compute. reflexivity.
Qed.

End dispatcher.

(** ** Auth middlewares *)

Section auth.

Lemma Ctx_Unauthorized_attached msg fctx ps ls lg au :
  Ctx_Unauthorized msg (mkCtx (Some fctx) ps ls lg au) =
  Some (mkCtx (Some (mkRequestCtx (fctx_Request fctx)
                 (SetBody (PayloadJSON (error_body msg))
                    (SetStatusCode StatusUnauthorized
                       (SetContentType "application/json" (fctx_Response fctx))))))
              ps ls lg au, None).
Proof. reflexivity. Qed.

Lemma Ctx_Unauthorized_outcome msg c :
  match Ctx_Unauthorized msg c with
  | Some (c', err) =>
      err = None ∧ Ctx_StatusCode c' = Some StatusUnauthorized
      ∧ Ctx_Auth c' = Ctx_Auth c
  | None => Ctx_RequestCtx c = None
  end.
Proof. by destruct c as [[fctx|] ps ls lg au]. Qed.

Lemma rejects_Unauthorized (mw : Middleware) msg c :
  (∀ next, mw next c = Ctx_Unauthorized msg c) → rejects mw c.
Proof.
  intros H. exists (Ctx_Unauthorized msg c). split; [done |].
  apply Ctx_Unauthorized_outcome.
Qed.

Lemma rejects_challenge (mw : Middleware) msg c :
  (∀ next, mw next c =
           c1 ← Ctx_Set "WWW-Authenticate" realm c; Ctx_Unauthorized msg c1) →
  rejects mw c.
Proof.
  intros H. eexists. split; [exact H |].
  by destruct c as [[fctx|] ps ls lg au].
Qed.

Lemma rejects_detached (mw : Middleware) c :
  Ctx_RequestCtx c = None → (∀ next, mw next c = None) → rejects mw c.
Proof. intros Hc H. exists None. done. Qed.

(** Runs a middleware along the branch the hypotheses select. *)
Ltac along_branch :=
  intros next; cbv beta delta [BasicAuth BearerAuth APIKeyAuth Auth];
  repeat first
    [ progress cbn [mbind option_bind negb]
    | match goal with H : ?x = _ |- context [?x] => rewrite H end
    | rewrite decide_True by done
    | rewrite decide_False by done ];
  try done.

Ltac reject_with msg :=
  solve [right; apply (rejects_Unauthorized _ msg); along_branch].

(** Handing on the context after [c.SetAuth(info)] admits with [info]. *)
Lemma admits_SetAuth (mw : Middleware) c info :
  (∀ next, mw next c = next (Ctx_SetAuth info c)) → admits mw c info.
Proof. intros H. exists (Ctx_SetAuth info c). by split_and!. Qed.

Lemma detached_Get key c : Ctx_Get key c = None → Ctx_RequestCtx c = None.
Proof. by destruct c as [[fctx|] ps ls lg au]. Qed.

Lemma BasicAuth_guards validator c :
  (∃ auth decoded username password,
     Ctx_Get "Authorization" c = Some auth
     ∧ GoBase64.DecodeString (from 6 auth) = Some decoded
     ∧ SplitN decoded ":" 2 = [username; password]
     ∧ validator username password = true
     ∧ admits (BasicAuth validator) c
              (mkAuthInfo "basic" "" username password true))
  ∨ rejects (BasicAuth validator) c.
Proof.
  destruct (Ctx_Get "Authorization" c) as [auth|] eqn:Hget.
  2:{ right. apply rejects_detached; [by eapply detached_Get | along_branch]. }
  destruct (decide (auth = "")) as [-> | Hne].
  { right. apply (rejects_challenge _ "missing authorization header").
    along_branch. }
  destruct (HasPrefix auth "Basic ") eqn:Hp.
  2:{ reject_with "invalid authorization type". }
  destruct (GoBase64.DecodeString (from 6 auth)) as [decoded|] eqn:Hdec.
  2:{ reject_with "invalid base64 encoding". }
  destruct (SplitN decoded ":" 2) as [|username [|password [|more rest]]] eqn:Hsplit;
    try (reject_with "invalid credentials format").
  destruct (validator username password) eqn:Hv.
  - left. exists auth, decoded, username, password.
    split_and!; [done.. |]. apply admits_SetAuth. along_branch.
  - reject_with "invalid credentials".
Qed.

Lemma BearerAuth_guards validator c :
  (∃ auth,
     Ctx_Get "Authorization" c = Some auth
     ∧ validator (from 7 auth) = true
     ∧ admits (BearerAuth validator) c
              (mkAuthInfo "bearer" (from 7 auth) "" "" true))
  ∨ rejects (BearerAuth validator) c.
Proof.
  destruct (Ctx_Get "Authorization" c) as [auth|] eqn:Hget.
  2:{ right. apply rejects_detached; [by eapply detached_Get | along_branch]. }
  destruct (decide (auth = "")) as [-> | Hne].
  { reject_with "missing authorization header". }
  destruct (HasPrefix auth "Bearer ") eqn:Hp.
  2:{ reject_with "invalid authorization type". }
  destruct (validator (from 7 auth)) eqn:Hv.
  - left. exists auth. split_and!; [done.. |]. apply admits_SetAuth. along_branch.
  - reject_with "invalid token".
Qed.

Lemma APIKeyAuth_guards validator headerName c :
  (∃ key,
     Ctx_Get (if decide (headerName = "") then "X-API-Key" else headerName) c
     = Some key
     ∧ validator key = true
     ∧ admits (APIKeyAuth validator headerName) c
              (mkAuthInfo "apikey" key "" "" true))
  ∨ rejects (APIKeyAuth validator headerName) c.
Proof.
  destruct (Ctx_Get (if decide (headerName = "") then "X-API-Key" else headerName) c)
    as [key|] eqn:Hget.
  2:{ right. apply rejects_detached; [by eapply detached_Get | along_branch]. }
  destruct (decide (key = "")) as [-> | Hne].
  { reject_with "missing API key". }
  destruct (validator key) eqn:Hv.
  - left. exists key. split_and!; [done.. |]. apply admits_SetAuth. along_branch.
  - reject_with "invalid API key".
Qed.

Lemma Auth_guards config c :
  (∃ info,
     Valid info = true
     ∧ ((Type_ info = "apikey"
         ∧ Ctx_Get (APIKeyName config) c = Some (Value info))
        ∨ (Type_ info = "bearer"
           ∧ ∃ auth, Ctx_Get "Authorization" c = Some auth
                     ∧ Value info = from 7 auth)
        ∨ (Type_ info = "basic"
           ∧ ∃ auth decoded,
               Ctx_Get "Authorization" c = Some auth
               ∧ GoBase64.DecodeString (from 6 auth) = Some decoded
               ∧ SplitN decoded ":" 2 = [Username info; Password info]))
     ∧ admits (Auth config) c info)
  ∨ rejects (Auth config) c.
Proof.
  destruct (Ctx_Get "Authorization" c) as [auth|] eqn:Hget.
  2:{ right. apply rejects_detached; [by eapply detached_Get | along_branch]. }
  destruct (Ctx_Get (APIKeyName config) c) as [apiKey|] eqn:Hkey.
  2:{ apply detached_Get in Hkey. destruct c as [[fctx|] ps ls lg au]; discriminate. }
  destruct (if decide (apiKey = "") then None else APIKeyValidator_ config)
    as [validator|] eqn:Hapi.
  { destruct (validator apiKey) eqn:Hv.
    - left. exists (mkAuthInfo "apikey" apiKey "" "" true).
      split; [done |]. split; [by left |]. apply admits_SetAuth. along_branch.
    - reject_with "invalid API key". }
  destruct (decide (auth = "")) as [-> | Hne].
  { right. apply (rejects_challenge _ "missing authorization"). along_branch. }
  destruct (if HasPrefix auth "Bearer " then BearerValidator config else None)
    as [validator|] eqn:Hbearer.
  { destruct (validator (from 7 auth)) eqn:Hv.
    - left. exists (mkAuthInfo "bearer" (from 7 auth) "" "" true).
      split; [done |]. split; [right; left; eauto |]. apply admits_SetAuth. along_branch.
    - reject_with "invalid token". }
  destruct (if HasPrefix auth "Basic " then BasicValidator config else None)
    as [validator|] eqn:Hbasic.
  2:{ reject_with "invalid authorization". }
  destruct (GoBase64.DecodeString (from 6 auth)) as [decoded|] eqn:Hdec.
  2:{ reject_with "invalid base64 encoding". }
  destruct (SplitN decoded ":" 2) as [|username [|password [|more rest]]] eqn:Hsplit;
    try (reject_with "invalid credentials format").
  destruct (validator username password) eqn:Hv.
  - left. exists (mkAuthInfo "basic" "" username password true).
    split; [done |]. split; [right; right; eauto 10 |]. apply admits_SetAuth. along_branch.
  - reject_with "invalid credentials".
Qed.

(** C10. For each of the four auth middlewares and every request, either
    the middleware rejects (the outcome does not depend on the inner
    handler, which is therefore not invoked, and the auth result of the
    context is untouched), or it invokes the inner handler on the context
    with an auth result attached, which [c.GetAuth()] returns there,
    whose validity flag is true and whose type is the scheme's, the
    context being otherwise as received. No path attaches an auth result with the flag
    false. The basic strategies, standalone and in the combined
    middleware, attach the user name and the password decoded from the
    header, in plain text. *)
Theorem auth_middlewares_attach_valid_auth :
  (∀ validator c,
     (∃ auth decoded username password,
        Ctx_Get "Authorization" c = Some auth
        ∧ GoBase64.DecodeString (from 6 auth) = Some decoded
        ∧ SplitN decoded ":" 2 = [username; password]
        ∧ validator username password = true
        ∧ admits (BasicAuth validator) c
                 (mkAuthInfo "basic" "" username password true))
     ∨ rejects (BasicAuth validator) c)
  ∧ (∀ validator c,
       (∃ auth,
          Ctx_Get "Authorization" c = Some auth
          ∧ validator (from 7 auth) = true
          ∧ admits (BearerAuth validator) c
                   (mkAuthInfo "bearer" (from 7 auth) "" "" true))
       ∨ rejects (BearerAuth validator) c)
  ∧ (∀ validator headerName c,
       (∃ key,
          Ctx_Get (if decide (headerName = "") then "X-API-Key" else headerName) c
          = Some key
          ∧ validator key = true
          ∧ admits (APIKeyAuth validator headerName) c
                   (mkAuthInfo "apikey" key "" "" true))
       ∨ rejects (APIKeyAuth validator headerName) c)
  ∧ (∀ config c,
       (∃ info,
          Valid info = true
          ∧ ((Type_ info = "apikey"
              ∧ Ctx_Get (APIKeyName config) c = Some (Value info))
             ∨ (Type_ info = "bearer"
                ∧ ∃ auth, Ctx_Get "Authorization" c = Some auth
                          ∧ Value info = from 7 auth)
             ∨ (Type_ info = "basic"
                ∧ ∃ auth decoded,
                    Ctx_Get "Authorization" c = Some auth
                    ∧ GoBase64.DecodeString (from 6 auth) = Some decoded
                    ∧ SplitN decoded ":" 2 = [Username info; Password info]))
          ∧ admits (Auth config) c info)
       ∨ rejects (Auth config) c).
Proof.
  split_and!.
  - apply BasicAuth_guards.
  - apply BearerAuth_guards.
  - apply APIKeyAuth_guards.
  - apply Auth_guards.
Qed.

(** C4. For every request on an attached context the combined middleware
    tries its branches in the order API key, Bearer, Basic. When the key
    header is present and a key validator is configured that validator
    alone decides: acceptance attaches an [apikey] auth result and
    invokes the inner handler, refusal answers 401, whatever the
    [Authorization] header and the other validators are. Otherwise, when
    [Authorization] starts with [Bearer ] and a bearer validator is
    configured, that validator decides likewise; otherwise, when it
    starts with [Basic ] and a basic validator is configured, the basic
    branch decides (401 unless the credentials decode, split and
    validate). When no branch applies the answer is 401 and the inner
    handler is not invoked. The context an accepting branch hands to the
    inner handler is the one received with the auth result of the branch
    attached, which [c.GetAuth()] returns there, and nothing else
    changed. Every refusal is a 401 response that leaves the auth result
    untouched. *)
Theorem Auth_priority (config : AuthConfig) (next : Handler) (c : Ctx)
    (fctx : RequestCtx) :
  Ctx_RequestCtx c = Some fctx →
  let auth := req_Peek (fctx_Request fctx) "Authorization" in
  let apiKey := req_Peek (fctx_Request fctx) (APIKeyName config) in
  let key_applies := apiKey ≠ "" ∧ is_Some (APIKeyValidator_ config) in
  let bearer_applies :=
    HasPrefix auth "Bearer " = true ∧ is_Some (BearerValidator config) in
  let basic_applies :=
    HasPrefix auth "Basic " = true ∧ is_Some (BasicValidator config) in
  (∀ validator,
     apiKey ≠ "" → APIKeyValidator_ config = Some validator →
     Auth config next c =
     if validator apiKey
     then next (Ctx_SetAuth (mkAuthInfo "apikey" apiKey "" "" true) c)
     else Ctx_Unauthorized "invalid API key" c)
  ∧ (∀ validator,
       ¬ key_applies →
       HasPrefix auth "Bearer " = true → BearerValidator config = Some validator →
       Auth config next c =
       if validator (from 7 auth)
       then next (Ctx_SetAuth (mkAuthInfo "bearer" (from 7 auth) "" "" true) c)
       else Ctx_Unauthorized "invalid token" c)
  ∧ (∀ validator,
       ¬ key_applies → ¬ bearer_applies →
       HasPrefix auth "Basic " = true → BasicValidator config = Some validator →
       Auth config next c =
       match GoBase64.DecodeString (from 6 auth) with
       | None => Ctx_Unauthorized "invalid base64 encoding" c
       | Some decoded =>
           match SplitN decoded ":" 2 with
           | [username; password] =>
               if validator username password
               then next (Ctx_SetAuth
                            (mkAuthInfo "basic" "" username password true) c)
               else Ctx_Unauthorized "invalid credentials" c
           | _ => Ctx_Unauthorized "invalid credentials format" c
           end
       end)
  ∧ (¬ key_applies → ¬ bearer_applies → ¬ basic_applies →
     rejects (Auth config) c ∧ is_Some (Auth config next c))
  ∧ (∀ info,
       Ctx_GetAuth (Ctx_SetAuth info c) = Some info
       ∧ Ctx_RequestCtx (Ctx_SetAuth info c) = Some fctx
       ∧ Params (Ctx_SetAuth info c) = Params c
       ∧ Locals (Ctx_SetAuth info c) = Locals c
       ∧ Ctx_Logger (Ctx_SetAuth info c) = Ctx_Logger c)
  ∧ (∀ msg, ∃ c',
       Ctx_Unauthorized msg c = Some (c', None)
       ∧ Ctx_StatusCode c' = Some StatusUnauthorized
       ∧ Ctx_Auth c' = Ctx_Auth c).
Proof.
  intros Hc auth apiKey key_applies bearer_applies basic_applies.
  assert (Ctx_Get "Authorization" c = Some auth) as Hget
    by (unfold Ctx_Get; by rewrite Hc).
  assert (Ctx_Get (APIKeyName config) c = Some apiKey) as Hkey
    by (unfold Ctx_Get; by rewrite Hc).
  assert (∀ b : bool, b ≠ true → b = false) as Hfalse by (by intros []).
  assert (∀ (A : Type) (cond : bool) (o : option A),
            ¬ (cond = true ∧ is_Some o) → (if cond then o else None) = None)
    as Hskip.
  { intros A [] [x|] H; try done. destruct H. eauto. }
  assert (¬ key_applies →
          (if decide (apiKey = "") then None else APIKeyValidator_ config) = None)
    as Hnokey.
  { intros H. destruct (decide (apiKey = "")); [done |].
    destruct (APIKeyValidator_ config) eqn:Hv; [|done].
    destruct H. split; [done | eauto]. }
  split_and!.
  - intros validator Hne Hv. unfold Auth. rewrite Hget, Hkey.
    cbn [mbind option_bind]. rewrite decide_False by done. by rewrite Hv.
  - intros validator Hk Hp Hv. unfold Auth. rewrite Hget, Hkey.
    cbn [mbind option_bind]. rewrite (Hnokey Hk).
    rewrite decide_False by (intros Heq; by rewrite Heq in Hp).
    by rewrite Hp, Hv.
  - intros validator Hk Hb Hp Hv. unfold Auth. rewrite Hget, Hkey.
    cbn [mbind option_bind]. rewrite (Hnokey Hk).
    rewrite decide_False by (intros Heq; by rewrite Heq in Hp).
    rewrite (Hskip _ _ _ Hb). by rewrite Hp, Hv.
  - intros Hk Hb Hp.
    assert (∀ next', Auth config next' c =
              if decide (auth = "")
              then c1 ← Ctx_Set "WWW-Authenticate" realm c;
                   Ctx_Unauthorized "missing authorization" c1
              else Ctx_Unauthorized "invalid authorization" c) as Heq.
    { intros next'. unfold Auth. rewrite Hget, Hkey. cbn [mbind option_bind].
      rewrite (Hnokey Hk). destruct (decide (auth = "")); [done |].
      by rewrite (Hskip _ _ _ Hb), (Hskip _ _ _ Hp). }
    split.
    + destruct (decide (auth = "")).
      * by apply (rejects_challenge _ "missing authorization").
      * by apply (rejects_Unauthorized _ "invalid authorization").
    + rewrite Heq. destruct c as [rc ps ls lg au]. simpl in Hc. subst rc.
      destruct (decide (auth = "")); by eexists.
  - intros info. by split_and!.
  - intros msg. destruct c as [rc ps ls lg au]. simpl in Hc. subst rc.
    eexists. split; [apply Ctx_Unauthorized_attached |]. done.
Qed.

(** Both a key and a bearer token are sent; the key decides. *)
Lemma Auth_priority_witness :
  let fctx := Example.request "GET" "/auth/any/profile"
                [("X-API-Key", "wrong-key"); ("Authorization", "Bearer valid-token")] in
  Example.status_after
    (Auth Example.config Example.whoami (Example.attached fctx))
  = Some StatusUnauthorized.
Proof.
  intros fctx.
  pose proof (Auth_priority Example.config Example.whoami (Example.attached fctx)
                fctx eq_refl) as (Hkey & _).
  rewrite (Hkey (fun key => bool_decide (key = "my-api-key")));
    [vm_compute; reflexivity | vm_compute; discriminate | reflexivity].
Defined.

End auth.

(** ** Metrics: the two renderings *)

Section string_slices.

Lemma append_cons a (s t : string) : String a s +:+ t = String a (s +:+ t).
Proof. reflexivity. Qed.

Lemma upto_append (s t : string) : upto (String.length s) (s +:+ t) = s.
Proof.
  induction s as [|a s IH]; [by destruct t |].
  rewrite append_cons. cbn [String.length upto]. by rewrite IH.
Qed.

Lemma from_append (s t : string) : from (String.length s) (s +:+ t) = t.
Proof.
  induction s as [|a s IH]; [done |].
  rewrite append_cons. cbn [String.length from]. apply IH.
Qed.

Lemma upto_from (n : nat) : ∀ s, upto n s +:+ from n s = s.
Proof.
  induction n as [|n IH]; intros [|a s]; try done.
  cbn [upto from]. by rewrite append_cons, IH.
Qed.

Lemma HasSuffix_append (base suffix : string) :
  HasSuffix (base +:+ suffix) suffix = true.
Proof.
  unfold HasSuffix. rewrite length_append.
  replace (String.length base + String.length suffix - String.length suffix)%nat
    with (String.length base) by lia.
  rewrite from_append, String.eqb_refl, andb_true_r.
  apply Nat.leb_le. lia.
Qed.

Lemma TrimSuffix_append (base suffix : string) :
  TrimSuffix (base +:+ suffix) suffix = base.
Proof.
  unfold TrimSuffix. rewrite HasSuffix_append, length_append.
  replace (String.length base + String.length suffix - String.length suffix)%nat
    with (String.length base) by lia.
  apply upto_append.
Qed.

Lemma HasSuffix_inv (s suffix : string) :
  HasSuffix s suffix = true → s = TrimSuffix s suffix +:+ suffix.
Proof.
  intros H. unfold TrimSuffix. rewrite H. unfold HasSuffix in H.
  apply andb_true_iff in H as [_ Heq]. apply String.eqb_eq in Heq.
  etrans; [symmetry; apply (upto_from (String.length s - String.length suffix)) |].
  by rewrite Heq.
Qed.

Lemma TrimSuffix_inj (s t suffix : string) :
  HasSuffix s suffix = true → HasSuffix t suffix = true →
  TrimSuffix s suffix = TrimSuffix t suffix → s = t.
Proof.
  intros Hs Ht Heq.
  rewrite (HasSuffix_inv s suffix Hs), (HasSuffix_inv t suffix Ht).
  by rewrite Heq.
Qed.

(** A string without the separator, followed by the separator, is cut
    there. *)
Lemma cut_append sep (s t : string) :
  cut sep s = None → cut sep (s +:+ String sep t) = Some (s, t).
Proof.
  induction s as [|a s IH].
  - intros _. change ("" +:+ String sep t) with (String sep t).
    cbn [cut]. by rewrite decide_True.
  - rewrite append_cons. cbn [cut].
    destruct (decide (a = sep)); [done |].
    destruct (cut sep s) as [[before after]|]; [done |].
    intros _. by rewrite IH.
Qed.



End string_slices.

Section renderings.


Lemma elem_of_Range_keys {V} (m : gmap string V) key :
  key ∈ Range_keys m ↔ is_Some (m !! key).
Proof.
  unfold Range_keys. rewrite list_elem_of_fmap. split.
  - intros [[k v] [-> Hin]]. apply elem_of_map_to_list in Hin. eauto.
  - intros [v Hv]. exists (key, v). split; [done |]. by apply elem_of_map_to_list.
Qed.


Lemma elem_of_sort_Strings keys key : key ∈ sort_Strings keys ↔ key ∈ keys.
Proof. unfold sort_Strings. by rewrite merge_sort_Permutation. Qed.

Lemma counter_lines_Some line (counters : gmap string Z) :
  counter_lines line counters =
  Some ((fun key => line key (counter counters key))
          <$> sort_Strings (Range_keys counters)).
Proof.
  unfold counter_lines.
  assert (∀ key, key ∈ sort_Strings (Range_keys counters) →
                 is_Some (counters !! key)) as Hall.
  { intros key Hin. by apply elem_of_Range_keys, elem_of_sort_Strings. }
  induction (sort_Strings (Range_keys counters)) as [|key keys IH]; [done |].
  cbn [mapM fmap list_fmap].
  destruct (Hall key) as [v Hv]; [apply elem_of_cons; by left |].
  rewrite IH by (intros k Hk; apply Hall, elem_of_cons; by right).
  unfold counter. rewrite Hv. reflexivity.
Qed.

(** The fold of [ToJSON] over the latency entries, on any list of
    entries with distinct keys. *)
Lemma latencies_fold (entries : list (string * LatencyEntry)) :
  NoDup entries.*1 →
  (∀ key, (key, EntryMutex) ∈ entries → HasSuffix key "_bucket" = false) →
  ∃ result,
    foldr latencies_step (Some ∅) entries = Some result
    ∧ ∀ base avg,
        result !! base = Some avg ↔
        ∃ bucket, (base +:+ "_bucket", EntryBucket bucket) ∈ entries
                  ∧ (0 < count bucket)%Z ∧ avg = mean bucket.
Proof.
  induction entries as [|[key entry] entries IH]; intros Hnodup Hmutex.
  - exists ∅. split; [done |]. intros base avg. rewrite lookup_empty.
    split; [done |]. intros (bucket & Hin & _). by apply elem_of_nil in Hin.
  - rewrite fmap_cons in Hnodup. apply NoDup_cons in Hnodup as [Hfresh Hnodup].
    destruct IH as (result & Hfold & Hresult); [done | |].
    { intros k Hk. apply Hmutex, elem_of_cons. by right. }
    cbn [foldr]. rewrite Hfold. unfold latencies_step. cbn [mbind option_bind fst snd].
    assert (∀ base avg,
              (∃ bucket, (base +:+ "_bucket", EntryBucket bucket) ∈ entries
                         ∧ (0 < count bucket)%Z ∧ avg = mean bucket)
              → ∃ bucket, (base +:+ "_bucket", EntryBucket bucket)
                            ∈ (key, entry) :: entries
                          ∧ (0 < count bucket)%Z ∧ avg = mean bucket) as Hweaken.
    { intros base avg (bucket & Hin & H). exists bucket.
      split; [apply elem_of_cons; by right | done]. }
    destruct (HasSuffix key "_bucket") eqn:Hsuffix.
    + destruct entry as [|bucket].
      { rewrite (Hmutex key) in Hsuffix; [done | apply elem_of_cons; by left]. }
      pose proof (HasSuffix_inv _ _ Hsuffix) as Hkey.
      destruct (count bucket >? 0)%Z eqn:Hcount.
      * apply Z.gtb_lt in Hcount. eexists. split; [done |]. intros base avg.
        destruct (decide (TrimSuffix key "_bucket" = base)) as [<- | Hne].
        -- rewrite lookup_insert_eq. rewrite <- Hkey. split.
           ++ intros ?; simplify_eq. exists bucket.
              split; [apply elem_of_cons; by left | done].
           ++ intros (bucket' & [Heq | Hin]%elem_of_cons & _ & ->); [by simplify_eq |].
              destruct Hfresh. apply list_elem_of_fmap.
              by exists (key, EntryBucket bucket').
        -- rewrite lookup_insert_ne by done. rewrite Hresult. split; [apply Hweaken |].
           intros (bucket' & [Heq | Hin]%elem_of_cons & Hrest); [|by eauto].
           simplify_eq. destruct Hne. apply TrimSuffix_append.
      * exists result. split; [done |]. intros base avg. rewrite Hresult.
        split; [apply Hweaken |].
        intros (bucket' & [Heq | Hin]%elem_of_cons & Hpos & Hrest); [|by eauto].
        simplify_eq. apply Z.gtb_lt in Hpos. congruence.
    + exists result. split; [done |]. intros base avg. rewrite Hresult.
      split; [apply Hweaken |].
      intros (bucket' & [Heq | Hin]%elem_of_cons & Hrest); [|by eauto].
      simplify_eq. by rewrite HasSuffix_append in Hsuffix.
Qed.

Lemma Range_latencies_Some (latency : gmap string LatencyEntry) :
  (∀ key, HasSuffix key "_bucket" = true → latency !! key ≠ Some EntryMutex) →
  ∃ result,
    Range_latencies latency = Some result
    ∧ ∀ base avg,
        result !! base = Some avg ↔
        ∃ bucket, latency !! (base +:+ "_bucket") = Some (EntryBucket bucket)
                  ∧ (0 < count bucket)%Z ∧ avg = mean bucket.
Proof.
  intros Hok.
  destruct (latencies_fold (map_to_list latency)) as (result & Hfold & Hresult).
  - apply NoDup_fst_map_to_list.
  - intros key Hin%elem_of_map_to_list.
    destruct (HasSuffix key "_bucket") eqn:Hs; [|done]. by destruct (Hok key).
  - exists result. split; [exact Hfold |]. intros base avg. rewrite Hresult.
    by setoid_rewrite elem_of_map_to_list.
Qed.

Lemma latency_lines_Some (latency : gmap string LatencyEntry)
    (result : gmap string float) :
  (∀ key, HasSuffix key "_bucket" = true → latency !! key ≠ Some EntryMutex) →
  (∀ base avg,
     result !! base = Some avg ↔
     ∃ bucket, latency !! (base +:+ "_bucket") = Some (EntryBucket bucket)
               ∧ (0 < count bucket)%Z ∧ avg = mean bucket) →
  latency_lines latency =
  Some ((fun key => latency_text key result)
          <$> sort_Strings (filter (fun key => HasSuffix key "_bucket" = true)
                                   (Range_keys latency))).
Proof.
  intros Hok Hresult. unfold latency_lines.
  assert (∀ key, key ∈ sort_Strings
                         (filter (fun key => HasSuffix key "_bucket" = true)
                                 (Range_keys latency)) →
                 HasSuffix key "_bucket" = true ∧ is_Some (latency !! key)) as Hall.
  { intros key [Hs Hin]%elem_of_sort_Strings%list_elem_of_filter.
    split; [done | by apply elem_of_Range_keys]. }
  induction (sort_Strings _) as [|key keys IH]; [done |].
  cbn [mapM fmap list_fmap].
  destruct (Hall key) as [Hs [entry Hentry]]; [apply elem_of_cons; by left |].
  rewrite IH by (intros k Hk; apply Hall, elem_of_cons; by right).
  rewrite Hentry. cbn [mbind option_bind].
  destruct entry as [|bucket]; [by destruct (Hok key) |].
  cbn [mret option_ret mbind option_bind]. do 2 f_equal.
  unfold latency_line, latency_text.
  pose proof (HasSuffix_inv _ _ Hs) as Hkey.
  destruct (count bucket >? 0)%Z eqn:Hcount.
  - apply Z.gtb_lt in Hcount.
    assert (result !! TrimSuffix key "_bucket" = Some (mean bucket)) as ->; [|done].
    apply Hresult. exists bucket. by rewrite <- Hkey.
  - destruct (result !! TrimSuffix key "_bucket") as [avg|] eqn:Hr; [|done].
    apply Hresult in Hr as (bucket' & Hb & Hpos & _).
    rewrite <- Hkey, Hentry in Hb. simplify_eq.
    apply Z.gtb_lt in Hpos. congruence.
Qed.

(** Recording keeps the state renderable as long as the key of the
    (method, path) does not itself end in [_bucket]. *)
Lemma ObserveLatency_renderable m method path duration m' :
  renderable m →
  HasSuffix (latency_key method path) "_bucket" = false →
  ObserveLatency m method path duration = Some m' →
  renderable m'.
Proof.
  intros Hm Hkey Hobs key Hs Hlook.
  assert (key ≠ latency_key method path) as Hne by (intros ->; congruence).
  unfold ObserveLatency, LoadOrStore in Hobs.
  destruct (requestLatency m !! latency_key method path) as [[|b]|] eqn:Hk;
    [| done |];
    [| rewrite lookup_insert_ne in Hobs by apply bucket_key_ne];
    destruct (requestLatency m !! (latency_key method path +:+ "_bucket"))
      as [[|b]|] eqn:Hb; try done; simplify_eq; cbn [requestLatency] in Hlook;
    (destruct (decide (key = latency_key method path +:+ "_bucket")) as [-> | Hnb];
     [by rewrite lookup_insert_eq in Hlook
     | rewrite !lookup_insert_ne in Hlook by done; by destruct (Hm key)]).
Qed.






End renderings.

(** * Further properties *)

(** ** The client's encoder and the server's decoder *)

Section base64.

Import client.

Ltac by_division := zify; Z.to_euclidean_division_equations; lia.

Lemma lor_disjoint (a b : N) (k : N) :
  (b < 2 ^ k)%N → N.lor (a * 2 ^ k) b = (a * 2 ^ k + b)%N.
Proof.
  intros Hb.
  assert (N.land (a * 2 ^ k) b = 0%N) as Hland.
  { apply N.bits_inj. intros i. rewrite N.land_spec, N.bits_0.
    destruct (N.ltb_spec i k) as [Hlt | Hge].
    - by rewrite N.mul_pow2_bits_low.
    - rewrite <- (N.mod_small b (2 ^ k)) by done.
      by rewrite N.mod_pow2_bits_high, andb_false_r. }
  by rewrite <- N.lxor_lor, <- N.add_nocarry_lxor.
Qed.

Lemma N_of_ascii_lt (a : ascii) : (N_of_ascii a < 256)%N.
Proof. apply N_ascii_bounded. Qed.

(** The number the encoder builds from three bytes. *)
Lemma pack3 (d0 d1 d2 : ascii) :
  N.lor (N.lor (N.shiftl (N_of_ascii d0) 16) (N.shiftl (N_of_ascii d1) 8))
        (N_of_ascii d2)
  = (N_of_ascii d0 * 65536 + N_of_ascii d1 * 256 + N_of_ascii d2)%N.
Proof.
  pose proof (N_of_ascii_lt d0). pose proof (N_of_ascii_lt d1).
  pose proof (N_of_ascii_lt d2).
  rewrite !N.shiftl_mul_pow2.
  rewrite (lor_disjoint (N_of_ascii d0) _ 16) by (change (2 ^ 16)%N with 65536%N; lia).
  change (2 ^ 16)%N with 65536%N. change (2 ^ 8)%N with 256%N.
  replace (N_of_ascii d0 * 65536 + N_of_ascii d1 * 256)%N
    with ((N_of_ascii d0 * 256 + N_of_ascii d1) * 2 ^ 8)%N
    by (change (2 ^ 8)%N with 256%N; lia).
  rewrite lor_disjoint by (change (2 ^ 8)%N with 256%N; lia).
  change (2 ^ 8)%N with 256%N. lia.
Qed.

Lemma pack2 (d0 d1 : ascii) :
  N.lor (N.shiftl (N_of_ascii d0) 16) (N.shiftl (N_of_ascii d1) 8)
  = (N_of_ascii d0 * 65536 + N_of_ascii d1 * 256)%N.
Proof.
  pose proof (N_of_ascii_lt d1).
  rewrite !N.shiftl_mul_pow2.
  rewrite (lor_disjoint (N_of_ascii d0) _ 16) by (change (2 ^ 16)%N with 65536%N; lia).
  reflexivity.
Qed.

Lemma shiftr_div (n k : N) : N.shiftr n k = (n / 2 ^ k)%N.
Proof. apply N.shiftr_div_pow2. Qed.

Lemma land_63 (n : N) : N.land n 63 = (n mod 64)%N.
Proof. change 63%N with (N.ones 6). by rewrite N.land_ones. Qed.

(** Every index below 64 names a byte of the alphabet that the decoder
    maps back to the index, and that is neither padding nor a line break. *)
Lemma alphabet_below_64 :
  Forall (fun k : nat =>
            GoBase64.value (at_ (N.of_nat k)) = Some (N.of_nat k)
            ∧ at_ (N.of_nat k) ≠ "="%char
            ∧ at_ (N.of_nat k) ≠ ascii_of_nat 13
            ∧ at_ (N.of_nat k) ≠ ascii_of_nat 10)
         (seq 0 64).
Proof. apply (bool_decide_unpack _). vm_compute. reflexivity. Qed.

Lemma alphabet (i : N) :
  (i < 64)%N →
  GoBase64.value (at_ i) = Some i
  ∧ at_ i ≠ "="%char ∧ at_ i ≠ ascii_of_nat 13 ∧ at_ i ≠ ascii_of_nat 10.
Proof.
  intros Hi. pose proof alphabet_below_64 as H.
  rewrite Forall_forall in H. specialize (H (N.to_nat i)).
  rewrite N2Nat.id in H. apply H. apply elem_of_seq. lia.
Qed.

Lemma shiftr_18 n : N.shiftr n 18 = (n / 262144)%N.
Proof. apply N.shiftr_div_pow2. Qed.
Lemma shiftr_12 n : N.shiftr n 12 = (n / 4096)%N.
Proof. apply N.shiftr_div_pow2. Qed.
Lemma shiftr_6 n : N.shiftr n 6 = (n / 64)%N.
Proof. apply N.shiftr_div_pow2. Qed.
Lemma shiftl_16 n : N.shiftl n 16 = (n * 65536)%N.
Proof. apply N.shiftl_mul_pow2. Qed.

Lemma byte_of_ascii (x : N) (d : ascii) :
  (x mod 256)%N = N_of_ascii d → GoBase64.byte x = d.
Proof. intros H. unfold GoBase64.byte. rewrite H. apply ascii_N_embedding. Qed.

Lemma decode_quantum a b c d rest :
  GoBase64.decode (String a (String b (String c (String d rest)))) =
  va ← GoBase64.value a;
  vb ← GoBase64.value b;
  if decide (d = "="%char) then
    match rest with
    | String _ _ => None
    | EmptyString =>
        if decide (c = "="%char) then
          Some (String (GoBase64.byte ((va * 64 + vb) / 16)) EmptyString)
        else
          vc ← GoBase64.value c;
          let n := ((va * 64 + vb) * 64 + vc)%N in
          Some (String (GoBase64.byte (n / 1024))
                  (String (GoBase64.byte (n / 4)) EmptyString))
    end
  else
    vc ← GoBase64.value c;
    vd ← GoBase64.value d;
    tail ← GoBase64.decode rest;
    let n := (((va * 64 + vb) * 64 + vc) * 64 + vd)%N in
    Some (String (GoBase64.byte (n / 65536))
            (String (GoBase64.byte (n / 256)) (String (GoBase64.byte n) tail))).
Proof. reflexivity. Qed.

Lemma by_three (P : string → Prop) :
  P "" →
  (∀ a, P (String a "")) →
  (∀ a b, P (String a (String b ""))) →
  (∀ a b c rest, P rest → P (String a (String b (String c rest)))) →
  ∀ s, P s.
Proof.
  intros H0 H1 H2 H3 s.
  assert (P s ∧ (∀ a, P (String a s)) ∧ ∀ a b, P (String a (String b s))) as [H _].
  { induction s as [|c s (IH0 & IH1 & IH2)]; [by auto |].
    split_and!; [apply IH1 | intros a; apply IH2 | intros a b; by apply H3]. }
  exact H.
Qed.

Lemma decode_encode (data : string) :
  GoBase64.decode (base64Encode data) = Some data.
Proof.
  induction data as [| d0 | d0 d1 | d0 d1 d2 rest IH] using by_three.
  - reflexivity.
  - cbn [base64Encode]. pose proof (N_of_ascii_lt d0) as H0.
    rewrite shiftl_16, shiftr_18, shiftr_12, land_63.
    set (n := (N_of_ascii d0 * 65536)%N).
    destruct (alphabet (n / 262144)) as (Hv1 & _); [subst n; by_division |].
    destruct (alphabet ((n / 4096) mod 64)) as (Hv2 & _); [by_division |].
    change "==" with (String "="%char (String "="%char "")).
    rewrite decode_quantum, Hv1, Hv2. cbn [mbind option_bind].
    rewrite !decide_True by done. do 2 f_equal.
    apply byte_of_ascii. subst n. by_division.
  - cbn [base64Encode]. pose proof (N_of_ascii_lt d0) as H0.
    pose proof (N_of_ascii_lt d1) as H1.
    rewrite pack2, shiftr_18, shiftr_12, shiftr_6, !land_63.
    set (n := (N_of_ascii d0 * 65536 + N_of_ascii d1 * 256)%N).
    destruct (alphabet (n / 262144)) as (Hv1 & _); [subst n; by_division |].
    destruct (alphabet ((n / 4096) mod 64)) as (Hv2 & _); [by_division |].
    destruct (alphabet ((n / 64) mod 64)) as (Hv3 & Hp3 & _); [by_division |].
    change "=" with (String "="%char "").
    rewrite decode_quantum, Hv1, Hv2. cbn [mbind option_bind].
    rewrite decide_True by done. rewrite decide_False by done.
    rewrite Hv3. cbn [mbind option_bind]. cbn zeta.
    f_equal. f_equal; [| f_equal]; apply byte_of_ascii; subst n; by_division.
  - cbn [base64Encode]. pose proof (N_of_ascii_lt d0) as H0.
    pose proof (N_of_ascii_lt d1) as H1. pose proof (N_of_ascii_lt d2) as H2.
    rewrite pack3, shiftr_18, shiftr_12, shiftr_6, !land_63.
    set (n := (N_of_ascii d0 * 65536 + N_of_ascii d1 * 256 + N_of_ascii d2)%N).
    destruct (alphabet (n / 262144)) as (Hv1 & _); [subst n; by_division |].
    destruct (alphabet ((n / 4096) mod 64)) as (Hv2 & _); [by_division |].
    destruct (alphabet ((n / 64) mod 64)) as (Hv3 & _); [by_division |].
    destruct (alphabet (n mod 64)) as (Hv4 & Hp4 & _); [by_division |].
    rewrite decode_quantum, Hv1, Hv2. cbn [mbind option_bind].
    rewrite decide_False by done.
    rewrite Hv3, Hv4, IH. cbn [mbind option_bind]. cbn zeta.
    f_equal. f_equal; [| f_equal; [| f_equal]];
      apply byte_of_ascii; subst n; by_division.
Qed.

Lemma strip_newlines_encode (data : string) :
  GoBase64.strip_newlines (base64Encode data) = base64Encode data.
Proof.
  assert (∀ i rest, (i < 64)%N →
            GoBase64.strip_newlines (String (at_ i) rest)
            = String (at_ i) (GoBase64.strip_newlines rest)) as Hat.
  { intros i rest Hi. destruct (alphabet i Hi) as (_ & _ & Hcr & Hlf).
    cbn [GoBase64.strip_newlines]. rewrite decide_False; [done |].
    by intros [? | ?]. }
  induction data as [| d0 | d0 d1 | d0 d1 d2 rest IH] using by_three.
  - reflexivity.
  - cbn [base64Encode]. pose proof (N_of_ascii_lt d0) as H0.
    rewrite shiftl_16, shiftr_18, shiftr_12, land_63.
    rewrite !Hat by by_division. reflexivity.
  - cbn [base64Encode]. pose proof (N_of_ascii_lt d0) as H0.
    pose proof (N_of_ascii_lt d1) as H1.
    rewrite pack2, shiftr_18, shiftr_12, shiftr_6, !land_63.
    rewrite !Hat by by_division. reflexivity.
  - cbn [base64Encode]. pose proof (N_of_ascii_lt d0) as H0.
    pose proof (N_of_ascii_lt d1) as H1. pose proof (N_of_ascii_lt d2) as H2.
    rewrite pack3, shiftr_18, shiftr_12, shiftr_6, !land_63.
    rewrite !Hat by by_division. by rewrite IH.
Qed.

(** X1. What the client's [base64Encode] produces, the decoder the server
    uses reads back: decoding the encoding of any byte string gives that
    byte string, whatever its length (padding included). *)
Theorem DecodeString_base64Encode (data : string) :
  GoBase64.DecodeString (base64Encode data) = Some data.
Proof.
  unfold GoBase64.DecodeString. rewrite strip_newlines_encode.
  apply decode_encode.
Qed.

End base64.

(** ** Client options against the server's auth middlewares *)

Section client_server.

Import client.

Lemma cut_Some sep (s before after : string) :
  cut sep s = Some (before, after) →
  s = before +:+ String sep after ∧ cut sep before = None.
Proof.
  revert before after. induction s as [|a s IH]; intros before after; [done |].
  cbn [cut]. destruct (decide (a = sep)) as [-> | Hne].
  - intros ?; simplify_eq. done.
  - destruct (cut sep s) as [[b' a']|] eqn:Hc; [|done].
    intros ?; simplify_eq. destruct (IH b' after eq_refl) as [-> Hnone].
    split; [done |]. cbn [cut]. rewrite decide_False by done. by rewrite Hnone.
Qed.

Lemma cut_separator sep (s t : string) : is_Some (cut sep (s +:+ String sep t)).
Proof.
  induction s as [|a s IH].
  - change ("" +:+ String sep t) with (String sep t). cbn [cut].
    rewrite decide_True by done. eauto.
  - rewrite append_cons. cbn [cut]. destruct (decide (a = sep)); [eauto |].
    destruct IH as [[b' a'] ->]. eauto.
Qed.

Lemma carries_delivered cl method path c key :
  Ctx_RequestCtx c = Some (delivered cl method path) → carries c cl key.
Proof. intros H. unfold carries, Ctx_Get. by rewrite H. Qed.

(** X2. A request carrying the header of the client option
    [WithBasicAuth(username, password)] reaches the validator of the
    server's [BasicAuth] with the credentials split at the first colon of
    [username:password]; these are the client's own user name and password
    whenever the user name holds no colon. The request is admitted, with
    exactly these credentials attached, if the validator accepts them, and
    rejected otherwise. *)
Theorem BasicAuth_reads_WithBasicAuth (validator : BasicAuthValidator)
    (username password : string) (cl : Client) (c : Ctx) :
  carries c (WithBasicAuth username password cl) "Authorization" →
  ∃ username' password',
    username' +:+ ":" +:+ password' = username +:+ ":" +:+ password
    ∧ cut ":" username' = None
    ∧ (cut ":" username = None → username' = username ∧ password' = password)
    ∧ (validator username' password' = true →
       admits (BasicAuth validator) c
              (mkAuthInfo "basic" "" username' password' true))
    ∧ (validator username' password' = false → rejects (BasicAuth validator) c).
Proof.
  intros Hget.
  unfold carries, client_header, WithBasicAuth in Hget. cbn [headers] in Hget.
  rewrite lookup_insert_eq in Hget.
  set (auth := "Basic " +:+ basicAuth username password) in Hget.
  change (Ctx_Get "Authorization" c = Some auth) in Hget.
  assert (GoBase64.DecodeString (from 6 auth) = Some (username +:+ ":" +:+ password))
    as Hdec.
  { change (from 6 auth) with (base64Encode (username +:+ ":" +:+ password)).
    unfold GoBase64.DecodeString. rewrite strip_newlines_encode.
    apply decode_encode. }
  destruct (cut_separator ":" username password) as [[username' password'] Hcut].
  destruct (cut_Some _ _ _ _ Hcut) as [Heq Hnone].
  assert (SplitN (username +:+ ":" +:+ password) ":" 2 = [username'; password'])
    as Hsplit.
  { cbn [SplitN]. change (":" +:+ password) with (String ":" password).
    by rewrite Hcut. }
  assert (∀ next,
            BasicAuth validator next c =
            if negb (validator username' password')
            then Ctx_Unauthorized "invalid credentials" c
            else next (Ctx_SetAuth (mkAuthInfo "basic" "" username' password' true) c))
    as Hrun.
  { intros next. unfold BasicAuth. rewrite Hget. cbn [mbind option_bind].
    rewrite decide_False by done.
    change (HasPrefix auth "Basic ") with true. cbn [negb].
    by rewrite Hdec, Hsplit. }
  exists username', password'. split_and!.
  - done.
  - done.
  - intros Hu. rewrite (cut_append _ _ _ Hu) in Hcut. by simplify_eq.
  - intros Hv. apply admits_SetAuth. intros next. by rewrite Hrun, Hv.
  - intros Hv. apply (rejects_Unauthorized _ "invalid credentials").
    intros next. by rewrite Hrun, Hv.
Qed.

Lemma BasicAuth_reads_WithBasicAuth_witness :
  admits (BasicAuth Example.admin_secret)
         (Example.attached
            (delivered (New "http://localhost:8080" [WithBasicAuth "admin" "secret"])
                       "GET" "/admin/profile"))
         (mkAuthInfo "basic" "" "admin" "secret" true).
Proof.
  destruct (BasicAuth_reads_WithBasicAuth Example.admin_secret "admin" "secret"
              (mkClient "http://localhost:8080" (30 * Second) ∅)
              (Example.attached
                 (delivered (New "http://localhost:8080" [WithBasicAuth "admin" "secret"])
                            "GET" "/admin/profile")) eq_refl)
    as (u & p & _ & _ & Hsame & Hadmit & _).
  destruct Hsame as [-> ->]; [reflexivity |].
  apply Hadmit. reflexivity.
Defined.

(** X3. A client sends the API key under the name the server's
    [APIKeyAuth] reads, whenever the two are given the same name or both
    none ([X-API-Key] then; a client given the empty name does not meet a
    server given it). A non-empty key is then admitted, with the key
    attached, exactly when the validator accepts it, and an empty key is
    rejected without asking the validator. *)
Theorem APIKeyAuth_reads_WithAPIKey (validator : APIKeyValidator)
    (key headerName : string) (names : list string) (cl : Client) (c : Ctx) :
  let sent := default "X-API-Key" (head names) in
  let read := if decide (headerName = "") then "X-API-Key" else headerName in
  sent = read →
  carries c (WithAPIKey key names cl) sent →
  (key ≠ "" → validator key = true →
   admits (APIKeyAuth validator headerName) c (mkAuthInfo "apikey" key "" "" true))
  ∧ (key ≠ "" → validator key = false → rejects (APIKeyAuth validator headerName) c)
  ∧ (key = "" → rejects (APIKeyAuth validator headerName) c).
Proof.
  intros sent read Hname Hget.
  assert (Ctx_Get read c = Some key) as Hread.
  { rewrite <- Hname. unfold carries, client_header, WithAPIKey in Hget.
    unfold sent in *. destruct names as [|name names]; cbn [headers head default] in *;
      by rewrite lookup_insert_eq in Hget. }
  assert (∀ next,
            APIKeyAuth validator headerName next c =
            if decide (key = "") then Ctx_Unauthorized "missing API key" c
            else if negb (validator key) then Ctx_Unauthorized "invalid API key" c
            else next (Ctx_SetAuth (mkAuthInfo "apikey" key "" "" true) c)) as Hrun.
  { intros next. unfold APIKeyAuth. fold read. rewrite Hread. reflexivity. }
  split_and!.
  - intros Hne Hv. apply admits_SetAuth. intros next.
    by rewrite Hrun, decide_False, Hv.
  - intros Hne Hv. apply (rejects_Unauthorized _ "invalid API key").
    intros next. by rewrite Hrun, decide_False, Hv.
  - intros ->. apply (rejects_Unauthorized _ "missing API key").
    intros next. by rewrite Hrun.
Qed.

Lemma APIKeyAuth_reads_WithAPIKey_witness :
  admits (APIKeyAuth (fun key => bool_decide (key = "my-api-key")) "")
         (Example.attached
            (delivered (New "http://localhost:8080" [WithAPIKey "my-api-key" []])
                       "GET" "/"))
         (mkAuthInfo "apikey" "my-api-key" "" "" true).
Proof.
  apply (APIKeyAuth_reads_WithAPIKey (fun key => bool_decide (key = "my-api-key"))
           "my-api-key" "" [] (mkClient "http://localhost:8080" (30 * Second) ∅)
           (Example.attached
              (delivered (New "http://localhost:8080" [WithAPIKey "my-api-key" []])
                         "GET" "/"))).
  - reflexivity.
  - reflexivity.
  - discriminate.
  - reflexivity.
Defined.

(** X21. A request carrying the header of the client option
    [WithBearerToken(token)] reaches the validator of the server's
    [BearerAuth] with exactly that token, the empty token included: it is
    admitted, with the token attached, if the validator accepts the token,
    and rejected otherwise. *)
Theorem BearerAuth_reads_WithBearerToken (validator : BearerAuthValidator)
    (token : string) (cl : Client) (c : Ctx) :
  carries c (WithBearerToken token cl) "Authorization" →
  (validator token = true →
   admits (BearerAuth validator) c (mkAuthInfo "bearer" token "" "" true))
  ∧ (validator token = false → rejects (BearerAuth validator) c).
Proof.
  intros Hget.
  unfold carries, client_header, WithBearerToken in Hget. cbn [headers] in Hget.
  rewrite lookup_insert_eq in Hget.
  set (auth := "Bearer " +:+ token) in Hget.
  change (Ctx_Get "Authorization" c = Some auth) in Hget.
  assert (∀ next,
            BearerAuth validator next c =
            if negb (validator token) then Ctx_Unauthorized "invalid token" c
            else next (Ctx_SetAuth (mkAuthInfo "bearer" token "" "" true) c))
    as Hrun.
  { intros next. unfold BearerAuth. rewrite Hget. cbn [mbind option_bind].
    rewrite decide_False by done.
    change (HasPrefix auth "Bearer ") with true. reflexivity. }
  split.
  - intros Hv. apply admits_SetAuth. intros next. by rewrite Hrun, Hv.
  - intros Hv. apply (rejects_Unauthorized _ "invalid token").
    intros next. by rewrite Hrun, Hv.
Qed.

Lemma BearerAuth_reads_WithBearerToken_witness :
  admits (BearerAuth (fun token => bool_decide (token = "valid-token")))
         (Example.attached
            (delivered (New "http://localhost:8080" [WithBearerToken "valid-token"])
                       "GET" "/"))
         (mkAuthInfo "bearer" "valid-token" "" "" true).
Proof.
  apply (BearerAuth_reads_WithBearerToken
           (fun token => bool_decide (token = "valid-token")) "valid-token"
           (mkClient "http://localhost:8080" (30 * Second) ∅)
           (Example.attached
              (delivered (New "http://localhost:8080" [WithBearerToken "valid-token"])
                         "GET" "/"))).
  - reflexivity.
  - reflexivity.
Defined.

Lemma New_snoc baseURL opts opt : New baseURL (opts ++ [opt]) = opt (New baseURL opts).
Proof. unfold New. by rewrite foldl_app. Qed.

(** X4. The options of [New] are applied in the order given, so the last
    option decides: whatever options come before, a final
    [WithBearerToken] or [WithBasicAuth] fixes the [Authorization] header
    (an earlier credential is overwritten), a final [WithAPIKey] stores the
    key under the first name given, or [X-API-Key] when none is, a final
    [WithHeader] fixes its own header and leaves every other header as it
    was, and a final [WithTimeout] sets the timeout and leaves all headers
    as they were. *)
Theorem New_last_option_wins (baseURL : string) (opts : list Option) :
  (∀ token,
     headers (New baseURL (opts ++ [WithBearerToken token])) !! "Authorization"
     = Some ("Bearer " +:+ token))
  ∧ (∀ username password,
       headers (New baseURL (opts ++ [WithBasicAuth username password]))
         !! "Authorization"
       = Some ("Basic " +:+ basicAuth username password))
  ∧ (∀ key names,
       headers (New baseURL (opts ++ [WithAPIKey key names]))
         !! default "X-API-Key" (head names)
       = Some key)
  ∧ (∀ key value other,
       headers (New baseURL (opts ++ [WithHeader key value])) !! key = Some value
       ∧ (other ≠ key →
          headers (New baseURL (opts ++ [WithHeader key value])) !! other
          = headers (New baseURL opts) !! other))
  ∧ (∀ timeout,
       Timeout (New baseURL (opts ++ [WithTimeout timeout])) = timeout
       ∧ headers (New baseURL (opts ++ [WithTimeout timeout]))
         = headers (New baseURL opts)).
Proof.
  split_and!; intros; rewrite ?New_snoc.
  - unfold WithBearerToken. cbn [headers]. by rewrite lookup_insert_eq.
  - unfold WithBasicAuth. cbn [headers]. by rewrite lookup_insert_eq.
  - unfold WithAPIKey. destruct names as [|name names]; cbn [headers head default];
      by rewrite lookup_insert_eq.
  - unfold WithHeader. cbn [headers]. split; [by rewrite lookup_insert_eq |].
    intros Hne. by rewrite lookup_insert_ne.
  - done.
Qed.

(** X5. No response is both a success and an error for the client:
    [IsSuccess] holds exactly for the codes 200 to 299 and [IsError]
    exactly from 400 on, so the codes below 200 and the codes 300 to 399
    are neither. *)
Theorem IsSuccess_IsError_disjoint (r : Response) :
  (IsSuccess r = true ↔ (200 ≤ StatusCode r < 300)%Z)
  ∧ (IsError r = true ↔ (400 ≤ StatusCode r)%Z)
  ∧ ¬ (IsSuccess r = true ∧ IsError r = true)
  ∧ (IsSuccess r = false ∧ IsError r = false ↔
     (StatusCode r < 200 ∨ 300 ≤ StatusCode r < 400)%Z).
Proof.
  unfold IsSuccess, IsError.
  destruct (Z.leb_spec 200 (StatusCode r)), (Z.ltb_spec (StatusCode r) 300),
           (Z.leb_spec 400 (StatusCode r)); cbn [andb];
    split_and!; try split; intros; try lia; try done;
    try (split; [done | lia]); intuition (try lia; try discriminate).
Qed.

End client_server.

(** ** Paths, patterns and groups *)

Section paths.

Implicit Types (s t pattern path : string).

Lemma append_assoc s t u : s +:+ t +:+ u = (s +:+ t) +:+ u.
Proof. induction s as [|a s IH]; [done |]. by rewrite !append_cons, IH. Qed.

Lemma Split_not_nil s sep : Split s sep ≠ [].
Proof.
  destruct s as [|a s]; [done |]. cbn [Split].
  destruct (decide (a = sep)); [done |]. by destruct (Split s sep).
Qed.

Lemma join_cons sep piece pieces :
  pieces ≠ [] → join sep (piece :: pieces) = piece +:+ String sep (join sep pieces).
Proof. by destruct pieces. Qed.

(** Joining the pieces of a split gives the string back. *)
Lemma join_Split s sep : join sep (Split s sep) = s.
Proof.
  induction s as [|a s IH]; [done |]. cbn [Split].
  destruct (decide (a = sep)) as [-> | Hne].
  - rewrite join_cons by apply Split_not_nil. by rewrite IH.
  - pose proof (Split_not_nil s sep) as Hnil.
    destruct (Split s sep) as [|piece pieces]; [done |].
    destruct pieces as [|piece' pieces].
    + cbn [join] in *. by rewrite IH.
    + rewrite join_cons in IH by done. rewrite join_cons by done.
      rewrite append_cons. by rewrite IH.
Qed.

Lemma Split_inj s t sep : Split s sep = Split t sep → s = t.
Proof. intros H. by rewrite <- (join_Split s sep), H, join_Split. Qed.

Lemma Split_append s t sep :
  Split (s +:+ String sep t) sep = Split s sep ++ Split t sep.
Proof.
  induction s as [|a s IH].
  - change ("" +:+ String sep t) with (String sep t). cbn [Split].
    by rewrite decide_True.
  - rewrite append_cons. cbn [Split]. destruct (decide (a = sep)).
    + by rewrite IH.
    + rewrite IH. pose proof (Split_not_nil s sep).
      by destruct (Split s sep).
Qed.

Lemma Split_one s sep : cut sep s = None → Split s sep = [s].
Proof.
  induction s as [|a s IH]; [done |]. cbn [cut Split].
  destruct (decide (a = sep)); [done |].
  destruct (cut sep s) as [[? ?]|]; [done |]. intros _. by rewrite IH.
Qed.

Lemma matchParts_literal patternParts : ∀ pathParts acc params,
  Forall literal patternParts →
  length patternParts = length pathParts →
  matchParts patternParts pathParts acc = Some params →
  pathParts = patternParts ∧ params = acc.
Proof.
  induction patternParts as [|part rest IH]; intros [|seg segs] acc params Hlit Hlen;
    simpl in Hlen; try discriminate.
  - cbn. by intros ?; simplify_eq.
  - apply Forall_cons in Hlit as [Hpart Hrest]. rewrite matchParts_cons, Hpart.
    destruct (String.eqb_spec part seg) as [-> | ?]; [|discriminate]. cbn [negb].
    intros H. destruct (IH segs acc params Hrest ltac:(lia) H) as [-> ->]. done.
Qed.

Lemma matchParts_self_literal parts acc :
  Forall literal parts → matchParts parts parts acc = Some acc.
Proof.
  induction 1 as [|part rest Hpart _ IH]; [done |].
  rewrite matchParts_cons, Hpart, String.eqb_refl. apply IH.
Qed.

Lemma matchParts_app before : ∀ before' after after' acc acc',
  length before = length before' →
  matchParts before before' acc = Some acc' →
  matchParts (before ++ after) (before' ++ after') acc
  = matchParts after after' acc'.
Proof.
  induction before as [|part rest IH]; intros [|seg segs] after after' acc acc' Hlen;
    simpl in Hlen; try discriminate.
  - cbn. by intros ?; simplify_eq.
  - rewrite <- !app_comm_cons, !matchParts_cons.
    destruct (HasPrefix part ":"); [apply IH; lia |].
    destruct (negb (String.eqb part seg)); [done | apply IH; lia].
Qed.

Lemma matchParts_self parts : ∀ acc, is_Some (matchParts parts parts acc).
Proof.
  induction parts as [|part rest IH]; intros acc; [by eexists |].
  rewrite matchParts_cons. destruct (HasPrefix part ":"); [apply IH |].
  rewrite String.eqb_refl. apply IH.
Qed.

(** X6. A pattern without parameters matches exactly one path, itself,
    byte for byte, and binds nothing: a trailing or a doubled slash, or
    another case of a letter, makes the path another one. *)
Theorem matchPath_literal_pattern (pattern path : string)
    (params : gmap string string) :
  Forall literal (Split pattern "/") →
  matchPath pattern path = Some params ↔ path = pattern ∧ params = ∅.
Proof.
  intros Hlit. split.
  - intros Hm. pose proof (matchPath_Some_length _ _ _ Hm) as Hlen.
    rewrite (matchPath_eq _ _ Hlen) in Hm.
    destruct (matchParts_literal _ _ _ _ Hlit Hlen Hm) as [Heq ->].
    split; [|done]. by apply (Split_inj _ _ "/").
  - intros [-> ->]. rewrite matchPath_eq by done.
    by apply matchParts_self_literal.
Qed.

Lemma matchPath_literal_pattern_witness :
  matchPath "/users" "/users" = Some ∅
  ∧ matchPath "/users" "/users/" = None
  ∧ matchPath "/users" "/Users" = None.
Proof.
  assert (Forall literal (Split "/users" "/")) as Hlit
    by (repeat constructor).
  split_and!.
  - by apply (matchPath_literal_pattern "/users" "/users" ∅ Hlit).
  - destruct (matchPath "/users" "/users/") as [params|] eqn:H; [|reflexivity].
    apply (matchPath_literal_pattern "/users" "/users/" params Hlit) in H as [H _].
    discriminate H.
  - destruct (matchPath "/users" "/Users") as [params|] eqn:H; [|reflexivity].
    apply (matchPath_literal_pattern "/users" "/Users" params Hlit) in H as [H _].
    discriminate H.
Defined.

(** X7. A final parameter after a literal base binds whatever follows the
    last slash of the path, the empty segment included: [base/:name]
    matches [base/seg] for every [seg] without a slash and binds [name] to
    it, so [/users/:id] matches [/users/] with [id] empty. *)
Theorem matchPath_final_parameter (base name seg : string) :
  Forall literal (Split base "/") →
  cut "/" name = None →
  cut "/" seg = None →
  matchPath (base +:+ "/:" +:+ name) (base +:+ "/" +:+ seg)
  = Some {[ name := seg ]}.
Proof.
  intros Hlit Hname Hseg.
  change ("/:" +:+ name) with (String "/" (":" +:+ name)).
  change ("/" +:+ seg) with (String "/" seg).
  assert (cut "/" (":" +:+ name) = None) as Hpart.
  { change (":" +:+ name) with (String ":" name). cbn [cut].
    rewrite decide_False by done. by rewrite Hname. }
  assert (Split (base +:+ String "/" (":" +:+ name)) "/"
          = Split base "/" ++ [":" +:+ name]) as Hpattern
    by (by rewrite Split_append, (Split_one _ _ Hpart)).
  assert (Split (base +:+ String "/" seg) "/" = Split base "/" ++ [seg]) as Hpath
    by (by rewrite Split_append, (Split_one _ _ Hseg)).
  rewrite matchPath_eq by (by rewrite Hpattern, Hpath, !length_app).
  rewrite Hpattern, Hpath.
  rewrite (matchParts_app _ _ _ _ ∅ ∅ eq_refl (matchParts_self_literal _ _ Hlit)).
  rewrite matchParts_cons.
  assert (HasPrefix (":" +:+ name) ":" = true) as -> by (apply HasPrefix_colon; eauto).
  rewrite from_1_colon. reflexivity.
Qed.

Lemma matchPath_final_parameter_witness :
  matchPath "/users/:id" "/users/" = Some {[ "id" := "" ]}.
Proof.
  apply (matchPath_final_parameter "/users" "id" "").
  - repeat constructor.
  - reflexivity.
  - reflexivity.
Defined.

(** X8. Every pattern matches itself as a path. Hence a route registered
    through a group, under [path], with middleware added to the group by
    [Use], is found by a request for the registered method and the path
    made of the parent's prefix, the group's prefix and [path]; unless an
    earlier route of the table answers that request, the route found is
    the new one, and it carries the parent's middleware followed by the
    group's. *)
Theorem Group_route_found (r : Router) (groupPrefix : string)
    (mw : list Middleware) (method path : string) (handlers : list Handler)
    (routes : list Route) :
  let group := Router_Use (Group r groupPrefix) mw in
  let fullPath := prefix r +:+ groupPrefix +:+ path in
  let table := add group method path handlers routes in
  is_Some (find table method fullPath)
  ∧ (find routes method fullPath = None →
     ∃ params,
       find table method fullPath
       = Some (mkRoute method fullPath handlers (Router_middleware r ++ mw),
               params)).
Proof.
  intros group fullPath table.
  assert (table = routes ++ [mkRoute method fullPath handlers
                               (Router_middleware r ++ mw)]) as ->.
  { unfold table, add, group, Router_Use, Group, fullPath. cbn [prefix Router_middleware].
    cbn [app]. by rewrite append_assoc. }
  assert (∃ params,
            find [mkRoute method fullPath handlers (Router_middleware r ++ mw)]
                 method fullPath
            = Some (mkRoute method fullPath handlers (Router_middleware r ++ mw),
                    params)) as [params Hnew].
  { rewrite find_cons. unfold candidate. cbn [Method Path].
    rewrite decide_True by done. rewrite matchPath_eq by done.
    destruct (matchParts_self (Split fullPath "/") ∅) as [params ->]. eauto. }
  assert (find routes method fullPath = None →
          find (routes ++ [mkRoute method fullPath handlers
                             (Router_middleware r ++ mw)]) method fullPath
          = Some (mkRoute method fullPath handlers (Router_middleware r ++ mw),
                  params)) as Hlate.
  { intros Hnone. rewrite find_app_None; [done |]. by apply find_None. }
  split.
  - destruct (find routes method fullPath) as [found|] eqn:Hearly.
    + rewrite (find_app_Some _ _ _ _ _ Hearly). eauto.
    + rewrite Hlate by done. eauto.
  - intros Hnone. exists params. by apply Hlate.
Qed.

Lemma Group_route_found_witness :
  ∃ params,
    find (add (Router_Use (Group (Group (newRouter "") "/api") "/v1") [])
              "GET" "/users/:id" [] [])
         "GET" "/api/v1/users/:id"
    = Some (mkRoute "GET" "/api/v1/users/:id" [] [], params).
Proof.
  apply (Group_route_found (Group (newRouter "") "/api") "/v1" [] "GET" "/users/:id"
           [] []).
  reflexivity.
Defined.

End paths.

(** ** Counting and observing *)

Section counting.

Lemma counter_insert key key' v (cs : gmap string Z) :
  counter (<[key := v]> cs) key' = if decide (key' = key) then v else counter cs key'.
Proof.
  unfold counter. case_decide as H.
  - subst. by rewrite lookup_insert_eq.
  - by rewrite lookup_insert_ne.
Qed.

Lemma counters_record kind m r :
  counters kind (record m r)
  = if decide ((counted_under r).1 = kind)
    then add_one (counted_under r).2 (counters kind m)
    else counters kind m.
Proof. by destruct r, kind. Qed.

Lemma occurrences_cons kind key r rs :
  occurrences kind key (r :: rs)
  = ((if decide (counted_under r = (kind, key)) then 1 else 0)
     + occurrences kind key rs)%nat.
Proof.
  unfold occurrences. rewrite filter_cons. by case_decide.
Qed.

(** X9. Counting is exact and keyed: after any sequence of calls of
    [IncRequestTotal], [IncError] and [IncLogCount], in any interleaving,
    each counter of each of the three maps has grown by the number of
    calls made under its key, as long as it stays below the largest
    [int64]; a key no call was made under reads what it read before. *)
Theorem record_counts (rs : list Recording) (m : Metrics) (kind : Kind)
    (key : string) :
  let before := counter (counters kind m) key in
  let calls := Z.of_nat (occurrences kind key rs) in
  (0 ≤ before)%Z →
  (before + calls < 2 ^ 63)%Z →
  counter (counters kind (foldl record m rs)) key = (before + calls)%Z.
Proof.
  revert m. induction rs as [|r rs IH]; intros m before calls Hlow Hhigh.
  - unfold calls, occurrences. cbn. lia.
  - subst before calls. rewrite occurrences_cons in *. cbn [foldl].
    assert (counter (counters kind (record m r)) key
            = (counter (counters kind m) key
               + Z.of_nat (if decide (counted_under r = (kind, key)) then 1 else 0))%Z)
      as Hstep.
    { rewrite counters_record. destruct (counted_under r) as [kind' key'].
      cbn [fst snd]. destruct (decide (kind' = kind)) as [-> | Hk].
      - rewrite add_one_insert, counter_insert.
        destruct (decide (key = key')) as [-> | Hne].
        + rewrite decide_True in * by done. rewrite wrap64_small; lia.
        + rewrite decide_False by congruence. cbn. lia.
      - rewrite decide_False by congruence. cbn. lia. }
    cbv zeta in IH.
    destruct (decide (counted_under r = (kind, key))); cbn [Z.of_nat] in Hstep;
      rewrite IH; rewrite Hstep; lia.
Qed.

Lemma record_counts_witness :
  counter (requestTotal
             (foldl record Metrics_New
                    [RecRequest "GET" "/a" 200; RecError "GET" "/a" "handler_error";
                     RecRequest "GET" "/b" 200; RecLog "error";
                     RecRequest "GET" "/a" 200]))
          "GET_/a_200" = 2%Z.
Proof.
  apply (record_counts
           [RecRequest "GET" "/a" 200; RecError "GET" "/a" "handler_error";
            RecRequest "GET" "/b" 200; RecLog "error"; RecRequest "GET" "/a" 200]
           Metrics_New OfRequests "GET_/a_200").
  - vm_compute. discriminate.
  - vm_compute. reflexivity.
Defined.

Lemma append_inj_r (s t u : string) : s +:+ u = t +:+ u → s = t.
Proof.
  revert t. induction s as [|a s IH]; intros [|b t] H.
  - done.
  - apply (f_equal String.length) in H. rewrite !length_append in H.
    cbn [String.length] in H. lia.
  - apply (f_equal String.length) in H. rewrite !length_append in H.
    cbn [String.length] in H. lia.
  - rewrite !append_cons in H. injection H as -> H. by rewrite (IH t H).
Qed.

Lemma ObserveLatency_inv m method path duration m' :
  ObserveLatency m method path duration = Some m' →
  latency_recordable m method path
  ∧ m' = mkMetrics (requestTotal m)
           (<[latency_key method path +:+ "_bucket" :=
                EntryBucket
                  (mkLatencyBucket
                     (PrimFloat.add (sum (bucket_of m method path))
                                    (float64_of_int64 (Milliseconds duration)))
                     (wrap64 (count (bucket_of m method path) + 1)))]>
              (<[latency_key method path := EntryMutex]> (requestLatency m)))
           (errorTotal m) (logCount m) (activeConns m).
Proof.
  unfold ObserveLatency, LoadOrStore, latency_recordable, bucket_of.
  pose proof (bucket_key_ne (latency_key method path)) as Hne.
  set (key := latency_key method path) in *.
  destruct (requestLatency m !! key) as [[|b]|] eqn:Hk; [| done |].
  - destruct (requestLatency m !! (key +:+ "_bucket")) as [[|b]|] eqn:Hb; [done | |];
      intros ?; simplify_eq; (split; [split; [congruence | congruence] |]);
      f_equal.
    + by rewrite (insert_id _ key EntryMutex Hk).
    + rewrite (insert_id _ key EntryMutex Hk). by rewrite insert_insert_eq.
  - rewrite lookup_insert_ne by done.
    destruct (requestLatency m !! (key +:+ "_bucket")) as [[|b]|] eqn:Hb; [done | |];
      intros ?; simplify_eq; (split; [split; [congruence | congruence] |]);
      f_equal.
    by rewrite insert_insert_eq.
Qed.

(** X10. [ObserveLatency] returns exactly when no entry of the other kind
    sits under one of its two keys; it then marks the key of the (method,
    path), adds the duration in whole milliseconds to the sum of the
    bucket and one to its count (starting from an empty bucket at the
    first observation), and leaves every other entry and every counter as
    it was. *)
Theorem ObserveLatency_accumulates (m : Metrics) (method path : string)
    (duration : Z) :
  let key := latency_key method path in
  let old := bucket_of m method path in
  (is_Some (ObserveLatency m method path duration) ↔ latency_recordable m method path)
  ∧ ∀ m', ObserveLatency m method path duration = Some m' →
      requestLatency m' !! key = Some EntryMutex
      ∧ requestLatency m' !! (key +:+ "_bucket")
        = Some (EntryBucket
                  (mkLatencyBucket
                     (PrimFloat.add (sum old)
                                    (float64_of_int64 (Milliseconds duration)))
                     (wrap64 (count old + 1))))
      ∧ (∀ other, other ≠ key → other ≠ key +:+ "_bucket" →
                  requestLatency m' !! other = requestLatency m !! other)
      ∧ requestTotal m' = requestTotal m ∧ errorTotal m' = errorTotal m
      ∧ logCount m' = logCount m ∧ activeConns m' = activeConns m.
Proof.
  intros key old. split.
  - split.
    + intros [m' H]. by apply ObserveLatency_inv in H as [? _].
    + intros H. destruct (ObserveLatency_Some m method path duration H)
        as (m' & -> & _). eauto.
  - intros m' H. apply ObserveLatency_inv in H as [_ ->].
    cbn [requestLatency requestTotal errorTotal logCount activeConns].
    fold key old. split_and!; try done.
    + rewrite lookup_insert_ne by (intros Heq; by apply (bucket_key_ne key)).
      by rewrite lookup_insert_eq.
    + by rewrite lookup_insert_eq.
    + intros other H1 H2. by rewrite !lookup_insert_ne.
Qed.

(** X11. One latency map holds the marks and the buckets, so two paths
    can stand in each other's way: once a latency has been observed for
    (method, path), another (method, path) can be observed exactly if it
    could before and its key is not the bucket key of the first, nor its
    bucket key the key of the first. In particular, after the first
    observation for [path], every observation for [path_bucket] panics,
    and after the first for [path_bucket], every one for [path]. *)
Theorem ObserveLatency_interference (m m' : Metrics) (method path : string)
    (duration : Z) :
  ObserveLatency m method path duration = Some m' →
  (∀ method' path',
     latency_recordable m' method' path' ↔
       latency_recordable m method' path'
       ∧ latency_key method' path' ≠ latency_key method path +:+ "_bucket"
       ∧ latency_key method' path' +:+ "_bucket" ≠ latency_key method path)
  ∧ (∀ duration', ObserveLatency m' method (path +:+ "_bucket") duration' = None)
  ∧ (∀ base duration', path = base +:+ "_bucket" →
                       ObserveLatency m' method base duration' = None).
Proof.
  intros Hobs.
  destruct (ObserveLatency_inv _ _ _ _ _ Hobs) as [[Hm1 Hm2] Hm'].
  set (key := latency_key method path) in *.
  assert (∀ method' path',
     latency_recordable m' method' path' ↔
       latency_recordable m method' path'
       ∧ latency_key method' path' ≠ key +:+ "_bucket"
       ∧ latency_key method' path' +:+ "_bucket" ≠ key) as Hiff.
  { intros method' path'. set (key' := latency_key method' path').
    unfold latency_recordable. fold key'.
    set (bucket' := mkLatencyBucket _ _) in Hm'.
    assert (∀ k, requestLatency m' !! k
                 = if decide (k = key +:+ "_bucket") then Some (EntryBucket bucket')
                   else if decide (k = key) then Some EntryMutex
                   else requestLatency m !! k) as Hl.
    { intros k. rewrite Hm'. cbn [requestLatency].
      destruct (decide (k = key +:+ "_bucket")) as [-> | ?];
        [by rewrite lookup_insert_eq | rewrite lookup_insert_ne by done].
      destruct (decide (k = key)) as [-> | ?];
        [by rewrite lookup_insert_eq | by rewrite lookup_insert_ne]. }
    pose proof (bucket_key_ne key) as Hkb.
    destruct (decide (key' = key +:+ "_bucket")) as [Hk1 | Hk1].
    { split.
      - intros [H _]. exfalso. apply (H bucket'). rewrite Hl. by rewrite decide_True.
      - by intros (_ & ? & _). }
    destruct (decide (key' +:+ "_bucket" = key)) as [Hk2 | Hk2].
    { split.
      - intros [_ H]. exfalso. apply H. rewrite Hl.
        rewrite decide_False by congruence. by rewrite decide_True.
      - by intros (_ & _ & ?). }
    destruct (decide (key' = key)) as [Hk3 | Hk3].
    { split.
      - intros _. split_and!; [rewrite Hk3; apply Hm1 | rewrite Hk3; apply Hm2 | done..].
      - intros _. split.
        + intros bucket. rewrite Hl, decide_False, decide_True by done. done.
        + rewrite Hl, Hk3, decide_True by done. done. }
    assert (key' +:+ "_bucket" ≠ key +:+ "_bucket") as Hk4
      by (intros Heq; by apply append_inj_r in Heq).
    split.
    - intros [H1 H2]. split_and!; try done.
      + intros bucket Hb. apply (H1 bucket). by rewrite Hl, !decide_False.
      + intros Hb. apply H2. by rewrite Hl, !decide_False.
    - intros ([H1 H2] & _ & _). split.
      + intros bucket. rewrite Hl, !decide_False by done. apply H1.
      + rewrite Hl, !decide_False by done. apply H2. }
  assert (∀ method' path' duration',
            ¬ latency_recordable m' method' path' →
            ObserveLatency m' method' path' duration' = None) as Hnone.
  { intros method' path' duration' Hnot.
    destruct (ObserveLatency m' method' path' duration') as [m''|] eqn:H; [|done].
    by apply ObserveLatency_inv in H as [? _]. }
  split_and!; [exact Hiff | |].
  - intros duration'. apply Hnone. rewrite Hiff. intros (_ & H & _). apply H.
    unfold key, latency_key. by rewrite !append_assoc.
  - intros base duration' ->. apply Hnone. rewrite Hiff. intros (_ & _ & H).
    apply H. unfold key, latency_key. by rewrite !append_assoc.
Qed.

Lemma ObserveLatency_interference_witness :
  (m' ← ObserveLatency Metrics_New "GET" "/a" 0;
   Some (ObserveLatency m' "GET" "/a_bucket" 0)) = Some None.
Proof.
  destruct (ObserveLatency Metrics_New "GET" "/a" 0) as [m'|] eqn:H;
    [|vm_compute in H; discriminate H].
  destruct (ObserveLatency_interference Metrics_New m' "GET" "/a" 0 H)
    as (_ & Hnone & _).
  cbn [mbind option_bind]. f_equal. apply (Hnone 0%Z).
Defined.

(** X12. [DecActiveConns] undoes [IncActiveConns] and the other way
    round, for every value an [int64] gauge can hold, the two ends of the
    range included (where the gauge wraps around and back). *)
Theorem ActiveConns_round_trip (m : Metrics) :
  (- 2 ^ 63 ≤ activeConns m < 2 ^ 63)%Z →
  DecActiveConns (IncActiveConns m) = m ∧ IncActiveConns (DecActiveConns m) = m.
Proof.
  intros H. destruct m as [r l e g a]. unfold DecActiveConns, IncActiveConns.
  cbn [requestTotal requestLatency errorTotal logCount activeConns] in *.
  assert (wrap64 (wrap64 (a + 1) + -1) = a ∧ wrap64 (wrap64 (a + -1) + 1) = a)
    as [-> ->]; [|done].
  unfold wrap64.
  split; Z.to_euclidean_division_equations; lia.
Qed.

Lemma ActiveConns_round_trip_witness :
  DecActiveConns (IncActiveConns (mkMetrics ∅ ∅ ∅ ∅ (2 ^ 63 - 1)))
  = mkMetrics ∅ ∅ ∅ ∅ (2 ^ 63 - 1).
Proof.
  apply (ActiveConns_round_trip (mkMetrics ∅ ∅ ∅ ∅ (2 ^ 63 - 1))).
  vm_compute. split; [discriminate | reflexivity].
Defined.

End counting.

(** ** The dispatcher, whatever the handlers *)

Section dispatch_frame.

Lemma same_setting_refl a : same_setting a a.
Proof. by repeat split. Qed.

Lemma same_setting_trans a a' a'' :
  same_setting a a' → same_setting a' a'' → same_setting a a''.
Proof.
  intros (? & ? & ? & ? & ?) (? & ? & ? & ? & ?). repeat split; congruence.
Qed.

Lemma set_pool_setting a pool' : same_setting a (set_pool a pool').
Proof. by repeat split. Qed.

Lemma log_error_setting a : same_setting a (log_error a) ∧ pool (log_error a) = pool a.
Proof.
  unfold log_error. destruct (metrics a) as [m|] eqn:Hm; [|by repeat split].
  destruct (Logger_Error_fields (logger a) m) as (_ & _ & _ & Hg).
  repeat split; cbn; try done. by rewrite Hm, Hg.
Qed.

Lemma recordMetrics_setting a method path status duration errorType a' :
  recordMetrics a method path status duration errorType = Some a' →
  same_setting a a' ∧ pool a' = pool a.
Proof.
  unfold recordMetrics. destruct (metrics a) as [m|] eqn:Hm.
  - destruct (ObserveLatency _ _ _ _) as [m1|] eqn:Hobs; [|done].
    cbn [mbind option_bind]. intros ?; simplify_eq.
    apply ObserveLatency_inv in Hobs as [_ ->].
    repeat split; cbn; try done. rewrite Hm. by case_decide.
  - intros ?; simplify_eq. by repeat split.
Qed.

(** Whatever [handleRequest] returns was put together by the deferred
    release: the context the handlers worked on goes back to the pool the
    context was taken from. *)
Lemma handleRequest_Some a fctx elapsed a' fout :
  handleRequest a fctx elapsed = Some (a', fout) →
  ∃ a2 c, a' = releaseCtx a2 c ∧ Ctx_RequestCtx c = Some fout
          ∧ same_setting a a2 ∧ pool a2 = (pool_Get (pool a)).2.
Proof.
  unfold handleRequest. rewrite acquireCtx_result. cbn zeta.
  set (a0 := set_pool a (pool_Get (pool a)).2).
  assert (same_setting a a0 ∧ pool a0 = (pool_Get (pool a)).2) as [H0 Hp0]
    by (split; [apply set_pool_setting | done]).
  assert (∀ a2 c, same_setting a0 a2 ∧ pool a2 = pool a0 →
                  return_ a2 c = Some (a', fout) →
                  ∃ a2 c, a' = releaseCtx a2 c ∧ Ctx_RequestCtx c = Some fout
                          ∧ same_setting a a2 ∧ pool a2 = (pool_Get (pool a)).2)
    as Hret.
  { intros a2 c [Hs Hp]. unfold return_.
    destruct (Ctx_RequestCtx c) as [f|] eqn:Hf; [|done].
    cbn [mbind option_bind]. intros ?; simplify_eq. exists a2, c.
    split_and!; [done | done | by eapply same_setting_trans | congruence]. }
  change (routes a0) with (routes a).
  destruct (find (routes a) _ _) as [[route params]|].
  - destruct (buildChain a0 _ _ _) as [[c err]|]; [|done].
    cbn [mbind option_bind]. destruct err as [e|].
    + destruct (Ctx_StatusCode c) as [status|]; [|done]. cbn [mbind option_bind].
      destruct (if (status =? 0)%Z then _ else _) as [[c1 status1]|]; [|done].
      cbn [mbind option_bind].
      destruct (recordMetrics (log_error a0) _ _ _ _ _) as [a2|] eqn:Hrec; [|done].
      cbn [mbind option_bind]. apply Hret.
      apply recordMetrics_setting in Hrec as [Hs Hp].
      destruct (log_error_setting a0) as [Hs' Hp'].
      split; [by eapply same_setting_trans | congruence].
    + destruct (Ctx_StatusCode c) as [status|]; [|done]. cbn [mbind option_bind].
      destruct (recordMetrics a0 _ _ _ _ _) as [a2|] eqn:Hrec; [|done].
      cbn [mbind option_bind]. apply Hret.
      by apply recordMetrics_setting in Hrec.
  - destruct (Ctx_Status _ _) as [c1|]; [|done]. cbn [mbind option_bind].
    destruct (Ctx_JSON _ _ _) as [[c2 ?]|]; [|done]. cbn [mbind option_bind].
    destruct (recordMetrics a0 _ _ _ _ _) as [a2|] eqn:Hrec; [|done].
    cbn [mbind option_bind]. apply Hret.
    by apply recordMetrics_setting in Hrec.
Qed.

(** X13. A request that is handled leaves the application as it was but
    for the pool and the counters: the route table, the middleware and the
    logger are the same, a missing collector stays missing, and the gauge
    of active connections is never moved (nothing in the dispatch path
    calls [IncActiveConns] or [DecActiveConns]). The pool holds one
    context if it was empty and as many as before otherwise, and if all
    pooled contexts were detached from transport and logger, they all
    are again. *)
Theorem handleRequest_frame (a : App) (fctx : RequestCtx) (elapsed : Z)
    (a' : App) (fout : RequestCtx) :
  handleRequest a fctx elapsed = Some (a', fout) →
  router a' = router a ∧ routes a' = routes a
  ∧ App_middleware a' = App_middleware a ∧ logger a' = logger a
  ∧ activeConns <$> metrics a' = activeConns <$> metrics a
  ∧ length (pool a') = Nat.max 1 (length (pool a))
  ∧ (Forall detached (pool a) → Forall detached (pool a')).
Proof.
  intros (a2 & c & -> & _ & (Hr & Ht & Hm & Hl & Hg) & Hp)%handleRequest_Some.
  unfold releaseCtx, pool_Put. cbn [router routes App_middleware logger metrics pool
                                    set_pool].
  split_and!; try done.
  - rewrite Hp. cbn [length]. destruct (pool a); cbn; lia.
  - intros Hall. apply Forall_cons. split; [done |].
    rewrite Hp. destruct Hall as [|c0 rest]; [constructor | done].
Qed.

Lemma handleRequest_frame_witness :
  Example.and_then
    (handleRequest (Example.app (Some Metrics_New))
                   (Example.request "GET" "/quiet" []) 0)
    (fun a' => Some (length (pool a'), activeConns <$> metrics a'))
  = Some (1%nat, Some 0%Z).
Proof.
  destruct (handleRequest (Example.app (Some Metrics_New))
                          (Example.request "GET" "/quiet" []) 0)
    as [[a' fout]|] eqn:H.
  - destruct (handleRequest_frame _ _ _ _ _ H) as (_ & _ & _ & _ & Hg & Hp & _).
    unfold Example.and_then. cbn [mbind option_bind fst]. by rewrite Hg, Hp.
  - assert (Example.panics
              (handleRequest (Example.app (Some Metrics_New))
                             (Example.request "GET" "/quiet" []) 0) = false) as Hrun
      by (vm_compute; reflexivity).
    rewrite H in Hrun. discriminate Hrun.
Defined.

End dispatch_frame.

(** ** The dispatcher on a matched route *)

Section dispatch_matched.

Lemma attached_StatusCode c f :
  Ctx_RequestCtx c = Some f →
  Ctx_StatusCode c = Some (Response_StatusCode (fctx_Response f)).
Proof. intros H. unfold Ctx_StatusCode. by rewrite H. Qed.

Lemma return_attached a c f :
  Ctx_RequestCtx c = Some f → return_ a c = Some (releaseCtx a c, f).
Proof. intros H. unfold return_. by rewrite H. Qed.

(** The dispatcher once the route is found and its chain has returned: the
    status read back is never 0, so the response is the chain's. *)
Lemma handleRequest_matched a fctx elapsed route params c' err f' :
  let method := req_Method (fctx_Request fctx) in
  let path := req_Path (fctx_Request fctx) in
  let a0 := set_pool a (pool_Get (pool a)).2 in
  let status := Response_StatusCode (fctx_Response f') in
  find (routes a) method path = Some (route, params) →
  buildChain a (Handlers route) (Route_middleware route)
             (bind_params params (acquireCtx a fctx).1) = Some (c', err) →
  Ctx_RequestCtx c' = Some f' →
  handleRequest a fctx elapsed =
  match err with
  | Some _ =>
      a2 ← recordMetrics (log_error a0) method (Path route) status elapsed
                         "handler_error";
      return_ a2 c'
  | None =>
      a2 ← recordMetrics a0 method (Path route) status elapsed "";
      return_ a2 c'
  end.
Proof.
  intros method path a0 status Hfind Hchain Hattached.
  unfold handleRequest. rewrite acquireCtx_result in *. cbn zeta.
  change (routes (set_pool a _)) with (routes a).
  fold method path. rewrite Hfind. cbn zeta.
  rewrite buildChain_set_pool. cbn [fst] in Hchain. rewrite Hchain.
  cbn [mbind option_bind]. rewrite (attached_StatusCode _ _ Hattached).
  fold status.
  assert ((status =? 0)%Z = false) as Hset
    by apply Z.eqb_neq, Response_StatusCode_nonzero.
  destruct err; cbn [mbind option_bind]; by rewrite Hset.
Qed.

Lemma recordMetrics_metrics a m method path status duration errorType :
  metrics a = Some m →
  latency_recordable m method path →
  ∃ a' m', recordMetrics a method path status duration errorType = Some a'
           ∧ metrics a' = Some m'
           ∧ requestTotal m' = add_one (request_key method path status) (requestTotal m)
           ∧ errorTotal m' =
               (if decide (errorType ≠ "")
                then add_one (error_key method path errorType) (errorTotal m)
                else errorTotal m)
           ∧ logCount m' = logCount m.
Proof.
  intros Hm Hrec.
  destruct (recordMetrics_Some a m method path status duration errorType Hm Hrec)
    as (m' & -> & ?). by exists (set_metrics a m'), m'.
Qed.

Lemma log_error_metrics a m :
  metrics a = Some m →
  metrics (log_error a) = Some (Logger_Error (logger a) m).
Proof. intros Hm. unfold log_error. by rewrite Hm. Qed.

Lemma log_error_disabled a : metrics a = None → log_error a = a.
Proof. intros Hm. unfold log_error. by rewrite Hm. Qed.

(** The dispatcher when the chain of the matched route returns on an
    attached context, with or without a collector. *)
Lemma handleRequest_returned (a : App) (fctx : RequestCtx) (elapsed : Z)
    (route : Route) (params : gmap string string)
    (c' : Ctx) (err : option error) (f' : RequestCtx) :
  let method := req_Method (fctx_Request fctx) in
  let path := req_Path (fctx_Request fctx) in
  let status := Response_StatusCode (fctx_Response f') in
  find (routes a) method path = Some (route, params) →
  buildChain a (Handlers route) (Route_middleware route)
             (bind_params params (acquireCtx a fctx).1) = Some (c', err) →
  Ctx_RequestCtx c' = Some f' →
  (∀ m, metrics a = Some m → latency_recordable m method (Path route)) →
  ∃ a',
    handleRequest a fctx elapsed = Some (a', f')
    ∧ (metrics a = None → metrics a' = None)
    ∧ ∀ m, metrics a = Some m →
        ∃ m',
          metrics a' = Some m'
          ∧ requestTotal m'
            = add_one (request_key method (Path route) status) (requestTotal m)
          ∧ errorTotal m'
            = match err with
              | Some _ => add_one (error_key method (Path route) "handler_error")
                                  (errorTotal m)
              | None => errorTotal m
              end
          ∧ logCount m'
            = match err with
              | Some _ => logCount (Logger_Error (logger a) m)
              | None => logCount m
              end.
Proof.
  intros method path status Hfind Hchain Hattached Hrec.
  rewrite (handleRequest_matched _ _ _ _ _ _ _ _ Hfind Hchain Hattached).
  fold method status.
  set (a0 := set_pool a (pool_Get (pool a)).2).
  destruct (metrics a) as [m|] eqn:Hm.
  - assert (metrics a0 = Some m) as Hm0 by done.
    specialize (Hrec m eq_refl).
    destruct err as [e|]; cbn [mbind option_bind].
    + pose proof (log_error_metrics a0 m Hm0) as Hm1.
      destruct (Logger_Error_fields (logger a0) m) as (Hr1 & Hl1 & He1 & _).
      assert (latency_recordable (Logger_Error (logger a0) m) method (Path route))
        as Hrec1 by (unfold latency_recordable; by rewrite Hl1).
      destruct (recordMetrics_metrics (log_error a0) _ method (Path route) status
                  elapsed "handler_error" Hm1 Hrec1)
        as (a2 & m' & -> & Hm2 & Hreq & Herr & Hlog).
      cbn [mbind option_bind]. rewrite (return_attached _ _ _ Hattached).
      exists (releaseCtx a2 c'). split_and!; [done | done |].
      intros m0 [= <-]. exists m'. split_and!; [done | | | done].
      * by rewrite Hreq, Hr1.
      * rewrite Herr, He1. by rewrite decide_True.
    + destruct (recordMetrics_metrics a0 _ method (Path route) status
                  elapsed "" Hm0 Hrec)
        as (a2 & m' & -> & Hm2 & Hreq & Herr & Hlog).
      cbn [mbind option_bind]. rewrite (return_attached _ _ _ Hattached).
      exists (releaseCtx a2 c'). split_and!; [done | done |].
      intros m0 [= <-]. exists m'. split_and!; [done | done | | done].
      rewrite Herr. rewrite decide_False; [done |]. by intros H.
  - assert (metrics a0 = None) as Hm0 by done.
    assert (∀ errorType,
              (a2 ← recordMetrics a0 method (Path route) status elapsed errorType;
               return_ a2 c') = Some (releaseCtx a0 c', f')) as Hrun.
    { intros errorType. rewrite recordMetrics_disabled by done.
      cbn [mbind option_bind]. by apply return_attached. }
    exists (releaseCtx a0 c'). split_and!; [| done | done].
    destruct err; [rewrite log_error_disabled by done |]; apply Hrun.
Qed.




(** X15. A route registered without handlers is answered without running
    any middleware, the application's or the route's: whatever they are,
    the response leaves the dispatcher as the transport delivered it (an
    auth middleware in front of such a route guards nothing). *)
Theorem handleRequest_no_handlers (a : App) (fctx : RequestCtx) (elapsed : Z)
    (route : Route) (params : gmap string string) :
  let method := req_Method (fctx_Request fctx) in
  let path := req_Path (fctx_Request fctx) in
  find (routes a) method path = Some (route, params) →
  Handlers route = [] →
  (∀ m, metrics a = Some m → latency_recordable m method (Path route)) →
  ∃ a', handleRequest a fctx elapsed = Some (a', fctx).
Proof.
  intros method path Hfind Hnil Hrec.
  destruct (handleRequest_returned a fctx elapsed route params
              (bind_params params (acquireCtx a fctx).1) None fctx Hfind)
    as (a' & Hrun & _).
  - by rewrite Hnil, buildChain_nil.
  - by rewrite acquireCtx_result.
  - exact Hrec.
  - by exists a'.
Qed.

Lemma handleRequest_no_handlers_witness :
  Example.response_of
    (handleRequest
       (register (Example.empty None)
                 (Router_Use (router (Example.empty None))
                             [BasicAuth Example.admin_secret])
                 "GET" "/open" [])
       (Example.request "GET" "/open" []) 0)
  = Some (mkResponse 0 "" ∅ None).
Proof.
  destruct (handleRequest_no_handlers
              (register (Example.empty None)
                        (Router_Use (router (Example.empty None))
                                    [BasicAuth Example.admin_secret])
                        "GET" "/open" [])
              (Example.request "GET" "/open" []) 0
              (mkRoute "GET" "/open" [] [BasicAuth Example.admin_secret]) ∅)
    as [a' ->].
  - reflexivity.
  - reflexivity.
  - intros m Hm. discriminate Hm.
  - reflexivity.
Defined.



End dispatch_matched.

(** ** Loggers and parameters through the dispatcher *)

Section dispatch_logging.




Lemma buildChain_with_RequestLogger a hs h routeMiddleware :
  buildChain (with_RequestLogger a) (hs ++ [h]) routeMiddleware
  = RequestLogger (buildChain a (hs ++ [h]) routeMiddleware).
Proof. by rewrite !buildChain_snoc. Qed.

Lemma recordMetrics_with_RequestLogger a method path status duration errorType :
  recordMetrics (with_RequestLogger a) method path status duration errorType
  = with_RequestLogger <$> recordMetrics a method path status duration errorType.
Proof.
  unfold recordMetrics. cbn [with_RequestLogger metrics].
  destruct (metrics a) as [m|]; [|done].
  by destruct (ObserveLatency _ _ _ _).
Qed.

Lemma log_error_with_RequestLogger a :
  log_error (with_RequestLogger a) = with_RequestLogger (log_error a).
Proof. unfold log_error. cbn [with_RequestLogger metrics]. by destruct (metrics a). Qed.

Lemma return_with_RequestLogger a c :
  return_ (with_RequestLogger a) c
  = (fun out => (with_RequestLogger out.1, out.2)) <$> return_ a c.
Proof. unfold return_. by destruct (Ctx_RequestCtx c). Qed.

(** X18. The request logger changes nothing but the console: an
    application with [RequestLogger] as its first middleware answers
    every request as the application without it does, with the same
    response, the same counters and the same pool, and panics exactly
    when that one does. *)
Theorem RequestLogger_transparent (a : App) (fctx : RequestCtx) (elapsed : Z) :
  handleRequest (with_RequestLogger a) fctx elapsed
  = (fun out => (with_RequestLogger out.1, out.2)) <$> handleRequest a fctx elapsed.
Proof.
  unfold handleRequest. rewrite !acquireCtx_result. cbn zeta.
  cbn [with_RequestLogger logger pool].
  set (a0 := set_pool a (pool_Get (pool a)).2).
  change (set_pool (with_RequestLogger a) (pool_Get (pool a)).2)
    with (with_RequestLogger a0).
  change (routes (with_RequestLogger a0)) with (routes a0).
  assert (∀ a1 method path status errorType (c : Ctx),
            (a2 ← recordMetrics (with_RequestLogger a1) method path status elapsed
                                errorType;
             return_ a2 c)
            = (fun out => (with_RequestLogger out.1, out.2)) <$>
                (a2 ← recordMetrics a1 method path status elapsed errorType;
                 return_ a2 c)) as Hrest.
  { intros. rewrite recordMetrics_with_RequestLogger.
    destruct (recordMetrics a1 _ _ _ _ _) as [a2|]; [|done].
    cbn [fmap option_fmap option_map mbind option_bind].
    apply return_with_RequestLogger. }
  destruct (find (routes a0) _ _) as [[route params]|].
  - cbn zeta.
    assert (∀ rest : Ctx → option error → option (App * RequestCtx),
              ∀ rest' : Ctx → option error → option (App * RequestCtx),
              (∀ c err, Ctx_StatusCode c = None → rest c err = None) →
              (∀ c err, rest c err
                        = (fun out => (with_RequestLogger out.1, out.2)) <$> rest' c err) →
              ('(c, err) ← buildChain (with_RequestLogger a0) (Handlers route)
                                      (Route_middleware route)
                                      (bind_params params
                                         (mkCtx (Some fctx) ∅ ∅ (Some (logger a))
                                                (Ctx_Auth (pool_Get (pool a)).1)));
               rest c err)
              = (fun out => (with_RequestLogger out.1, out.2)) <$>
                  ('(c, err) ← buildChain a0 (Handlers route)
                                          (Route_middleware route)
                                          (bind_params params
                                             (mkCtx (Some fctx) ∅ ∅ (Some (logger a))
                                                    (Ctx_Auth (pool_Get (pool a)).1)));
                   rest' c err)) as Hchain.
    { intros rest rest' Hpanic Hsame.
      destruct (Handlers route) as [|h0 hs] eqn:Hh using rev_ind.
      - rewrite !buildChain_nil. cbn [mbind option_bind]. apply Hsame.
      - clear IHhs. rewrite buildChain_with_RequestLogger. unfold RequestLogger.
        destruct (buildChain a0 _ _ _) as [[c err]|]; [|done].
        cbn [mbind option_bind]. unfold RequestLogger_line.
        destruct (Ctx_StatusCode c) as [status|] eqn:Hs.
        + cbn [mbind option_bind]. unfold Ctx_StatusCode in Hs.
          destruct (Ctx_RequestCtx c); [|done]. cbn [mbind option_bind].
          apply Hsame.
        + cbn [mbind option_bind]. rewrite <- Hsame. by rewrite Hpanic. }
    apply Hchain.
    + intros c err Hs. destruct err; by rewrite Hs.
    + intros c err. destruct err as [e|].
      * destruct (Ctx_StatusCode c) as [status|]; [|done]. cbn [mbind option_bind].
        destruct (if (status =? 0)%Z then _ else _) as [[c1 status1]|]; [|done].
        cbn [mbind option_bind]. rewrite log_error_with_RequestLogger. apply Hrest.
      * destruct (Ctx_StatusCode c) as [status|]; [|done]. cbn [mbind option_bind].
        apply Hrest.
  - destruct (Ctx_Status _ _) as [c1|]; [|done]. cbn [mbind option_bind].
    destruct (Ctx_JSON _ _ _) as [[c2 ?]|]; [|done]. cbn [mbind option_bind].
    apply Hrest.
Qed.

(** X19. A handler sees the bindings of the match and nothing else: for
    a route whose one handler answers with the parameter [name] and that
    no middleware wraps, in an application without a collector or with
    one whose latency entries do not clash with the keys of the route,
    the response is 200, plain text, with the value the match bound to
    [name], or the empty string when the pattern has no such parameter;
    nothing bound for an earlier request shows. *)
Theorem handleRequest_echo (a : App) (fctx : RequestCtx) (elapsed : Z)
    (route : Route) (params : gmap string string) (name : string) :
  let method := req_Method (fctx_Request fctx) in
  let path := req_Path (fctx_Request fctx) in
  find (routes a) method path = Some (route, params) →
  Handlers route = [echo name] →
  App_middleware a ++ Route_middleware route = [] →
  (∀ m, metrics a = Some m → latency_recordable m method (Path route)) →
  Example.response_of (handleRequest a fctx elapsed)
  = Some (mkResponse StatusOK "text/plain" (resp_header (fctx_Response fctx))
            (Some (PayloadString (default "" (params !! name))))).
Proof.
  intros method path Hfind Hh Hmw Hrec.
  set (out := mkRequestCtx (fctx_Request fctx)
                (mkResponse StatusOK "text/plain" (resp_header (fctx_Response fctx))
                   (Some (PayloadString (default "" (params !! name)))))).
  destruct (handleRequest_returned a fctx elapsed route params
              (mkCtx (Some out) params ∅ (Some (logger a))
                     (Ctx_Auth (pool_Get (pool a)).1)) None out Hfind)
    as (a' & -> & _).
  - rewrite Hh. change [echo name] with ([] ++ [echo name]).
    rewrite buildChain_snoc, Hmw, acquireCtx_result. cbn [foldr fst].
    unfold echo, bind_params, Ctx_Param, Ctx_String, set_Response.
    cbn [Ctx_RequestCtx Params Locals Ctx_Logger Ctx_Auth mbind option_bind
         fctx_Request fctx_Response].
    rewrite (right_id_L ∅ (∪)). reflexivity.
  - reflexivity.
  - exact Hrec.
  - reflexivity.
Qed.

Lemma handleRequest_echo_witness :
  Example.response_of
    (handleRequest
       (App_GET (Example.empty (Some Metrics_New)) "/echo/:word" [echo "word"])
       (Example.request "GET" "/echo/hello" []) 0)
  = Some (mkResponse StatusOK "text/plain" ∅ (Some (PayloadString "hello"))).
Proof.
  rewrite (handleRequest_echo
             (App_GET (Example.empty (Some Metrics_New)) "/echo/:word" [echo "word"])
             (Example.request "GET" "/echo/hello" []) 0
             (mkRoute "GET" "/echo/:word" [echo "word"] []) {[ "word" := "hello" ]}
             "word").
  - vm_compute. reflexivity.
  - vm_compute. reflexivity.
  - reflexivity.
  - reflexivity.
  - intros m [= <-]. split; [intros bucket | ]; vm_compute; discriminate.
Defined.

End dispatch_logging.

(** ** The keys of the counters *)

Section counter_keys.

Lemma cut_string_of_uint d : cut "_" (NilEmpty.string_of_uint d) = None.
Proof.
  induction d as [|d IH|d IH|d IH|d IH|d IH|d IH|d IH|d IH|d IH|d IH];
    [done | cbn [NilEmpty.string_of_uint cut]; rewrite decide_False by done;
            by rewrite IH ..].
Qed.

Lemma cut_fmt_d z : cut "_" (fmt_d z) = None.
Proof.
  unfold fmt_d, NilZero.string_of_int, NilZero.string_of_uint.
  destruct (Z.to_int z) as [d | d].
  - destruct d; [done | apply cut_string_of_uint..].
  - cbn [cut]. rewrite decide_False by done.
    destruct d; [done | by rewrite cut_string_of_uint..].
Qed.

Lemma fmt_d_inj z z' : fmt_d z = fmt_d z' → z = z'.
Proof.
  unfold fmt_d. intros H.
  assert (∀ z, NilZero.int_of_string (NilZero.string_of_int (Z.to_int z))
               = Some (Z.to_int z)) as Hparse.
  { intros [|p|p]; [done | |]; apply NilZero.isi; cbn; intros [= Hnil];
      by apply DecimalPos.Unsigned.to_uint_nonnil in Hnil. }
  assert (Some (Z.to_int z) = Some (Z.to_int z')) as [= Hint]
    by (by rewrite <- !Hparse, H).
  by rewrite <- (DecimalZ.of_to z), Hint, DecimalZ.of_to.
Qed.

(** A text that ends in an underscore and a piece without underscore is
    cut there in one way only. *)
Lemma last_underscore (s s' t t' : string) :
  cut "_" t = None → cut "_" t' = None →
  s +:+ String "_" t = s' +:+ String "_" t' → s = s' ∧ t = t'.
Proof.
  intros Ht Ht'. revert s'. induction s as [|a s IH]; intros [|b s'] H.
  - by injection H as ->.
  - change ("" +:+ String "_" t) with (String "_" t) in H.
    rewrite append_cons in H. injection H as <- ->.
    destruct (cut_separator "_" s' t') as [? Hcut]. congruence.
  - change ("" +:+ String "_" t') with (String "_" t') in H.
    rewrite append_cons in H. injection H as -> <-.
    destruct (cut_separator "_" s t) as [? Hcut]. congruence.
  - rewrite !append_cons in H. injection H as -> H.
    by destruct (IH s' H) as [-> ->].
Qed.

Lemma append_last_inj (s t : string) a b :
  s +:+ String a "" = t +:+ String b "" → a = b.
Proof.
  revert t. induction s as [|c s IH]; intros [|d t] H.
  - by injection H.
  - rewrite append_cons in H. injection H as _ H.
    apply (f_equal String.length) in H. rewrite length_append in H.
    cbn [String.length] in H. lia.
  - rewrite append_cons in H. injection H as _ H.
    apply (f_equal String.length) in H. rewrite length_append in H.
    cbn [String.length] in H. lia.
  - rewrite !append_cons in H. injection H as _ H. by apply (IH t).
Qed.

Lemma first_underscore (s s' t t' : string) :
  cut "_" s = None → cut "_" s' = None →
  s +:+ String "_" t = s' +:+ String "_" t' → s = s' ∧ t = t'.
Proof.
  intros Hs Hs' H.
  pose proof (cut_append "_" s t Hs) as H1.
  rewrite H, (cut_append "_" s' t' Hs') in H1. by simplify_eq.
Qed.

(** X20. Requests of different method, route or status never share a
    request counter, provided the methods hold no underscore: the key
    determines the three. The same holds for the two kinds of error the
    dispatcher counts: the [handler_error] and [not_found] counters of
    different (method, path) are different, and no [handler_error] counter
    is a [not_found] counter. (Error keys of arbitrary kinds can coincide:
    [/a_b] with kind [c] and [/a] with kind [b_c] share one.) *)
Theorem counter_keys_distinct (method method' path path' : string) :
  cut "_" method = None →
  cut "_" method' = None →
  (∀ status status',
     request_key method path status = request_key method' path' status' →
     method = method' ∧ path = path' ∧ status = status')
  ∧ (∀ kind, kind = "handler_error" ∨ kind = "not_found" →
       error_key method path kind = error_key method' path' kind →
       method = method' ∧ path = path')
  ∧ error_key method path "handler_error" ≠ error_key method' path' "not_found"
  ∧ (∀ a b c, error_key method (path +:+ "_" +:+ a) (b +:+ "_" +:+ c)
              = error_key method (path +:+ "_" +:+ a +:+ "_" +:+ b) c).
Proof.
  intros Hm Hm'. split_and!.
  - intros status status' H. unfold request_key in H.
    change ("_" +:+ path +:+ "_" +:+ fmt_d status)
      with (String "_" (path +:+ String "_" (fmt_d status))) in H.
    change ("_" +:+ path' +:+ "_" +:+ fmt_d status')
      with (String "_" (path' +:+ String "_" (fmt_d status'))) in H.
    apply first_underscore in H as [-> H]; [|done..].
    apply last_underscore in H as [-> H]; [|apply cut_fmt_d..].
    by apply fmt_d_inj in H as ->.
  - intros kind Hkind H. unfold error_key in H.
    change ("_" +:+ path +:+ "_" +:+ kind)
      with (String "_" (path +:+ "_" +:+ kind)) in H.
    change ("_" +:+ path' +:+ "_" +:+ kind)
      with (String "_" (path' +:+ "_" +:+ kind)) in H.
    apply first_underscore in H as [-> H]; [|done..].
    by apply append_inj_r in H as ->.
  - intros H. unfold error_key in H.
    change "handler_error" with ("handler_erro" +:+ "r") in H.
    change "not_found" with ("not_foun" +:+ "d") in H.
    rewrite !append_assoc in H. by apply append_last_inj in H.
  - intros a b c. unfold error_key. by rewrite <- !append_assoc.
Qed.

Lemma counter_keys_distinct_witness :
  request_key "GET" "/a_1" 200 ≠ request_key "GET" "/a" 1200
  ∧ error_key "GET" "/a_b" "c" = error_key "GET" "/a" "b_c".
Proof.
  destruct (counter_keys_distinct "GET" "GET" "/a_1" "/a" eq_refl eq_refl)
    as (Hreq & _ & _ & _).
  split; [|reflexivity].
  intros H. apply Hreq in H as (_ & H & _). discriminate H.
Defined.

End counter_keys.

(** ** The challenge of the auth middlewares *)

Section challenge.

Lemma admits_not_rejects (mw : Middleware) c info : admits mw c info → ¬ rejects mw c.
Proof.
  intros (c' & _ & _ & _ & _ & _ & Hadmit) (outcome & Hsame & _).
  pose proof (Hsame (fun _ => None)) as H1.
  pose proof (Hsame (fun c => Some (c, None))) as H2.
  rewrite Hadmit in H1, H2. congruence.
Qed.

(** Follows a middleware along the branch the hypotheses select. *)
Ltac along :=
  cbv beta delta [BasicAuth BearerAuth APIKeyAuth Auth];
  repeat first
    [ progress cbn [mbind option_bind negb]
    | match goal with H : ?x = _ |- context [?x] => rewrite H end
    | rewrite decide_True by done
    | rewrite decide_False by done ];
  try done.

Ltac passed_branch info :=
  solve [intros Hrej; exfalso; apply (admits_not_rejects _ _ info) in Hrej; [done |];
         apply admits_SetAuth; intros next'; along].

Ltac refused_branch fctx :=
  solve [intros _; along; cbn [negb]; along;
         match goal with
         | Hc : Ctx_RequestCtx ?c = Some fctx |- _ =>
             destruct c as [rc ps ls lg au]; cbn [Ctx_RequestCtx] in Hc; subst rc;
             rewrite Ctx_Unauthorized_attached; unfold response_header;
             cbn [mbind option_bind fst Ctx_RequestCtx fctx_Response resp_header
                  SetBody SetStatusCode SetContentType]; done
         end].

Lemma challenge_header msg c fctx :
  Ctx_RequestCtx c = Some fctx →
  response_header "WWW-Authenticate"
    (c1 ← Ctx_Set "WWW-Authenticate" realm c; Ctx_Unauthorized msg c1)
  = Some realm.
Proof.
  destruct c as [rc ps ls lg au]. cbn [Ctx_RequestCtx]. intros ->.
  unfold response_header, Ctx_Set, set_Response.
  cbn [mbind option_bind Ctx_RequestCtx Params Locals Ctx_Logger Ctx_Auth].
  rewrite Ctx_Unauthorized_attached.
  cbn [mbind option_bind fst Ctx_RequestCtx fctx_Response resp_header
       SetBody SetStatusCode SetContentType Header_Set].
  by rewrite lookup_insert_eq.
Qed.

(** X22. A rejected request is challenged only when it came without
    credentials: among the 401 answers of [BasicAuth] the one to an empty
    [Authorization] header carries [WWW-Authenticate], the others (wrong
    scheme, bad encoding, no colon, refused credentials) do not; the
    combined [Auth] challenges when the header is empty and the key
    branch does not apply; [BearerAuth] and [APIKeyAuth] never do. *)
Theorem challenge_only_without_credentials (basic : BasicAuthValidator)
    (bearer : BearerAuthValidator) (apikey : APIKeyValidator)
    (headerName : string) (config : AuthConfig) (next : Handler) (c : Ctx)
    (fctx : RequestCtx) :
  let auth := req_Peek (fctx_Request fctx) "Authorization" in
  let apiKey := req_Peek (fctx_Request fctx) (APIKeyName config) in
  let challenge mw := response_header "WWW-Authenticate" (mw next c) in
  Ctx_RequestCtx c = Some fctx →
  resp_header (fctx_Response fctx) !! "WWW-Authenticate" = None →
  (rejects (BasicAuth basic) c →
   challenge (BasicAuth basic) = if decide (auth = "") then Some realm else None)
  ∧ (rejects (BearerAuth bearer) c → challenge (BearerAuth bearer) = None)
  ∧ (rejects (APIKeyAuth apikey headerName) c →
     challenge (APIKeyAuth apikey headerName) = None)
  ∧ (rejects (Auth config) c →
     challenge (Auth config)
     = if decide (auth = "" ∧ (apiKey = "" ∨ APIKeyValidator_ config = None))
       then Some realm else None).
Proof.
  intros auth apiKey challenge Hc Hfresh.
  assert (∀ key, Ctx_Get key c = Some (req_Peek (fctx_Request fctx) key)) as Hget
    by (intros key; unfold Ctx_Get; by rewrite Hc).
  unfold challenge. split_and!.
  - pose proof (Hget "Authorization") as Ha. fold auth in Ha.
    destruct (decide (auth = "")) as [He | Hne].
    { intros _. along. by apply (challenge_header _ _ fctx). }
    destruct (HasPrefix auth "Basic ") eqn:Hp; [|refused_branch fctx].
    destruct (GoBase64.DecodeString (from 6 auth)) as [decoded|] eqn:Hdec;
      [|refused_branch fctx].
    destruct (SplitN decoded ":" 2) as [|username [|password [|more rest]]] eqn:Hsplit;
      try (refused_branch fctx).
    destruct (basic username password) eqn:Hv; [|refused_branch fctx].
    passed_branch (mkAuthInfo "basic" "" username password true).
  - pose proof (Hget "Authorization") as Ha. fold auth in Ha.
    destruct (decide (auth = "")) as [He | Hne]; [refused_branch fctx |].
    destruct (HasPrefix auth "Bearer ") eqn:Hp; [|refused_branch fctx].
    destruct (bearer (from 7 auth)) eqn:Hv; [|refused_branch fctx].
    passed_branch (mkAuthInfo "bearer" (from 7 auth) "" "" true).
  - pose proof (Hget (if decide (headerName = "") then "X-API-Key" else headerName))
      as Hk.
    set (key := req_Peek _ _) in Hk.
    destruct (decide (key = "")) as [He | Hne]; [refused_branch fctx |].
    destruct (apikey key) eqn:Hv; [|refused_branch fctx].
    passed_branch (mkAuthInfo "apikey" key "" "" true).
  - pose proof (Hget "Authorization") as Ha. fold auth in Ha.
    pose proof (Hget (APIKeyName config)) as Hk. fold apiKey in Hk.
    destruct (if decide (apiKey = "") then None else APIKeyValidator_ config)
      as [validator|] eqn:Hkv.
    { assert (¬ (auth = "" ∧ (apiKey = "" ∨ APIKeyValidator_ config = None))) as Hno.
      { intros [_ [H | H]]; [by rewrite decide_True in Hkv |].
        destruct (decide (apiKey = "")); congruence. }
      rewrite (decide_False _ _ Hno).
      destruct (validator apiKey) eqn:Hv; [|refused_branch fctx].
      passed_branch (mkAuthInfo "apikey" apiKey "" "" true). }
    assert (apiKey = "" ∨ APIKeyValidator_ config = None) as Hkey
      by (destruct (decide (apiKey = "")); [by left | by right]).
    destruct (decide (auth = "")) as [He | Hne].
    { rewrite decide_True by done. intros _. along. by apply (challenge_header _ _ fctx). }
    rewrite decide_False by (by intros [? _]).
    destruct (if HasPrefix auth "Bearer " then BearerValidator config else None)
      as [validator|] eqn:Hbv.
    { destruct (validator (from 7 auth)) eqn:Hv; [|refused_branch fctx].
      passed_branch (mkAuthInfo "bearer" (from 7 auth) "" "" true). }
    destruct (if HasPrefix auth "Basic " then BasicValidator config else None)
      as [validator|] eqn:Hav; [|refused_branch fctx].
    destruct (GoBase64.DecodeString (from 6 auth)) as [decoded|] eqn:Hdec;
      [|refused_branch fctx].
    destruct (SplitN decoded ":" 2) as [|username [|password [|more rest]]] eqn:Hsplit;
      try (refused_branch fctx).
    destruct (validator username password) eqn:Hv; [|refused_branch fctx].
    passed_branch (mkAuthInfo "basic" "" username password true).
Qed.

Lemma challenge_only_without_credentials_witness :
  response_header "WWW-Authenticate"
    (BasicAuth Example.admin_secret Example.silent
               (Example.attached (Example.request "GET" "/" [])))
  = Some realm
  ∧ response_header "WWW-Authenticate"
      (BasicAuth Example.admin_secret Example.silent
                 (Example.attached
                    (Example.request "GET" "/" [("Authorization", "Basic !")])))
    = None.
Proof.
  split.
  - destruct (challenge_only_without_credentials Example.admin_secret
                (fun _ => true) (fun _ => true) "" Example.config Example.silent
                (Example.attached (Example.request "GET" "/" []))
                (Example.request "GET" "/" []) eq_refl eq_refl) as (H & _).
    rewrite H; [reflexivity |].
    apply (rejects_challenge _ "missing authorization header").
    intros next. reflexivity.
  - destruct (challenge_only_without_credentials Example.admin_secret
                (fun _ => true) (fun _ => true) "" Example.config Example.silent
                (Example.attached
                   (Example.request "GET" "/" [("Authorization", "Basic !")]))
                (Example.request "GET" "/" [("Authorization", "Basic !")])
                eq_refl eq_refl) as (H & _).
    rewrite H; [reflexivity |].
    apply (rejects_Unauthorized _ "invalid base64 encoding").
    intros next. reflexivity.
Defined.

End challenge.

(** ** The renderings stay available *)

Section rendering_invariant.

Lemma renderable_latency m m' :
  requestLatency m' = requestLatency m → renderable m → renderable m'.
Proof. intros H Hm key. rewrite H. apply Hm. Qed.

Lemma recordMetrics_renderable a m method path status duration errorType a' :
  metrics a = Some m →
  renderable m →
  HasSuffix (latency_key method path) "_bucket" = false →
  recordMetrics a method path status duration errorType = Some a' →
  ∃ m', metrics a' = Some m' ∧ renderable m'.
Proof.
  intros Hm Hr Hkey. unfold recordMetrics. rewrite Hm.
  destruct (ObserveLatency _ _ _ _) as [m1|] eqn:Hobs; [|done].
  cbn [mbind option_bind]. intros ?; simplify_eq.
  assert (renderable m1) as Hr1.
  { eapply ObserveLatency_renderable; [| exact Hkey | exact Hobs].
    by apply (renderable_latency m). }
  eexists. split; [reflexivity |]. by case_decide.
Qed.

Lemma renderings_available m uptime :
  renderable m → is_Some (ToJSON m uptime) ∧ is_Some (ToPrometheus m uptime).
Proof.
  intros Hr. destruct (Range_latencies_Some (requestLatency m) Hr)
    as (result & Hresult & Hspec).
  split.
  - unfold ToJSON. rewrite Hresult. by eexists.
  - unfold ToPrometheus, ToPrometheus_pieces.
    rewrite !counter_lines_Some, (latency_lines_Some _ result Hr Hspec).
    by eexists.
Qed.

(** X23. The metrics stay renderable under the dispatcher: if no mutex
    sits under a key ending in [_bucket] before a request, then none does
    after it, provided neither the key of the requested path nor the key
    of a registered pattern ends in [_bucket] for the method of the
    request. Starting from a fresh collector, the text and the structured
    exposition therefore never panic on such an application: both are
    available after the request. *)
Theorem handleRequest_renderable (a : App) (fctx : RequestCtx) (elapsed : Z)
    (m : Metrics) (a' : App) (fout : RequestCtx) :
  let method := req_Method (fctx_Request fctx) in
  let path := req_Path (fctx_Request fctx) in
  metrics a = Some m →
  renderable m →
  HasSuffix (latency_key method path) "_bucket" = false →
  (∀ route, route ∈ routes a →
            HasSuffix (latency_key method (Path route)) "_bucket" = false) →
  handleRequest a fctx elapsed = Some (a', fout) →
  ∃ m', metrics a' = Some m' ∧ renderable m'
        ∧ ∀ uptime, is_Some (ToJSON m' uptime) ∧ is_Some (ToPrometheus m' uptime).
Proof.
  intros method path Hm Hr Hpath Hroutes Hrun.
  cut (∃ m', metrics a' = Some m' ∧ renderable m').
  { intros (m' & ? & Hr'). exists m'. split_and!; [done.. |].
    intros uptime. by apply renderings_available. }
  revert Hrun. unfold handleRequest. rewrite acquireCtx_result. cbn zeta.
  set (a0 := set_pool a (pool_Get (pool a)).2).
  change (routes a0) with (routes a). fold method path.
  assert (metrics a0 = Some m) as Hm0 by done.
  assert (∀ a1 m1 p status errorType c,
            metrics a1 = Some m1 → renderable m1 →
            HasSuffix (latency_key method p) "_bucket" = false →
            (a2 ← recordMetrics a1 method p status elapsed errorType; return_ a2 c)
            = Some (a', fout) →
            ∃ m', metrics a' = Some m' ∧ renderable m') as Hrest.
  { intros a1 m1 p status errorType c Hm1 Hr1 Hp.
    destruct (recordMetrics a1 _ _ _ _ _) as [a2|] eqn:Hrec; [|done].
    cbn [mbind option_bind]. unfold return_.
    destruct (Ctx_RequestCtx c); [|done]. cbn [mbind option_bind].
    intros ?; simplify_eq.
    by apply (recordMetrics_renderable _ _ _ _ _ _ _ _ Hm1 Hr1 Hp) in Hrec. }
  destruct (find (routes a) method path) as [[route params]|] eqn:Hfind.
  - apply find_Some_first in Hfind as (before & after & Htable & _).
    assert (HasSuffix (latency_key method (Path route)) "_bucket" = false) as Hp.
    { apply Hroutes. rewrite Htable. apply elem_of_app. right.
      apply elem_of_cons. by left. }
    destruct (buildChain a0 _ _ _) as [[c err]|]; [|done].
    cbn [mbind option_bind]. destruct err as [e|].
    + destruct (Ctx_StatusCode c) as [status|]; [|done]. cbn [mbind option_bind].
      destruct (if (status =? 0)%Z then _ else _) as [[c1 status1]|]; [|done].
      cbn [mbind option_bind].
      apply (Hrest _ (Logger_Error (logger a0) m)); [by apply log_error_metrics | | done].
      destruct (Logger_Error_fields (logger a0) m) as (_ & Hl & _).
      by apply (renderable_latency m).
    + destruct (Ctx_StatusCode c) as [status|]; [|done]. cbn [mbind option_bind].
      by apply (Hrest _ m).
  - destruct (Ctx_Status _ _) as [c1|]; [|done]. cbn [mbind option_bind].
    destruct (Ctx_JSON _ _ _) as [[c2 ?]|]; [|done]. cbn [mbind option_bind].
    by apply (Hrest _ m).
Qed.

Lemma handleRequest_renderable_witness :
  Example.and_then
    (handleRequest (Example.empty (Some Metrics_New))
                   (Example.request "GET" "/nope" []) 0)
    (fun a' => m' ← metrics a'; Some (Example.panics (ToPrometheus m' 0%float)))
  = Some false.
Proof.
  destruct (handleRequest (Example.empty (Some Metrics_New))
                          (Example.request "GET" "/nope" []) 0)
    as [[a' fout]|] eqn:H.
  - destruct (handleRequest_renderable (Example.empty (Some Metrics_New))
                (Example.request "GET" "/nope" []) 0 Metrics_New a' fout)
      as (m' & Hm' & _ & Hr').
    + reflexivity.
    + intros key _. vm_compute. discriminate.
    + reflexivity.
    + intros route Hroute. by apply elem_of_nil in Hroute.
    + exact H.
    + unfold Example.and_then. cbn [mbind option_bind fst]. rewrite Hm'.
      cbn [mbind option_bind].
      destruct (Hr' 0%float) as [_ [text ->]]. reflexivity.
  - assert (Example.panics
              (handleRequest (Example.empty (Some Metrics_New))
                             (Example.request "GET" "/nope" []) 0) = false) as Hrun
      by (vm_compute; reflexivity).
    rewrite H in Hrun. discriminate Hrun.
Defined.

End rendering_invariant.
